(** * Task manager: a shallow embedding of [task_manager.py]

    The program is a menu-driven to-do list.  Its state is one Python list of
    task dictionaries, mutated in place by the operations and rewritten to
    [tasks.json] after every change.  The embedding keeps that shape:

    - Python text ([str]) is a list of Unicode code points;
    - [json.dump] / [json.load] are modelled by an encoder and a decoder over
      a JSON value type ([Module Json]);
    - the file [tasks.json] is one node of a small file-system model;
    - the operations run in a state-and-exception monad over a [world]
      holding the task list, the file, the pending keyboard input and the
      printed output;
    - what is printed is recorded as a list of events, one per [print] or
      [input] prompt of the source, without the layout and the colours.

    Python is CPython 3.11 with its default settings, writing to a terminal
    that takes UTF-8.  Outside the model: the value of floating-point
    numbers in JSON, the encoding of the file in bytes (a file holds text,
    or is marked as one that does not decode), the limits of the JSON decoder (the depth of nesting it accepts and the
    length of the integers it converts), text that cannot be printed (lone
    surrogates) and interrupts.  Statements about what is printed are made
    for text that can be printed, and statements about what is loaded for
    text within the limits of the decoder. *)

From Stdlib Require Import List ZArith NArith Bool Lia String Ascii.
From Stdlib Require Import Permutation Sorted Relations.
From Stdlib Require DecimalN DecimalPos DecimalFacts.
Import ListNotations.

Set Implicit Arguments.
Set Warnings "-register-all".

(* ================================================================= *)
(** ** Python values used by the program *)

Module Py.

(** A Python [str]: a sequence of code points. *)
Definition str := list N.

Fixpoint text (s : string) : str :=
  match s with
  | EmptyString => []
  | String a r => N_of_ascii a :: text r
  end.

(** [isch "x" c]: the code point [c] is the character [x]. *)
Definition isch (a : ascii) (c : N) : bool := N.eqb c (N_of_ascii a).

(** The double quote and the backslash. *)
Definition QUOTE : N := 34.
Definition BACKSLASH : N := 92.

(** The exceptions the program can meet. *)
Inductive exn :=
| JSONDecodeError
| FileNotFoundError
| PermissionError
| IsADirectoryError
| UnicodeDecodeError
| OSError
| EOFError.

(** Outcome of a call: a value, or a raised exception. *)
Inductive res (A : Type) :=
| Ret (a : A)
| Raise (e : exn).
Arguments Ret {A} a.
Arguments Raise {A} e.

(** [str.isspace] on one code point. *)
Definition isspace (c : N) : bool :=
  ((9 <=? c) && (c <=? 13) || (28 <=? c) && (c <=? 32) ||
   (c =? 133) || (c =? 160) || (c =? 5760) ||
   (8192 <=? c) && (c <=? 8202) || (c =? 8232) || (c =? 8233) ||
   (c =? 8239) || (c =? 8287) || (c =? 12288))%N.

Fixpoint lstrip (s : str) : str :=
  match s with
  | [] => []
  | c :: r => if isspace c then lstrip r else s
  end.

Definition rstrip (s : str) : str := rev (lstrip (rev s)).

(** [s.strip()] *)
Definition strip (s : str) : str := rstrip (lstrip s).

(** The digit zero of every script that has decimal digits (Unicode 14.0,
    the version of CPython 3.11); the nine code points after each of them are
    its digits one to nine.  The first entry is the ASCII zero. *)
Definition decimal_zeros : list N :=
  [   48; 1632; 1776; 1984; 2406; 2534; 2662; 2790;
   2918; 3046; 3174; 3302; 3430; 3558; 3664; 3792;
   3872; 4160; 4240; 6112; 6160; 6470; 6608; 6784;
   6800; 6992; 7088; 7232; 7248; 42528; 43216; 43264;
   43472; 43504; 43600; 44016; 65296; 66720; 68912; 69734;
   69872; 69942; 70096; 70384; 70736; 70864; 71248; 71360;
   71472; 71904; 72016; 72784; 73040; 73120; 92768; 92864;
   93008; 120782; 120792; 120802; 120812; 120822; 123200; 123632;
   125264; 130032]%N.

(** The value of a decimal digit, of any script. *)
Definition digit (c : N) : option N :=
  match find (fun z => (z <=? c) && (c <? z + 10))%N decimal_zeros with
  | Some z => Some (c - z)%N
  | None => None
  end.

(** Digits after the first one; a single underscore may separate two
    digits. *)
Fixpoint int_digits (acc : N) (s : str) : option N :=
  match s with
  | [] => Some acc
  | c :: r =>
      if isch "_" c then
        match r with
        | [] => None
        | d :: r' =>
            match digit d with
            | Some v => int_digits (10 * acc + v) r'
            | None => None
            end
        end
      else
        match digit c with
        | Some v => int_digits (10 * acc + v) r
        | None => None
        end
  end.

(** The characters of [s] that are not underscores: in a well-formed number,
    its digits. *)
Definition digit_count (s : str) : N :=
  N.of_nat (List.length (filter (fun c => negb (isch "_" c)) s)).

(** [sys.int_info.default_max_str_digits]: [int] refuses a decimal text of
    more digits (CPython 3.11 and later). *)
Definition MAX_STR_DIGITS : N := 4300.

Definition int_unsigned (s : str) : option N :=
  match s with
  | [] => None
  | c :: r =>
      match digit c with
      | Some v =>
          if (digit_count s <=? MAX_STR_DIGITS)%N then int_digits v r else None
      | None => None
      end
  end.

(** White space as [int] sees it: the ASCII blanks, and outside ASCII what
    [str.isspace] accepts (the ASCII separators 28 to 31 are not blanks
    here). *)
Definition int_space (c : N) : bool :=
  ((9 <=? c) && (c <=? 13) || (c =? 32) || (127 <=? c) && isspace c)%N.

Fixpoint int_lstrip (s : str) : str :=
  match s with
  | [] => []
  | c :: r => if int_space c then int_lstrip r else s
  end.

(** [int(s)] for a [str] in base ten; [None] stands for [ValueError].
    Blanks around the number are dropped, one sign may come first, and the
    digits of every script count as digits. *)
Definition int (s : str) : option Z :=
  match rev (int_lstrip (rev (int_lstrip s))) with
  | [] => None
  | c :: r =>
      if isch "-" c then option_map (fun n => (- Z.of_N n)%Z) (int_unsigned r)
      else if isch "+" c then option_map Z.of_N (int_unsigned r)
      else option_map Z.of_N (int_unsigned (c :: r))
  end.

Fixpoint uint_chars (u : Decimal.uint) : str :=
  match u with
  | Decimal.Nil => []
  | Decimal.D0 r => 48%N :: uint_chars r
  | Decimal.D1 r => 49%N :: uint_chars r
  | Decimal.D2 r => 50%N :: uint_chars r
  | Decimal.D3 r => 51%N :: uint_chars r
  | Decimal.D4 r => 52%N :: uint_chars r
  | Decimal.D5 r => 53%N :: uint_chars r
  | Decimal.D6 r => 54%N :: uint_chars r
  | Decimal.D7 r => 55%N :: uint_chars r
  | Decimal.D8 r => 56%N :: uint_chars r
  | Decimal.D9 r => 57%N :: uint_chars r
  end.

(** [repr(z)] of an integer. *)
Definition repr_int (z : Z) : str :=
  (if (z <? 0)%Z then text "-" else []) ++ uint_chars (N.to_uint (Z.abs_N z)).

End Py.

Import Py.

(* ================================================================= *)
(** ** The [json] module, as far as the program uses it

    [json.dump(obj, f, indent=4)] and [json.load(f)] with their default
    options ([ensure_ascii=True], [strict=True]).  Floating-point numbers
    never occur in a task; a decoded one keeps its literal text. *)

Module Json.

Inductive json :=
| JNull
| JBool (b : bool)
| JInt (z : Z)
| JFloat (literal : str)
| JStr (s : str)
| JList (items : list json)
| JDict (members : list (str * json)).

Fixpoint str_eqb (a b : str) : bool :=
  match a, b with
  | [], [] => true
  | x :: a', y :: b' => N.eqb x y && str_eqb a' b'
  | _, _ => false
  end.

(** *** Encoder *)

Definition hexdigit (d : N) : N := (if d <? 10 then 48 + d else 87 + d)%N.

(** [format(n, '04x')] for [n < 0x10000] *)
Definition hex4 (n : N) : str :=
  [hexdigit (n / 4096 mod 16); hexdigit (n / 256 mod 16);
   hexdigit (n / 16 mod 16); hexdigit (n mod 16)]%N.

Definition uescape (n : N) : str := BACKSLASH :: text "u" ++ hex4 n.

(** One character under [ensure_ascii]: printable ASCII other than the
    quote and the backslash stands for itself. *)
Definition escape (c : N) : str :=
  if (c =? QUOTE)%N then [BACKSLASH; QUOTE]
  else if (c =? BACKSLASH)%N then [BACKSLASH; BACKSLASH]
  else if (c =? 10)%N then BACKSLASH :: text "n"
  else if (c =? 13)%N then BACKSLASH :: text "r"
  else if (c =? 9)%N then BACKSLASH :: text "t"
  else if (c =? 12)%N then BACKSLASH :: text "f"
  else if (c =? 8)%N then BACKSLASH :: text "b"
  else if ((32 <=? c) && (c <=? 126))%N then [c]
  else if (c <? 65536)%N then uescape c
  else
    let n := (c - 65536)%N in
    uescape (N.lor 55296 (N.land (N.shiftr n 10) 1023)) ++
    uescape (N.lor 56320 (N.land n 1023)).

Definition encode_str (s : str) : str :=
  QUOTE :: flat_map escape s ++ [QUOTE].

Definition newline_indent (level : nat) : str :=
  10%N :: repeat 32%N (4 * level).

(** The items of a list after the first one, each behind its separator. *)
Fixpoint more_items (enc : json -> str) (level : nat) (l : list json) : str :=
  match l with
  | [] => []
  | y :: l' =>
      text "," ++ newline_indent level ++ enc y ++ more_items enc level l'
  end.

Definition member (enc : json -> str) (kv : str * json) : str :=
  encode_str (fst kv) ++ text ": " ++ enc (snd kv).

Fixpoint more_members (enc : json -> str) (level : nat)
  (l : list (str * json)) : str :=
  match l with
  | [] => []
  | kv :: l' =>
      text "," ++ newline_indent level ++ member enc kv ++
      more_members enc level l'
  end.

(** The value [v] printed at nesting depth [level]. *)
Fixpoint encode (level : nat) (v : json) : str :=
  match v with
  | JNull => text "null"
  | JBool true => text "true"
  | JBool false => text "false"
  | JInt z => repr_int z
  | JFloat literal => literal
  | JStr s => encode_str s
  | JList [] => text "[]"
  | JList (x :: xs) =>
      text "[" ++ newline_indent (S level) ++ encode (S level) x ++
      more_items (encode (S level)) (S level) xs ++
      newline_indent level ++ text "]"
  | JDict [] => text "{}"
  | JDict (kv :: ms) =>
      text "{" ++ newline_indent (S level) ++
      encode_str (fst kv) ++ text ": " ++ encode (S level) (snd kv) ++
      more_members (encode (S level)) (S level) ms ++
      newline_indent level ++ text "}"
  end.

(** [json.dumps(v, indent=4)] *)
Definition dumps (v : json) : str := encode 0 v.

(** *** Decoder *)

Definition is_ws (c : N) : bool :=
  ((c =? 32) || (c =? 9) || (c =? 10) || (c =? 13))%N.

Fixpoint skip_ws (s : str) : str :=
  match s with
  | [] => []
  | c :: r => if is_ws c then skip_ws r else s
  end.

Definition unhex (c : N) : option N :=
  if ((48 <=? c) && (c <=? 57))%N then Some (c - 48)%N
  else if ((97 <=? c) && (c <=? 102))%N then Some (c - 87)%N
  else if ((65 <=? c) && (c <=? 70))%N then Some (c - 55)%N
  else None.

Definition unhex4 (a b c d : N) : option N :=
  match unhex a, unhex b, unhex c, unhex d with
  | Some x, Some y, Some z, Some w => Some (4096 * x + 256 * y + 16 * z + w)%N
  | _, _, _, _ => None
  end.

Definition high_surrogate (u : N) : bool := ((55296 <=? u) && (u <=? 56319))%N.
Definition low_surrogate (u : N) : bool := ((56320 <=? u) && (u <=? 57343))%N.

Definition join_surrogates (u u2 : N) : N :=
  (65536 + N.lor (N.shiftl (u - 55296) 10) (u2 - 56320))%N.

Definition unescape (e : N) : option N :=
  if (e =? QUOTE)%N then Some QUOTE
  else if (e =? BACKSLASH)%N then Some BACKSLASH
  else if isch "/" e then Some 47%N
  else if isch "b" e then Some 8%N
  else if isch "f" e then Some 12%N
  else if isch "n" e then Some 10%N
  else if isch "r" e then Some 13%N
  else if isch "t" e then Some 9%N
  else None.

Definition push (c : N) (r : option (str * str)) : option (str * str) :=
  match r with
  | Some (s, rest) => Some (c :: s, rest)
  | None => None
  end.

(** The body of a string literal, after its opening quote: the decoded text
    and what follows the closing quote. *)
Fixpoint scanstring (s : str) : option (str * str) :=
  match s with
  | [] => None
  | c :: r =>
      if (c =? QUOTE)%N then Some ([], r)
      else if (c <? 32)%N then None
      else if (c =? BACKSLASH)%N then
        match r with
        | [] => None
        | e :: r1 =>
            if isch "u" e then
              match r1 with
              | h1 :: h2 :: h3 :: h4 :: r2 =>
                  match unhex4 h1 h2 h3 h4 with
                  | None => None
                  | Some u =>
                      match r2 with
                      | b :: e2 :: l1 :: l2 :: l3 :: l4 :: r3 =>
                          if high_surrogate u && (b =? BACKSLASH)%N && isch "u" e2 then
                            match unhex4 l1 l2 l3 l4 with
                            | None => None
                            | Some u2 =>
                                if low_surrogate u2
                                then push (join_surrogates u u2) (scanstring r3)
                                else push u (scanstring r2)
                            end
                          else push u (scanstring r2)
                      | _ => push u (scanstring r2)
                      end
                  end
              | _ => None
              end
            else
              match unescape e with
              | Some c' => push c' (scanstring r1)
              | None => None
              end
        end
      else push c (scanstring r)
  end.

Definition digit_of (c : N) : option (Decimal.uint -> Decimal.uint) :=
  if (c =? 48)%N then Some Decimal.D0
  else if (c =? 49)%N then Some Decimal.D1
  else if (c =? 50)%N then Some Decimal.D2
  else if (c =? 51)%N then Some Decimal.D3
  else if (c =? 52)%N then Some Decimal.D4
  else if (c =? 53)%N then Some Decimal.D5
  else if (c =? 54)%N then Some Decimal.D6
  else if (c =? 55)%N then Some Decimal.D7
  else if (c =? 56)%N then Some Decimal.D8
  else if (c =? 57)%N then Some Decimal.D9
  else None.

(** The longest run of digits at the head of [s]. *)
Fixpoint scan_uint (s : str) : Decimal.uint * str :=
  match s with
  | [] => (Decimal.Nil, [])
  | c :: r =>
      match digit_of c with
      | Some d => let (u, rest) := scan_uint r in (d u, rest)
      | None => (Decimal.Nil, s)
      end
  end.

(** [0|[1-9][0-9]*] *)
Definition int_part (s : str) : option (Decimal.uint * str) :=
  match s with
  | [] => None
  | c :: r =>
      if (c =? 48)%N then Some (Decimal.D0 Decimal.Nil, r)
      else
        match digit_of c with
        | Some d => let (u, rest) := scan_uint r in Some (d u, rest)
        | None => None
        end
  end.

(** [(\.[0-9]+)?] *)
Definition frac_part (s : str) : option str * str :=
  match s with
  | c :: r =>
      if isch "." c then
        match scan_uint r with
        | (Decimal.Nil, _) => (None, s)
        | (u, rest) => (Some (c :: uint_chars u), rest)
        end
      else (None, s)
  | [] => (None, s)
  end.

(** [([eE][-+]?[0-9]+)?] *)
Definition exp_part (s : str) : option str * str :=
  match s with
  | c :: r =>
      if isch "e" c || isch "E" c then
        let (sign, r') :=
          match r with
          | g :: r0 => if isch "-" g || isch "+" g then ([g], r0) else ([], r)
          | [] => ([], r)
          end in
        match scan_uint r' with
        | (Decimal.Nil, _) => (None, s)
        | (u, rest) => (Some (c :: sign ++ uint_chars u), rest)
        end
      else (None, s)
  | [] => (None, s)
  end.

Definition scan_number (s : str) : option (json * str) :=
  let (neg, s1) :=
    match s with
    | c :: r => if isch "-" c then (true, r) else (false, s)
    | [] => (false, s)
    end in
  match int_part s1 with
  | None => None
  | Some (u, s2) =>
      let (frac, s3) := frac_part s2 in
      let (ex, s4) := exp_part s3 in
      match frac, ex with
      | None, None =>
          let n := Z.of_N (N.of_uint u) in
          Some (JInt (if neg then - n else n)%Z, s4)
      | _, _ =>
          Some (JFloat ((if neg then text "-" else []) ++ uint_chars u ++
                        match frac with Some f => f | None => [] end ++
                        match ex with Some e => e | None => [] end), s4)
      end
  end.

(** [s] with the prefix [p] removed, when it starts with [p]. *)
Fixpoint strip_prefix (p s : str) : option str :=
  match p, s with
  | [], _ => Some s
  | a :: p', b :: s' => if (a =? b)%N then strip_prefix p' s' else None
  | _ :: _, [] => None
  end.

Definition scan_literal (s : str) : option (json * str) :=
  match strip_prefix (text "null") s with
  | Some r => Some (JNull, r)
  | None =>
  match strip_prefix (text "true") s with
  | Some r => Some (JBool true, r)
  | None =>
  match strip_prefix (text "false") s with
  | Some r => Some (JBool false, r)
  | None =>
  match strip_prefix (text "NaN") s with
  | Some r => Some (JFloat (text "NaN"), r)
  | None =>
  match strip_prefix (text "Infinity") s with
  | Some r => Some (JFloat (text "Infinity"), r)
  | None =>
  match strip_prefix (text "-Infinity") s with
  | Some r => Some (JFloat (text "-Infinity"), r)
  | None => scan_number s
  end end end end end end.

(** A later member with the key of an earlier one replaces its value. *)
Fixpoint dict_set (k : str) (v : json) (d : list (str * json)) :
  list (str * json) :=
  match d with
  | [] => [(k, v)]
  | (k', v') :: r =>
      if str_eqb k k' then (k, v) :: r else (k', v') :: dict_set k v r
  end.

Definition dict_of_pairs (ps : list (str * json)) : list (str * json) :=
  fold_left (fun d kv => dict_set (fst kv) (snd kv) d) ps [].

(** One round of each of the three mutually recursive scanners, over the
    scanners for the nested values. *)
Section Rounds.

Variable value : str -> option (json * str).
Variable items : str -> option (list json * str).
Variable members : str -> option (list (str * json) * str).

(** One value at the head of [s]. *)
Definition value_round (s : str) : option (json * str) :=
  match s with
  | [] => None
  | c :: r =>
      if (c =? QUOTE)%N then
        match scanstring r with
        | Some (t, rest) => Some (JStr t, rest)
        | None => None
        end
      else if isch "{" c then
        match skip_ws r with
        | [] => None
        | c' :: r' =>
            if isch "}" c' then Some (JDict [], r')
            else
              match members (c' :: r') with
              | Some (ps, rest) => Some (JDict (dict_of_pairs ps), rest)
              | None => None
              end
        end
      else if isch "[" c then
        match skip_ws r with
        | [] => None
        | c' :: r' =>
            if isch "]" c' then Some (JList [], r')
            else
              match items (c' :: r') with
              | Some (l, rest) => Some (JList l, rest)
              | None => None
              end
        end
      else scan_literal s
  end.

(** The items of a list from the first one up to the closing bracket. *)
Definition items_round (s : str) : option (list json * str) :=
  match value s with
  | None => None
  | Some (v, r) =>
      match skip_ws r with
      | [] => None
      | c :: r' =>
          if isch "]" c then Some ([v], r')
          else if isch "," c then
            match items (skip_ws r') with
            | Some (l, rest) => Some (v :: l, rest)
            | None => None
            end
          else None
      end
  end.

(** The members of an object from the first key up to the closing brace. *)
Definition members_round (s : str) : option (list (str * json) * str) :=
  match s with
  | [] => None
  | q :: r0 =>
      if (q =? QUOTE)%N then
        match scanstring r0 with
        | None => None
        | Some (k, r1) =>
            match skip_ws r1 with
            | [] => None
            | c1 :: r2 =>
                if isch ":" c1 then
                  match value (skip_ws r2) with
                  | None => None
                  | Some (v, r3) =>
                      match skip_ws r3 with
                      | [] => None
                      | c :: r' =>
                          if isch "}" c then Some ([(k, v)], r')
                          else if isch "," c then
                            match members (skip_ws r') with
                            | Some (l, rest) => Some ((k, v) :: l, rest)
                            | None => None
                            end
                          else None
                      end
                  end
                else None
            end
        end
      else None
  end.

End Rounds.

(** The scanners; the fuel bounds the number of nested rounds, and [loads]
    supplies more than a text of its length can use. *)
Fixpoint scan_once (n : nat) (s : str) {struct n} : option (json * str) :=
  match n with
  | O => None
  | S n' => value_round (fun x => parse_items n' x)
                        (fun x => parse_members n' x) s
  end
with parse_items (n : nat) (s : str) {struct n} : option (list json * str) :=
  match n with
  | O => None
  | S n' => items_round (fun x => scan_once n' x)
                        (fun x => parse_items n' x) s
  end
with parse_members (n : nat) (s : str) {struct n} :
  option (list (str * json) * str) :=
  match n with
  | O => None
  | S n' => members_round (fun x => scan_once n' x)
                          (fun x => parse_members n' x) s
  end.

(** [s.startswith('\ufeff')] *)
Definition starts_with_bom (s : str) : bool :=
  match s with
  | c :: _ => (c =? 65279)%N
  | [] => false
  end.

(** [json.loads(s)]: one value between optional white space, nothing
    after it.  A byte-order mark at the start is refused.  The decoder of
    CPython moreover gives up on an integer of more than 4300 digits
    ([ValueError]) and on nesting beyond the recursion limit
    ([RecursionError]); both are left out here, and what is proved of
    arbitrary text is stated for text within these limits. *)
Definition loads (s : str) : res json :=
  if starts_with_bom s then Raise JSONDecodeError
  else
    match scan_once (2 * List.length s + 2) (skip_ws s) with
    | Some (v, rest) =>
        match skip_ws rest with
        | [] => Ret v
        | _ :: _ => Raise JSONDecodeError
        end
    | None => Raise JSONDecodeError
    end.

End Json.

Import Json.

(* ================================================================= *)
(** ** The file [tasks.json] *)

Module Fs.

(** What the path [TASK_FILE] names.  A file holds text, or bytes that do
    not decode as text (a garbled file).  A cramped file is a writable file
    on a device that has room for [room] characters of it and no more. *)
Inductive node :=
| Missing
| Directory
| File (readable writable : bool) (content : str)
| Garbled (readable writable : bool)
| Cramped (readable : bool) (room : nat) (content : str).

(** [os.path.exists(TASK_FILE)] *)
Definition path_exists (n : node) : bool :=
  match n with
  | Missing => false
  | Directory | File _ _ _ | Garbled _ _ | Cramped _ _ _ => true
  end.

(** [open(TASK_FILE, 'r')] followed by [f.read()] *)
Definition read (n : node) : res str :=
  match n with
  | Missing => Raise FileNotFoundError
  | Directory => Raise IsADirectoryError
  | File true _ content | Cramped true _ content => Ret content
  | Garbled true _ => Raise UnicodeDecodeError
  | File false _ _ | Garbled false _ | Cramped false _ _ =>
      Raise PermissionError
  end.

(** [open(TASK_FILE, 'w')], writing [content] and closing the file: the
    outcome, and what the path names afterwards.  When the file cannot be
    opened nothing happens to it.  Once it is open it is empty (a missing
    file is created), so a write that fails for lack of room leaves the part
    of [content] that fitted, and the old content is lost either way. *)
Definition write (n : node) (content : str) : res unit * node :=
  match n with
  | Missing => (Ret tt, File true true content)
  | Directory => (Raise IsADirectoryError, Directory)
  | File r true _ => (Ret tt, File r true content)
  | File r false old => (Raise PermissionError, File r false old)
  | Garbled r true => (Ret tt, File r true content)
  | Garbled r false => (Raise PermissionError, Garbled r false)
  | Cramped r room _ =>
      if (List.length content <=? room)%nat
      then (Ret tt, Cramped r room content)
      else (Raise OSError, Cramped r room (firstn room content))
  end.

(** The path names a file with this content. *)
Definition holds (n : node) (content : str) : Prop :=
  match n with
  | File _ _ c | Cramped _ _ c => c = content
  | Missing | Directory | Garbled _ _ => False
  end.

End Fs.

(* ================================================================= *)
(** ** Tasks and the state of a run *)

(** A task dictionary: [{'id': .., 'description': .., 'priority': ..,
    'completed': ..}]. *)
Record Task := mkTask {
  id : Z;
  description : str;
  priority : Z;
  completed : bool
}.

Definition task_json (t : Task) : json :=
  JDict [(text "id", JInt (id t));
         (text "description", JStr (description t));
         (text "priority", JInt (priority t));
         (text "completed", JBool (completed t))].

Definition tasks_json (ts : list Task) : json := JList (map task_json ts).

Fixpoint lookup (k : str) (d : list (str * json)) : option json :=
  match d with
  | [] => None
  | (k', v) :: r => if str_eqb k k' then Some v else lookup k r
  end.

(** A decoded dictionary read as a task: exactly the four fields, in any
    order, each of its type. *)
Definition json_task (v : json) : option Task :=
  match v with
  | JDict d =>
      match lookup (text "id") d, lookup (text "description") d,
            lookup (text "priority") d, lookup (text "completed") d with
      | Some (JInt i), Some (JStr s), Some (JInt p), Some (JBool c) =>
          if (List.length d =? 4)%nat then Some (mkTask i s p c) else None
      | _, _, _, _ => None
      end
  | _ => None
  end.

Fixpoint json_tasks_list (l : list json) : option (list Task) :=
  match l with
  | [] => Some []
  | v :: r =>
      match json_task v, json_tasks_list r with
      | Some t, Some ts => Some (t :: ts)
      | _, _ => None
      end
  end.

Definition json_tasks (v : json) : option (list Task) :=
  match v with
  | JList l => json_tasks_list l
  | _ => None
  end.

(** The questions [input] is called with. *)
Inductive prompt :=
| AskChoice
| AskDescription
| AskPriority
| AskDeleteId
| AskCompleteId
| AskPrioritizeId
| AskNewPriority (task_id current : Z).

(** What the program prints, one constructor per [print] of the source
    (the table of [display_tasks] counts as one). *)
Inductive event :=
| Prompted (p : prompt)
| EmptyListBanner
| Listing (rows : list Task)
| AddHeader
| ErrEmptyDescription
| ErrPriorityRange
| ErrPriorityNotNumber
| ErrIdNotNumber
| Added (new_id : Z) (d : str) (p : Z)
| Deleted (task_id : Z)
| MarkedComplete (task_id : Z)
| PriorityUpdated (task_id new_priority : Z)
| NotFound (task_id : Z)
| Menu
| Goodbye
| InvalidChoice.

Record world := mkWorld {
  tasks : list Task;        (* the one list object shared by all operations *)
  disk : Fs.node;           (* what TASK_FILE names *)
  stdin : list str;         (* lines still to be typed *)
  stdout : list event       (* what has been printed, oldest first *)
}.

(** *** The monad of the operations *)

Definition M (A : Type) : Type := world -> res A * world.

Definition ret {A} (a : A) : M A := fun w => (Ret a, w).

Definition bind {A B} (m : M A) (k : A -> M B) : M B :=
  fun w =>
    match m w with
    | (Ret a, w') => k a w'
    | (Raise e, w') => (Raise e, w')
    end.

Notation "x <- m ;; k" := (bind m (fun x => k))
  (at level 61, m at next level, right associativity).
Notation "m ;;; k" := (bind m (fun _ => k))
  (at level 61, right associativity).

Definition get_tasks : M (list Task) := fun w => (Ret (tasks w), w).

Definition set_tasks (ts : list Task) : M unit :=
  fun w => (Ret tt, mkWorld ts (disk w) (stdin w) (stdout w)).

(** [print(...)]: the line joins the output.  Python raises
    [UnicodeEncodeError] when the text holds a lone surrogate, which only a
    description read from the file can; that case is left out here, and the
    theorems about what is printed are stated for descriptions of scalar
    values. *)
Definition print (e : event) : M unit :=
  fun w => (Ret tt, mkWorld (tasks w) (disk w) (stdin w) (stdout w ++ [e])).

(** [input(p)]: the prompt is printed, then one line is read; at the end of
    the input Python raises [EOFError]. *)
Definition input (p : prompt) : M str :=
  fun w =>
    match stdin w with
    | [] =>
        (Raise EOFError,
         mkWorld (tasks w) (disk w) [] (stdout w ++ [Prompted p]))
    | line :: rest =>
        (Ret line,
         mkWorld (tasks w) (disk w) rest (stdout w ++ [Prompted p]))
    end.

(* ================================================================= *)
(** ** Store *)

Definition caught (e : exn) : bool :=
  match e with
  | JSONDecodeError | FileNotFoundError => true
  | _ => false
  end.

(** [load_tasks()] *)
Definition load_tasks : M json :=
  fun w =>
    if Fs.path_exists (disk w) then
      match
        match Fs.read (disk w) with
        | Ret content => loads content
        | Raise e => Raise e
        end
      with
      | Ret v => (Ret v, w)
      | Raise e => if caught e then (Ret (JList []), w) else (Raise e, w)
      end
    else (Ret (JList []), w).

(** [save_tasks(tasks)] *)
Definition save_tasks (ts : list Task) : M unit :=
  fun w =>
    let (r, n) := Fs.write (disk w) (dumps (tasks_json ts)) in
    (r, mkWorld (tasks w) n (stdin w) (stdout w)).

(** [generate_new_id(tasks)] *)
Definition generate_new_id (ts : list Task) : Z :=
  match ts with
  | [] => 1
  | t :: r => fold_left Z.max (map id r) (id t) + 1
  end%Z.

(* ================================================================= *)
(** ** Display *)

Definition sort_key (t : Task) : bool * Z * Z :=
  (completed t, priority t, id t).

(** [a < b] on the key tuples: the first differing component decides, and
    [False < True]. *)
Definition key_lt (a b : bool * Z * Z) : bool :=
  let '(c1, p1, i1) := a in
  let '(c2, p2, i2) := b in
  if Bool.eqb c1 c2 then
    if (p1 =? p2)%Z then (i1 <? i2)%Z else (p1 <? p2)%Z
  else negb c1.

(** [x] goes in front of the first row that is not smaller than it. *)
Fixpoint insert_row (x : Task) (l : list Task) : list Task :=
  match l with
  | [] => [x]
  | y :: r =>
      if key_lt (sort_key y) (sort_key x) then y :: insert_row x r
      else x :: l
  end.

(** [sorted(tasks, key=lambda x: (x['completed'], x['priority'], x['id']))]:
    a new list, stable. *)
Definition sorted (l : list Task) : list Task := fold_right insert_row [] l.

(** [display_tasks(tasks)] *)
Definition display_tasks : M unit :=
  ts <- get_tasks ;;
  match ts with
  | [] => print EmptyListBanner
  | _ :: _ => print (Listing (sorted ts))
  end.

(* ================================================================= *)
(** ** Reading numbers

    Both loops are [while True] around [int(input(..).strip())]; every round
    takes one line, so they are written by recursion on the pending lines. *)

(** The loop that reads a task id: any integer is accepted. *)
Fixpoint read_id (p : prompt) (lines : list str) (out : list event) :
  res Z * list str * list event :=
  match lines with
  | [] => (Raise EOFError, [], out ++ [Prompted p])
  | line :: rest =>
      match Py.int (strip line) with
      | Some task_id => (Ret task_id, rest, out ++ [Prompted p])
      | None => read_id p rest (out ++ [Prompted p; ErrIdNotNumber])
      end
  end.

(** [priority in [1, 2, 3]] *)
Definition valid_priority (p : Z) : bool :=
  ((p =? 1) || (p =? 2) || (p =? 3))%Z.

(** The loop that reads a priority: an integer among 1, 2, 3. *)
Fixpoint read_priority (p : prompt) (lines : list str) (out : list event) :
  res Z * list str * list event :=
  match lines with
  | [] => (Raise EOFError, [], out ++ [Prompted p])
  | line :: rest =>
      match Py.int (strip line) with
      | Some n =>
          if valid_priority n then (Ret n, rest, out ++ [Prompted p])
          else read_priority p rest (out ++ [Prompted p; ErrPriorityRange])
      | None => read_priority p rest (out ++ [Prompted p; ErrPriorityNotNumber])
      end
  end.

Definition on_console {A}
  (loop : list str -> list event -> res A * list str * list event) : M A :=
  fun w =>
    let '(r, rest, out) := loop (stdin w) (stdout w) in
    (r, mkWorld (tasks w) (disk w) rest out).

Definition ask_id (p : prompt) : M Z := on_console (read_id p).
Definition ask_priority (p : prompt) : M Z := on_console (read_priority p).

(* ================================================================= *)
(** ** Task operations *)

(** [add_task(tasks)] *)
Definition add_task : M unit :=
  print AddHeader ;;;
  line <- input AskDescription ;;
  let description := strip line in
  match description with
  | [] => print ErrEmptyDescription
  | _ :: _ =>
      priority <- ask_priority AskPriority ;;
      ts <- get_tasks ;;
      let new_id := generate_new_id ts in
      let new_task := mkTask new_id description priority false in
      set_tasks (ts ++ [new_task]) ;;;
      ts' <- get_tasks ;;
      save_tasks ts' ;;;
      print (Added new_id description priority)
  end.

(** [[task for task in tasks if task['id'] != task_id]] *)
Definition without (task_id : Z) (ts : list Task) : list Task :=
  filter (fun task => negb (id task =? task_id)%Z) ts.

(** [delete_task(tasks)] *)
Definition delete_task : M unit :=
  display_tasks ;;;
  ts <- get_tasks ;;
  match ts with
  | [] => ret tt
  | _ :: _ =>
      task_id <- ask_id AskDeleteId ;;
      let initial_length := List.length ts in
      set_tasks (without task_id ts) ;;;
      ts' <- get_tasks ;;
      if (List.length ts' <? initial_length)%nat then
        save_tasks ts' ;;;
        print (Deleted task_id)
      else print (NotFound task_id)
  end.

Definition set_completed (t : Task) : Task :=
  mkTask (id t) (description t) (priority t) true.

(** The [for] loop of [complete_task]: the first task with the id is marked
    and the loop stops; the flag tells whether there was one. *)
Fixpoint mark_complete (task_id : Z) (ts : list Task) : bool * list Task :=
  match ts with
  | [] => (false, [])
  | task :: r =>
      if (id task =? task_id)%Z then (true, set_completed task :: r)
      else let (found, r') := mark_complete task_id r in (found, task :: r')
  end.

(** [complete_task(tasks)] *)
Definition complete_task : M unit :=
  display_tasks ;;;
  ts <- get_tasks ;;
  match ts with
  | [] => ret tt
  | _ :: _ =>
      task_id <- ask_id AskCompleteId ;;
      let (found, ts') := mark_complete task_id ts in
      set_tasks ts' ;;;
      if found then
        save_tasks ts' ;;;
        print (MarkedComplete task_id)
      else print (NotFound task_id)
  end.

Definition set_priority (t : Task) (p : Z) : Task :=
  mkTask (id t) (description t) p (completed t).

(** [target_task['priority'] = new_priority], where [target_task] is the
    first task with the id. *)
Fixpoint assign_priority (task_id new_priority : Z) (ts : list Task) :
  list Task :=
  match ts with
  | [] => []
  | task :: r =>
      if (id task =? task_id)%Z then set_priority task new_priority :: r
      else task :: assign_priority task_id new_priority r
  end.

(** [prioritize_task(tasks)] *)
Definition prioritize_task : M unit :=
  display_tasks ;;;
  ts <- get_tasks ;;
  match ts with
  | [] => ret tt
  | _ :: _ =>
      task_id <- ask_id AskPrioritizeId ;;
      match find (fun task => (id task =? task_id)%Z) ts with
      | None => print (NotFound task_id)
      | Some target_task =>
          new_priority <-
            ask_priority (AskNewPriority task_id (priority target_task)) ;;
          set_tasks (assign_priority task_id new_priority ts) ;;;
          ts' <- get_tasks ;;
          save_tasks ts' ;;;
          print (PriorityUpdated task_id new_priority)
      end
  end.

(* ================================================================= *)
(** ** The menu loop *)

(** [show_menu()] *)
Definition show_menu : M unit := print Menu.

(** The [while True] loop of [main_cli].  Every round reads one line, so a
    run of [fuel] rounds with more rounds than pending lines has ended; the
    result [true] says the loop was left (choice 0), [false] that the rounds
    were used up while it was still running. *)
Fixpoint main_loop (fuel : nat) : M bool :=
  match fuel with
  | O => ret false
  | S n =>
      display_tasks ;;;
      show_menu ;;;
      line <- input AskChoice ;;
      let choice := strip line in
      if str_eqb choice (text "1") then main_loop n
      else if str_eqb choice (text "2") then add_task ;;; main_loop n
      else if str_eqb choice (text "3") then complete_task ;;; main_loop n
      else if str_eqb choice (text "4") then prioritize_task ;;; main_loop n
      else if str_eqb choice (text "5") then delete_task ;;; main_loop n
      else if str_eqb choice (text "0") then
        print Goodbye ;;;
        ts <- get_tasks ;;
        save_tasks ts ;;;
        ret true
      else print InvalidChoice ;;; main_loop n
  end.

(** The ids announced by the successful adds of a run, in order. *)
Fixpoint added_ids (out : list event) : list Z :=
  match out with
  | [] => []
  | Added i _ _ :: r => i :: added_ids r
  | _ :: r => added_ids r
  end.

(* ================================================================= *)
(** ** Vocabulary of the specification *)

(** A Unicode scalar value: a code point below 0x110000 outside the
    surrogate range.  Text read from the keyboard consists of these. *)
Definition scalar (c : N) : bool :=
  (((c <? 55296) || (57344 <=? c)) && (c <? 1114112))%N.

(** The description of [t] is text of scalar values. *)
Definition text_ok (t : Task) : bool := forallb scalar (description t).

(** A scanner returns a rest that is not longer than its input. *)
Definition shrinking {A} (f : str -> option (A * str)) : Prop :=
  forall s a r, f s = Some (a, r) -> (List.length r <= List.length s)%nat.

(** Two scanners give the same result on every text of length below [n]. *)
Definition agree_below {A} (n : nat) (f g : str -> option (A * str)) : Prop :=
  forall x, (List.length x < n)%nat -> f x = g x.

(** What follows a number in the encoder's output: a comma or a line
    feed. *)
Definition delimited (rest : str) : Prop :=
  match rest with
  | c :: _ => c = 44%N \/ c = 10%N
  | [] => False
  end.

(** The file can be created or rewritten whatever is written, and read
    back. *)
Definition usable (n : Fs.node) : Prop :=
  match n with
  | Fs.Missing => True
  | Fs.Directory => False
  | Fs.File r w _ => r = true /\ w = true
  | Fs.Garbled _ _ | Fs.Cramped _ _ _ => False
  end.

Definition ids (ts : list Task) : list Z := map id ts.

(** The largest id in [ts], and 0 when there is none. *)
Definition largest_id (ts : list Task) : Z := (generate_new_id ts - 1)%Z.

Definition new_task (ts : list Task) (d : str) (p : Z) : Task :=
  mkTask (generate_new_id ts) d p false.

(** The operations of the menu. *)
Inductive operation := View | Add | Complete | Prioritize | Delete.

Definition run (op : operation) : M unit :=
  match op with
  | View => display_tasks
  | Add => add_task
  | Complete => complete_task
  | Prioritize => prioritize_task
  | Delete => delete_task
  end.

(** Lines that announce neither a change nor a failed lookup. *)
Definition is_silent (e : event) : bool :=
  match e with
  | Added _ _ _ | Deleted _ | MarkedComplete _ | PriorityUpdated _ _
  | NotFound _ => false
  | _ => true
  end.

Definition silent (evs : list event) : Prop := forallb is_silent evs = true.

(** What an operation can do to the collection. *)
Inductive mutation (ts : list Task) : list Task -> Prop :=
| mut_add d p : mutation ts (ts ++ [new_task ts d p])
| mut_delete i : mutation ts (without i ts)
| mut_complete i : mutation ts (snd (mark_complete i ts))
| mut_prioritize i p : mutation ts (assign_priority i p ts)
| mut_none : mutation ts ts.

(** The effect of one operation: the lines it printed, its outcome and the
    collection it leaves, from the collection it found.  A change is
    announced by the last line; when writing the file fails the change
    stays in memory and nothing is announced. *)
Inductive effect (ts : list Task) :
  list event -> res unit -> list Task -> Prop :=
| eff_none evs r :
    silent evs -> effect ts evs r ts
| eff_not_found evs i :
    silent evs -> ts <> [] -> ~ In i (ids ts) ->
    effect ts (evs ++ [NotFound i]) (Ret tt) ts
| eff_added evs d p :
    silent evs -> d <> [] -> valid_priority p = true ->
    effect ts (evs ++ [Added (generate_new_id ts) d p]) (Ret tt)
           (ts ++ [new_task ts d p])
| eff_deleted evs i :
    silent evs -> In i (ids ts) ->
    effect ts (evs ++ [Deleted i]) (Ret tt) (without i ts)
| eff_completed evs i :
    silent evs -> In i (ids ts) ->
    effect ts (evs ++ [MarkedComplete i]) (Ret tt) (snd (mark_complete i ts))
| eff_prioritized evs i p :
    silent evs -> In i (ids ts) -> valid_priority p = true ->
    effect ts (evs ++ [PriorityUpdated i p]) (Ret tt)
           (assign_priority i p ts)
| eff_unsaved evs e ts' :
    silent evs -> mutation ts ts' -> effect ts evs (Raise e) ts'.

(** A run of operations: each effect starts from the collection the
    previous one left, and only the last one may have failed. *)
Inductive history (ts : list Task) : list event -> list Task -> Prop :=
| hist_stop evs r ts' : effect ts evs r ts' -> history ts evs ts'
| hist_next evs1 ts1 evs2 ts2 :
    effect ts evs1 (Ret tt) ts1 -> history ts1 evs2 ts2 ->
    history ts (evs1 ++ evs2) ts2.

(** A computation only appends to the output, and what it appends tells
    what it did to the collection. *)
Definition traced (m : M unit) : Prop :=
  forall w r w', m w = (r, w') ->
  exists evs, stdout w' = stdout w ++ evs /\ effect (tasks w) evs r (tasks w').

Definition traced_loop (m : M bool) : Prop :=
  forall w r w', m w = (r, w') ->
  exists evs, stdout w' = stdout w ++ evs /\
              history (tasks w) evs (tasks w').

(** A computation never puts lines back into the input. *)
Definition consumes {A} (m : M A) : Prop :=
  forall w r w', m w = (r, w') ->
  (List.length (stdin w') <= List.length (stdin w))%nat.

(** [t'] is the task [t] later on: same id, same description, and still
    complete if [t] was. *)
Definition stays_done (t t' : Task) : Prop :=
  id t' = id t /\ description t' = description t /\
  (completed t = true -> completed t' = true).

(** The three ways an operation can change the collection: tasks updated
    in place, one task appended, tasks removed. *)
Inductive step_shape (ts : list Task) : list Task -> Prop :=
| shape_update ts' : Forall2 stays_done ts ts' -> step_shape ts ts'
| shape_append t : completed t = false -> step_shape ts (ts ++ [t])
| shape_remove i : step_shape ts (without i ts).

(** Equality of sort keys. *)
Definition key_eqb (a b : bool * Z * Z) : bool :=
  let '(c1, p1, i1) := a in
  let '(c2, p2, i2) := b in
  Bool.eqb c1 c2 && (p1 =? p2)%Z && (i1 =? i2)%Z.

(** [a <= b] on sort keys. *)
Definition key_le (a b : bool * Z * Z) : Prop := key_lt b a = false.

(** The rows of [l] in display order: keys never decrease. *)
Definition in_display_order (l : list Task) : Prop :=
  StronglySorted (fun a b => key_le (sort_key a) (sort_key b)) l.

(** [l'] keeps the tasks with equal keys in the order they have in [l]. *)
Definition stable (l l' : list Task) : Prop :=
  forall k, filter (fun t => key_eqb (sort_key t) k) l' =
            filter (fun t => key_eqb (sort_key t) k) l.

(** The largest id after the lines [evs]: the last id added, if any. *)
Fixpoint mark (m : Z) (evs : list event) : Z :=
  match evs with
  | [] => m
  | Added i _ _ :: r => mark i r
  | _ :: r => mark m r
  end.

(** No delete announced in [evs] removes the task with the largest id,
    [m] being the largest id before [evs]. *)
Fixpoint keeps_largest (m : Z) (evs : list event) : Prop :=
  match evs with
  | [] => True
  | Added i _ _ :: r => keeps_largest i r
  | Deleted j :: r => j <> m /\ keeps_largest m r
  | _ :: r => keeps_largest m r
  end.

(** Every id added in [evs] exceeds the largest id before it, and every id
    deleted is at most that. *)
Fixpoint fresh (m : Z) (evs : list event) : Prop :=
  match evs with
  | [] => True
  | Added i _ _ :: r => (m < i)%Z /\ fresh i r
  | Deleted j :: r => (j <= m)%Z /\ fresh m r
  | _ :: r => fresh m r
  end.

(** No id is added after it was deleted. *)
Definition no_reuse (evs : list event) : Prop :=
  forall pre j post,
    evs = pre ++ Deleted j :: post -> ~ In j (added_ids post).

(** The lines that announce a change. *)
Definition announcements (out : list event) : list event :=
  filter (fun e => negb (is_silent e)) out.

(** *** Sample data *)

Definition two_tasks : list Task :=
  [mkTask 1 (text "Buy milk") 2 false; mkTask 2 (text "Call bank") 1 true].

(** *** The order of the table, by the fields of the tasks *)

(** [a] may stand above [b] in the table: an incomplete task above a
    complete one; of two tasks with the same flag, the one with the smaller
    priority number; of two tasks with the same flag and priority, the one
    with the smaller id. *)
Definition shown_before (a b : Task) : Prop :=
  (completed a = false /\ completed b = true) \/
  (completed a = completed b /\
   ((priority a < priority b)%Z \/
    (priority a = priority b /\ (id a <= id b)%Z))).

(** The tasks of [l] with this flag, priority and id, in the order of [l]. *)
Definition ranked (c : bool) (p i : Z) (l : list Task) : list Task :=
  filter (fun t => Bool.eqb (completed t) c && (priority t =? p)%Z &&
                   (id t =? i)%Z) l.

(** *** Following a task *)

(** The tasks of [ts] with the id [i], in the order of [ts]. *)
Definition with_id (i : Z) (ts : list Task) : list Task :=
  filter (fun t => (id t =? i)%Z) ts.

(** The tasks that have the id [i] in [ts] are still there in [ts']: the
    tasks of [ts'] with that id are, in order, those of [ts], each with its
    description and still complete if it was, and after them tasks that
    [ts] did not have. *)
Definition kept_on (i : Z) (ts ts' : list Task) : Prop :=
  exists olds news,
    Forall2 stays_done (with_id i ts) olds /\ with_id i ts' = olds ++ news.

(** What has become in [ts'] of the tasks that have the id [i] in [ts]:
    they are gone, or they are still there. *)
Definition carried (i : Z) (ts ts' : list Task) : Prop :=
  with_id i ts' = [] \/ kept_on i ts ts'.

(** *** The limits of the decoder *)

(** The number of ASCII digits at the head of [s]. *)
Fixpoint digit_run (s : str) : nat :=
  match s with
  | [] => O
  | c :: r => if ((48 <=? c) && (c <=? 57))%N then S (digit_run r) else O
  end.

(** The length of the longest run of ASCII digits in [s]: no integer
    written in [s] has more digits. *)
Fixpoint longest_digit_run (s : str) : nat :=
  match s with
  | [] => O
  | _ :: r => Nat.max (digit_run s) (longest_digit_run r)
  end.

(** The number of opening brackets and braces in [s]: no value written in
    [s] is nested deeper. *)
Definition brackets (s : str) : nat :=
  List.length (filter (fun c => isch "[" c || isch "{" c) s).

(** Text on which [json.loads] meets neither its limit on the length of an
    integer (4300 digits) nor the recursion limit of the interpreter (1000
    nested calls by default, so that nesting 500 deep stays well below
    it). *)
Definition within_limits (s : str) : Prop :=
  (N.of_nat (longest_digit_run s) <= 4300)%N /\
  (brackets s <= 500)%nat.

(** The number of digits of the decimal notation of [z]. *)
Definition decimal_digits (z : Z) : N :=
  N.of_nat (List.length (uint_chars (N.to_uint (Z.abs_N z)))).

(* ================================================================= *)
(** ** Vocabulary for the operations as a whole *)

(** The answer [line] to an id prompt is no integer. *)
Definition not_a_number (line : str) : Prop := Py.int (strip line) = None.

(** What the priority loop prints after the answer [line], when it asks
    again: the answer is no integer, or an integer other than 1, 2, 3. *)
Definition priority_error (line : str) : option event :=
  match Py.int (strip line) with
  | None => Some ErrPriorityNotNumber
  | Some n => if valid_priority n then None else Some ErrPriorityRange
  end.

(** One refused answer to a priority prompt: the prompt and the error. *)
Definition refused_priority (p : prompt) (line : str) : list event :=
  match priority_error line with
  | Some e => [Prompted p; e]
  | None => []
  end.

(** A task as [add_task] makes them: a positive id, a description that is
    not empty, a priority among 1, 2, 3. *)
Definition wf_task (t : Task) : Prop :=
  (1 <= id t)%Z /\ description t <> [] /\ valid_priority (priority t) = true.

(** A change of the collection made from answers among the lines [used]. *)
Inductive change (ts : list Task) (used : list str) : list Task -> Prop :=
| ch_add line p :
    In line used -> strip line <> [] -> valid_priority p = true ->
    change ts used (ts ++ [new_task ts (strip line) p])
| ch_delete i :
    In i (ids ts) -> change ts used (without i ts)
| ch_complete i :
    In i (ids ts) -> change ts used (snd (mark_complete i ts))
| ch_prioritize i p :
    In i (ids ts) -> valid_priority p = true ->
    change ts used (assign_priority i p ts).

(** What one operation does to the collection and the file, having read
    the lines [used]: nothing, and then it returns or the input has ended;
    or a change that it writes to the file; or a change that stays in memory
    because writing the file failed, the file being what the failed write
    left. *)
Inductive transition (w : world) (used : list str) :
  res unit -> world -> Prop :=
| tr_same r w' :
    r = Ret tt \/ r = Raise EOFError ->
    tasks w' = tasks w -> disk w' = disk w -> transition w used r w'
| tr_saved w' :
    change (tasks w) used (tasks w') ->
    Fs.write (disk w) (dumps (tasks_json (tasks w'))) = (Ret tt, disk w') ->
    transition w used (Ret tt) w'
| tr_unsaved e w' :
    change (tasks w) used (tasks w') ->
    Fs.write (disk w) (dumps (tasks_json (tasks w'))) = (Raise e, disk w') ->
    transition w used (Raise e) w'.

(** An operation reads a prefix of the pending lines and makes one
    transition. *)
Definition tracked (m : M unit) : Prop :=
  forall w r w', m w = (r, w') ->
  exists used, stdin w = used ++ stdin w' /\ transition w used r w'.

(** The line chooses entry 0 of the menu. *)
Definition is_exit (line : str) : Prop := strip line = text "0".

(** The file holds the collection. *)
Definition stored (w : world) : Prop :=
  Fs.holds (disk w) (dumps (tasks_json (tasks w))).

(** A session can be resumed from [w]: the descriptions and the lines still
    to be typed are text of scalar values, and the file is usable. *)
Definition resumable (w : world) : Prop :=
  forallb text_ok (tasks w) = true /\
  Forall (fun line => forallb scalar line = true) (stdin w) /\
  usable (disk w).

(* ================================================================= *)
(** * Properties *)

Unset Implicit Arguments.

(* ================================================================= *)
(** ** The decoder has fuel enough *)

Module JsonFuel.

Lemma skip_ws_length s : (List.length (skip_ws s) <= List.length s)%nat.
Proof.
  induction s as [| c r IH]; simpl; [lia |].
  destruct (is_ws c); simpl; lia.
Qed.

Lemma push_some c x t rest :
  push c x = Some (t, rest) -> exists t', x = Some (t', rest).
Proof.
  destruct x as [[t' r'] |]; [| discriminate]. intros [= _ <-]. exists t'. reflexivity.
Qed.

Lemma scanstring_shrinking : shrinking scanstring.
Proof.
  assert (G : forall n s t r, (List.length s <= n)%nat ->
                scanstring s = Some (t, r) -> (List.length r <= List.length s)%nat).
  { induction n as [| n IH]; intros s t r L.
    - destruct s; [discriminate | simpl in L; lia].
    - destruct s as [| c s1]; [discriminate |]. simpl in L.
      assert (Step : forall x t', (List.length x <= n)%nat ->
                 scanstring x = Some (t', r) -> (List.length r <= List.length x)%nat)
        by (intros x t' Lx; apply IH, Lx).
      cbn [scanstring].
      destruct (c =? QUOTE)%N; [intros [= _ <-]; simpl; lia |].
      destruct (c <? 32)%N; [discriminate |].
      destruct (c =? BACKSLASH)%N.
      + destruct s1 as [| e s2]; [discriminate |].
        destruct (isch "u" e).
        * destruct s2 as [| h1 [| h2 [| h3 [| h4 s6]]]]; try discriminate.
          destruct (unhex4 h1 h2 h3 h4) as [u |]; [| discriminate].
          assert (Plain :
            push u (scanstring s6) = Some (t, r) ->
            (List.length r <=
             List.length (c :: e :: h1 :: h2 :: h3 :: h4 :: s6))%nat).
          { intros H. apply push_some in H. destruct H as [t' H].
            apply Step in H; simpl in *; lia. }
          destruct s6 as [| b [| e2 [| l1 [| l2 [| l3 [| l4 s12]]]]]];
            try exact Plain.
          destruct (high_surrogate u && (b =? BACKSLASH)%N && isch "u" e2);
            [| exact Plain].
          destruct (unhex4 l1 l2 l3 l4) as [u2 |]; [| discriminate].
          destruct (low_surrogate u2); [| exact Plain].
          intros H. apply push_some in H. destruct H as [t' H].
          apply Step in H; simpl in *; lia.
        * destruct (unescape e); [| discriminate].
          intros H. apply push_some in H. destruct H as [t' H].
          apply Step in H; simpl in *; lia.
      + intros H. apply push_some in H. destruct H as [t' H].
        apply Step in H; simpl in *; lia. }
  intros s t r H. apply (G (List.length s) s t r (Nat.le_refl _) H).
Qed.

Lemma scan_uint_length s :
  (List.length (snd (scan_uint s)) <= List.length s)%nat.
Proof.
  induction s as [| c r IH]; cbn [scan_uint]; [simpl; lia |].
  destruct (digit_of c) as [d |]; [| simpl; lia].
  destruct (scan_uint r) as [u rest]. simpl in *. lia.
Qed.

Lemma int_part_length s u r :
  int_part s = Some (u, r) -> (List.length r <= List.length s)%nat.
Proof.
  unfold int_part. destruct s as [| c s1]; [discriminate |].
  destruct (c =? 48)%N; [intros [= _ <-]; simpl; lia |].
  destruct (digit_of c) as [d |]; [| discriminate].
  pose proof (scan_uint_length s1) as L.
  destruct (scan_uint s1) as [u' rest]. intros [= _ <-]. simpl in *. lia.
Qed.

Lemma frac_part_length s :
  (List.length (snd (frac_part s)) <= List.length s)%nat.
Proof.
  unfold frac_part. destruct s as [| c s1]; [simpl; lia |].
  destruct (isch "." c); [| simpl; lia].
  pose proof (scan_uint_length s1) as L.
  destruct (scan_uint s1) as [[] rest]; simpl in *; lia.
Qed.

Lemma exp_part_length s :
  (List.length (snd (exp_part s)) <= List.length s)%nat.
Proof.
  unfold exp_part. destruct s as [| c s1]; [simpl; lia |].
  destruct (isch "e" c || isch "E" c); [| simpl; lia].
  assert (L : forall x, (List.length x <= List.length s1)%nat ->
            (List.length (snd (match scan_uint x with
                               | (Decimal.Nil, _) => (@None str, c :: s1)
                               | (u, rest) => (Some (c :: uint_chars u), rest)
                               end)) <= List.length (c :: s1))%nat).
  { intros x Lx. pose proof (scan_uint_length x) as L.
    destruct (scan_uint x) as [[] rest]; simpl in *; lia. }
  destruct s1 as [| g s2].
  - pose proof (L [] (Nat.le_refl _)) as L0. simpl in *. exact L0.
  - destruct (isch "-" g || isch "+" g).
    + pose proof (L s2) as L2. simpl in L2.
      destruct (scan_uint s2) as [[] rest]; simpl in *; lia.
    + pose proof (L (g :: s2) (Nat.le_refl _)) as L2.
      destruct (scan_uint (g :: s2)) as [[] rest]; simpl in *; lia.
Qed.

Lemma scan_number_shrinking : shrinking scan_number.
Proof.
  intros s a r. unfold scan_number.
  match goal with
  | |- (let (neg, s1) := ?p in _) = _ -> _ =>
      assert (Lp : (List.length (snd p) <= List.length s)%nat)
        by (destruct s as [| c s1]; [| destruct (isch "-" c)]; simpl; lia);
      destruct p as [neg s1]
  end.
  cbn [snd] in Lp.
  destruct (int_part s1) as [[u s2] |] eqn:I; [| discriminate].
  apply int_part_length in I.
  pose proof (frac_part_length s2) as F.
  destruct (frac_part s2) as [frac s3].
  pose proof (exp_part_length s3) as X.
  destruct (exp_part s3) as [ex s4]. cbn [snd] in F, X.
  destruct frac, ex; intros [= _ <-]; lia.
Qed.

Lemma strip_prefix_length p s r :
  strip_prefix p s = Some r -> (List.length r <= List.length s)%nat.
Proof.
  revert s. induction p as [| a p IH]; intros s; cbn [strip_prefix].
  - intros [= <-]. lia.
  - destruct s as [| b s1]; [discriminate |].
    destruct (a =? b)%N; [| discriminate]. intros H. apply IH in H. simpl. lia.
Qed.

Lemma scan_literal_shrinking : shrinking scan_literal.
Proof.
  intros s a r. unfold scan_literal.
  repeat match goal with
         | |- match strip_prefix ?p s with _ => _ end = _ -> _ =>
             let E := fresh "E" in
             destruct (strip_prefix p s) eqn:E;
             [apply strip_prefix_length in E; intros [= _ <-]; exact E |]
         end.
  apply scan_number_shrinking.
Qed.

Section RoundsShrink.

Variable value : str -> option (json * str).
Variable items : str -> option (list json * str).
Variable members : str -> option (list (str * json) * str).
Hypothesis value_shrinks : shrinking value.
Hypothesis items_shrink : shrinking items.
Hypothesis members_shrink : shrinking members.

Lemma value_round_shrinking : shrinking (value_round items members).
Proof.
  intros s a r. unfold value_round. destruct s as [| c s1]; [discriminate |].
  destruct (c =? QUOTE)%N.
  { destruct (scanstring s1) as [[t rest] |] eqn:E; [| discriminate].
    apply scanstring_shrinking in E. intros [= _ <-]. simpl. lia. }
  destruct (isch "{" c).
  { pose proof (skip_ws_length s1) as K.
    destruct (skip_ws s1) as [| c' r']; [discriminate |].
    destruct (isch "}" c'); [intros [= _ <-]; simpl in *; lia |].
    destruct (members (c' :: r')) as [[ps rest] |] eqn:E; [| discriminate].
    apply members_shrink in E. intros [= _ <-]. simpl in *. lia. }
  destruct (isch "[" c).
  { pose proof (skip_ws_length s1) as K.
    destruct (skip_ws s1) as [| c' r']; [discriminate |].
    destruct (isch "]" c'); [intros [= _ <-]; simpl in *; lia |].
    destruct (items (c' :: r')) as [[l rest] |] eqn:E; [| discriminate].
    apply items_shrink in E. intros [= _ <-]. simpl in *. lia. }
  apply scan_literal_shrinking.
Qed.

Lemma items_round_shrinking : shrinking (items_round value items).
Proof.
  intros s a r. unfold items_round.
  destruct (value s) as [[v r1] |] eqn:V; [| discriminate].
  apply value_shrinks in V. pose proof (skip_ws_length r1) as K.
  destruct (skip_ws r1) as [| c r']; [discriminate |].
  destruct (isch "]" c); [intros [= _ <-]; simpl in *; lia |].
  destruct (isch "," c); [| discriminate].
  pose proof (skip_ws_length r') as K'.
  destruct (items (skip_ws r')) as [[l rest] |] eqn:E; [| discriminate].
  apply items_shrink in E. intros [= _ <-]. simpl in *. lia.
Qed.

Lemma members_round_shrinking : shrinking (members_round value members).
Proof.
  intros s a r. unfold members_round. destruct s as [| q r0]; [discriminate |].
  destruct (q =? QUOTE)%N; [| discriminate].
  destruct (scanstring r0) as [[k r1] |] eqn:E; [| discriminate].
  apply scanstring_shrinking in E. pose proof (skip_ws_length r1) as K1.
  destruct (skip_ws r1) as [| c1 r2]; [discriminate |].
  destruct (isch ":" c1); [| discriminate].
  pose proof (skip_ws_length r2) as K2.
  destruct (value (skip_ws r2)) as [[v r3] |] eqn:V; [| discriminate].
  apply value_shrinks in V. pose proof (skip_ws_length r3) as K3.
  destruct (skip_ws r3) as [| c r']; [discriminate |].
  destruct (isch "}" c); [intros [= _ <-]; simpl in *; lia |].
  destruct (isch "," c); [| discriminate].
  pose proof (skip_ws_length r') as K'.
  destruct (members (skip_ws r')) as [[l rest] |] eqn:M; [| discriminate].
  apply members_shrink in M. intros [= _ <-]. simpl in *. lia.
Qed.

End RoundsShrink.

Lemma scanners_shrinking n :
  shrinking (scan_once n) /\ shrinking (parse_items n) /\
  shrinking (parse_members n).
Proof.
  induction n as [| n (V & I & M)].
  - repeat split; intros s a r; discriminate.
  - repeat split; intros s a r; cbn [scan_once parse_items parse_members].
    + apply (value_round_shrinking _ _ I M).
    + apply (items_round_shrinking _ _ V I).
    + apply (members_round_shrinking _ _ V M).
Qed.

Section RoundsAgree.

Variables value value' : str -> option (json * str).
Variables items items' : str -> option (list json * str).
Variables members members' : str -> option (list (str * json) * str).

Lemma value_round_agree s :
  agree_below (List.length s) items items' ->
  agree_below (List.length s) members members' ->
  value_round items members s = value_round items' members' s.
Proof.
  intros I M. unfold value_round. destruct s as [| c s1]; [reflexivity |].
  destruct (c =? QUOTE)%N; [reflexivity |].
  pose proof (skip_ws_length s1) as K.
  destruct (isch "{" c).
  { destruct (skip_ws s1) as [| c' r']; [reflexivity |].
    destruct (isch "}" c'); [reflexivity |].
    rewrite M by (simpl in *; lia). reflexivity. }
  destruct (isch "[" c); [| reflexivity].
  destruct (skip_ws s1) as [| c' r']; [reflexivity |].
  destruct (isch "]" c'); [reflexivity |].
  rewrite I by (simpl in *; lia). reflexivity.
Qed.

Lemma items_round_agree s :
  shrinking value ->
  agree_below (S (List.length s)) value value' ->
  agree_below (List.length s) items items' ->
  items_round value items s = items_round value' items' s.
Proof.
  intros Sh V I. unfold items_round. rewrite <- V by lia.
  destruct (value s) as [[v r1] |] eqn:E; [| reflexivity].
  apply Sh in E. pose proof (skip_ws_length r1) as K.
  destruct (skip_ws r1) as [| c r']; [reflexivity |].
  destruct (isch "]" c); [reflexivity |].
  destruct (isch "," c); [| reflexivity].
  pose proof (skip_ws_length r') as K'.
  rewrite I by (simpl in *; lia). reflexivity.
Qed.

Lemma members_round_agree s :
  shrinking value ->
  agree_below (List.length s) value value' ->
  agree_below (List.length s) members members' ->
  members_round value members s = members_round value' members' s.
Proof.
  intros Sh V M. unfold members_round. destruct s as [| q r0]; [reflexivity |].
  destruct (q =? QUOTE)%N; [| reflexivity].
  destruct (scanstring r0) as [[k r1] |] eqn:E; [| reflexivity].
  apply scanstring_shrinking in E. pose proof (skip_ws_length r1) as K1.
  destruct (skip_ws r1) as [| c1 r2]; [reflexivity |].
  destruct (isch ":" c1); [| reflexivity].
  pose proof (skip_ws_length r2) as K2.
  rewrite <- V by (simpl in *; lia).
  destruct (value (skip_ws r2)) as [[v r3] |] eqn:W; [| reflexivity].
  apply Sh in W. pose proof (skip_ws_length r3) as K3.
  destruct (skip_ws r3) as [| c r']; [reflexivity |].
  destruct (isch "}" c); [reflexivity |].
  destruct (isch "," c); [| reflexivity].
  pose proof (skip_ws_length r') as K'.
  rewrite M by (simpl in *; lia). reflexivity.
Qed.

End RoundsAgree.

(** Fuel beyond twice the length of the text changes nothing. *)
Lemma scanners_fuel n :
  (forall s m, (2 * List.length s + 1 <= n)%nat -> (n <= m)%nat ->
               scan_once m s = scan_once n s) /\
  (forall s m, (2 * List.length s + 2 <= n)%nat -> (n <= m)%nat ->
               parse_items m s = parse_items n s) /\
  (forall s m, (2 * List.length s + 1 <= n)%nat -> (n <= m)%nat ->
               parse_members m s = parse_members n s).
Proof.
  induction n as [| n (V & I & M)].
  - repeat split; intros s m L; lia.
  - repeat split; intros s m L Lm; (destruct m as [| m]; [lia |]);
      cbn [scan_once parse_items parse_members].
    + apply value_round_agree; intros x Lx; [apply I | apply M]; lia.
    + apply items_round_agree.
      * apply scanners_shrinking.
      * intros x Lx. apply V; lia.
      * intros x Lx. apply I; lia.
    + apply members_round_agree.
      * apply scanners_shrinking.
      * intros x Lx. apply V; lia.
      * intros x Lx. apply M; lia.
Qed.

(** [loads] decodes what any larger amount of fuel decodes. *)
Theorem loads_fuel s m :
  (2 * List.length s + 2 <= m)%nat ->
  scan_once m (skip_ws s) = scan_once (2 * List.length s + 2) (skip_ws s).
Proof.
  intros L. pose proof (skip_ws_length s) as K.
  apply (proj1 (scanners_fuel _)); lia.
Qed.

End JsonFuel.

(* ================================================================= *)
(** ** The decoder inverts the encoder on task lists *)

Module JsonFacts.

#[local] Open Scope N_scope.

Lemma lor_low a b : b < 1024 -> N.lor (a * 1024) b = a * 1024 + b.
Proof.
  intros H.
  assert (D : N.land (a * 1024) b = 0).
  { apply N.bits_inj_0. intros i. rewrite N.land_spec.
    destruct (N.lt_ge_cases i 10) as [L | L].
    - change 1024 with (2 ^ 10). rewrite N.mul_pow2_bits_low by exact L. reflexivity.
    - rewrite (N.bits_above_log2 b i); [apply Bool.andb_false_r |].
      destruct b as [| p]; [simpl; lia |].
      apply N.lt_le_trans with 10; [| exact L].
      apply N.log2_lt_pow2; [lia | exact H]. }
  rewrite <- N.lxor_lor by exact D. symmetry. apply N.add_nocarry_lxor, D.
Qed.

Lemma unhex_hexdigit d : d < 16 -> unhex (hexdigit d) = Some d.
Proof.
  intros H.
  assert (E : d = 0 \/ d = 1 \/ d = 2 \/ d = 3 \/ d = 4 \/ d = 5 \/ d = 6 \/
              d = 7 \/ d = 8 \/ d = 9 \/ d = 10 \/ d = 11 \/ d = 12 \/
              d = 13 \/ d = 14 \/ d = 15) by lia.
  repeat (destruct E as [E | E]; [subst d; reflexivity |]).
  subst d; reflexivity.
Qed.

Lemma unhex4_hex4 n :
  n < 65536 ->
  unhex4 (hexdigit (n / 4096 mod 16)) (hexdigit (n / 256 mod 16))
         (hexdigit (n / 16 mod 16)) (hexdigit (n mod 16)) = Some n.
Proof.
  intros H. unfold unhex4.
  rewrite !unhex_hexdigit by (apply N.mod_lt; discriminate).
  f_equal. zify. Z.to_euclidean_division_equations. lia.
Qed.

(** After a [\uXXXX] escape that is no high surrogate, decoding goes on with
    the next character. *)
Lemma scanstring_u u rest :
  u < 65536 -> high_surrogate u = false ->
  scanstring (uescape u ++ rest) = push u (scanstring rest).
Proof.
  intros Hu Hh. unfold uescape, hex4.
  change (scanstring
            ((BACKSLASH :: text "u" ++
              [hexdigit (u / 4096 mod 16); hexdigit (u / 256 mod 16);
               hexdigit (u / 16 mod 16); hexdigit (u mod 16)]) ++ rest))
    with (match unhex4 (hexdigit (u / 4096 mod 16))
                       (hexdigit (u / 256 mod 16))
                       (hexdigit (u / 16 mod 16)) (hexdigit (u mod 16)) with
          | None => None
          | Some u =>
              match rest with
              | b :: e2 :: l1 :: l2 :: l3 :: l4 :: r3 =>
                  if high_surrogate u && (b =? BACKSLASH)%N && isch "u" e2
                  then
                    match unhex4 l1 l2 l3 l4 with
                    | None => None
                    | Some u2 =>
                        if low_surrogate u2
                        then push (join_surrogates u u2) (scanstring r3)
                        else push u (scanstring rest)
                    end
                  else push u (scanstring rest)
              | _ => push u (scanstring rest)
              end
          end).
  rewrite unhex4_hex4 by exact Hu. rewrite Hh.
  destruct rest as [|b [|e2 [|l1 [|l2 [|l3 [|l4 r3]]]]]]; reflexivity.
Qed.

Lemma scanstring_pair u u2 rest :
  u < 65536 -> u2 < 65536 -> high_surrogate u = true -> low_surrogate u2 = true ->
  scanstring (uescape u ++ uescape u2 ++ rest) =
  push (join_surrogates u u2) (scanstring rest).
Proof.
  intros Hu Hu2 Hh Hl. unfold uescape, hex4.
  change (scanstring
    ((BACKSLASH
      :: text "u" ++
         [hexdigit (u / 4096 mod 16); hexdigit (u / 256 mod 16);
          hexdigit (u / 16 mod 16); hexdigit (u mod 16)]) ++
     (BACKSLASH
      :: text "u" ++
         [hexdigit (u2 / 4096 mod 16); hexdigit (u2 / 256 mod 16);
          hexdigit (u2 / 16 mod 16); hexdigit (u2 mod 16)]) ++ rest))
   with (match unhex4 (hexdigit (u / 4096 mod 16)) (hexdigit (u / 256 mod 16))
         (hexdigit (u / 16 mod 16)) (hexdigit (u mod 16)) with
         | None => None
         | Some u =>
             if high_surrogate u && true && true then
               match unhex4 (hexdigit (u2 / 4096 mod 16)) (hexdigit (u2 / 256 mod 16))
                            (hexdigit (u2 / 16 mod 16)) (hexdigit (u2 mod 16)) with
               | None => None
               | Some u2' =>
                   if low_surrogate u2'
                   then push (join_surrogates u u2') (scanstring rest)
                   else push u (scanstring (uescape u2 ++ rest))
               end
             else push u (scanstring (uescape u2 ++ rest))
         end).
  rewrite !unhex4_hex4 by assumption. rewrite Hh, Hl. reflexivity.
Qed.

Ltac euclid := zify; Z.to_euclidean_division_equations; lia.

Lemma high_half n :
  n < 1048576 -> N.lor 55296 (N.land (N.shiftr n 10) 1023) = 55296 + n / 1024.
Proof.
  intros H. change 1023 with (N.ones 10).
  rewrite N.land_ones, N.shiftr_div_pow2. change (2 ^ 10) with 1024.
  assert (Q : n / 1024 < 1024) by euclid.
  rewrite N.mod_small by exact Q.
  change 55296 with (54 * 1024). apply lor_low, Q.
Qed.

Lemma low_half n : N.lor 56320 (N.land n 1023) = 56320 + n mod 1024.
Proof.
  change 1023 with (N.ones 10). rewrite N.land_ones. change (2 ^ 10) with 1024.
  change 56320 with (55 * 1024). apply lor_low, N.mod_lt. discriminate.
Qed.

Lemma surrogates_join n :
  n < 1048576 ->
  let hi := N.lor 55296 (N.land (N.shiftr n 10) 1023) in
  let lo := N.lor 56320 (N.land n 1023) in
  hi < 65536 /\ lo < 65536 /\ high_surrogate hi = true /\
  low_surrogate lo = true /\ join_surrogates hi lo = 65536 + n.
Proof.
  intros H. cbv zeta. rewrite (high_half n H), low_half.
  assert (Q : n / 1024 < 1024) by euclid.
  assert (R : n mod 1024 < 1024) by (apply N.mod_lt; discriminate).
  repeat split.
  - euclid.
  - euclid.
  - unfold high_surrogate. apply andb_true_intro; split; apply N.leb_le; euclid.
  - unfold low_surrogate. apply andb_true_intro; split; apply N.leb_le; euclid.
  - unfold join_surrogates.
    replace (55296 + n / 1024 - 55296) with (n / 1024) by euclid.
    replace (56320 + n mod 1024 - 56320) with (n mod 1024) by euclid.
    rewrite N.shiftl_mul_pow2. change (2 ^ 10) with 1024.
    rewrite lor_low by exact R. f_equal. euclid.
Qed.

Lemma scanstring_escape c rest :
  scalar c = true -> scanstring (escape c ++ rest) = push c (scanstring rest).
Proof.
  intros Hc. unfold escape.
  destruct (N.eqb_spec c QUOTE) as [-> | n1]; [reflexivity |].
  destruct (N.eqb_spec c BACKSLASH) as [-> | n2]; [reflexivity |].
  destruct (N.eqb_spec c 10) as [-> | n3]; [reflexivity |].
  destruct (N.eqb_spec c 13) as [-> | n4]; [reflexivity |].
  destruct (N.eqb_spec c 9) as [-> | n5]; [reflexivity |].
  destruct (N.eqb_spec c 12) as [-> | n6]; [reflexivity |].
  destruct (N.eqb_spec c 8) as [-> | n7]; [reflexivity |].
  destruct ((32 <=? c) && (c <=? 126)) eqn:P.
  - apply andb_prop in P. destruct P as [P1 P2].
    apply N.leb_le in P1. 
    simpl. rewrite (proj2 (N.eqb_neq _ _) n1), (proj2 (N.eqb_neq _ _) n2).
    rewrite (proj2 (N.ltb_ge _ _) P1). reflexivity.
  - destruct (N.ltb_spec c 65536) as [L | L].
    + apply scanstring_u; [exact L |].
      unfold scalar in Hc. unfold high_surrogate.
      apply andb_prop in Hc. destruct Hc as [Hc _].
      apply Bool.orb_prop in Hc. destruct Hc as [Hc | Hc].
      * apply N.ltb_lt in Hc. apply Bool.andb_false_iff. left. apply N.leb_gt. exact Hc.
      * apply N.leb_le in Hc. apply Bool.andb_false_iff. right. apply N.leb_gt. lia.
    + assert (B : c - 65536 < 1048576).
      { unfold scalar in Hc. apply andb_prop in Hc. destruct Hc as [_ Hc].
        apply N.ltb_lt in Hc. lia. }
      destruct (surrogates_join _ B) as (A1 & A2 & A3 & A4 & A5).
      cbv zeta. rewrite <- app_assoc.
      rewrite scanstring_pair by assumption.
      rewrite A5. replace (65536 + (c - 65536)) with c by lia. reflexivity.
Qed.

Lemma scanstring_encode s rest :
  forallb scalar s = true ->
  scanstring (flat_map escape s ++ QUOTE :: rest) = Some (s, rest).
Proof.
  induction s as [| c s IH]; intros H.
  - reflexivity.
  - simpl in H. apply andb_prop in H. destruct H as [Hc Hs].
    simpl flat_map. rewrite <- app_assoc, scanstring_escape by exact Hc.
    rewrite IH by exact Hs. reflexivity.
Qed.

Lemma scan_uint_chars u rest :
  delimited rest -> scan_uint (uint_chars u ++ rest) = (u, rest).
Proof.
  intros D.
  induction u; simpl; try (rewrite IHu; reflexivity).
  destruct rest as [| c r]; [contradiction |].
  destruct D as [-> | ->]; reflexivity.
Qed.

Lemma canonical_head u :
  Decimal.unorm u = u -> u = Decimal.zero \/
  match u with Decimal.Nil | Decimal.D0 _ => False | _ => True end.
Proof.
  intros E. destruct u; try (right; exact I).
  - discriminate E.
  - left. rewrite DecimalFacts.unorm_D0 in E.
    destruct (Decimal.uint_eq_dec u Decimal.Nil) as [-> | N]; [reflexivity |].
    pose proof (DecimalFacts.nb_digits_unorm u N) as L.
    rewrite E in L. simpl in L. lia.
Qed.

Lemma to_uint_canonical n : Decimal.unorm (N.to_uint n) = N.to_uint n.
Proof.
  destruct n as [| p]; [reflexivity |].
  change (N.to_uint (N.pos p)) with (Pos.to_uint p).
  rewrite <- DecimalPos.Unsigned.to_of, DecimalPos.Unsigned.of_to. reflexivity.
Qed.

Lemma int_part_chars u rest :
  Decimal.unorm u = u -> delimited rest ->
  int_part (uint_chars u ++ rest) = Some (u, rest).
Proof.
  intros E D. destruct (canonical_head _ E) as [-> | H].
  - reflexivity.
  - destruct u; try contradiction; simpl;
      rewrite scan_uint_chars by exact D; reflexivity.
Qed.

Lemma no_fraction rest :
  delimited rest -> frac_part rest = (None, rest) /\ exp_part rest = (None, rest).
Proof.
  destruct rest as [| c r]; [contradiction |].
  intros [-> | ->]; split; reflexivity.
Qed.

Lemma scan_number_uint u rest :
  Decimal.unorm u = u -> delimited rest ->
  scan_number (uint_chars u ++ rest) = Some (JInt (Z.of_N (N.of_uint u)), rest) /\
  scan_number (45 :: uint_chars u ++ rest) =
    Some (JInt (- Z.of_N (N.of_uint u)), rest).
Proof.
  intros E D. destruct (no_fraction _ D) as [F X].
  pose proof (int_part_chars _ _ E D) as I.
  split.
  - unfold scan_number.
    destruct (canonical_head _ E) as [-> | H];
      [| destruct u; try contradiction];
      (simpl app in *; cbv beta iota; match goal with
       | |- context [isch "-" ?c] => change (isch "-" c) with false
       end; cbv iota; rewrite I, F, X; reflexivity).
  - unfold scan_number. change (isch "-" 45) with true. cbv iota.
    rewrite I, F, X. reflexivity.
Qed.

Lemma scan_once_int z rest n :
  delimited rest ->
  scan_once (S n) (repr_int z ++ rest) = Some (JInt z, rest).
Proof.
  intros D. unfold repr_int.
  pose proof (to_uint_canonical (Z.abs_N z)) as E.
  destruct (scan_number_uint _ _ E D) as [P Q].
  rewrite DecimalN.Unsigned.of_to in P, Q.
  destruct (Z.ltb_spec z 0) as [L | L].
  - change ((text "-" ++ uint_chars (N.to_uint (Z.abs_N z))) ++ rest)
      with (45 :: uint_chars (N.to_uint (Z.abs_N z)) ++ rest).
    replace z with (- Z.of_N (Z.abs_N z))%Z at 2 by lia.
    rewrite <- Q.
    destruct (canonical_head _ E) as [H | H].
    + rewrite H. reflexivity.
    + destruct (N.to_uint (Z.abs_N z)); try contradiction; reflexivity.
  - replace z with (Z.of_N (Z.abs_N z))%Z at 2 by lia.
    rewrite <- P. simpl app.
    destruct (canonical_head _ E) as [H | H].
    + rewrite H. reflexivity.
    + destruct (N.to_uint (Z.abs_N z)); try contradiction; reflexivity.
Qed.

Lemma skip_indent level c r :
  is_ws c = false -> skip_ws (newline_indent level ++ c :: r) = c :: r.
Proof.
  intros H. unfold newline_indent.
  change (skip_ws ((10 :: repeat 32 (4 * level)) ++ c :: r))
    with (skip_ws (repeat 32 (4 * level) ++ c :: r)).
  induction (4 * level)%nat as [| k IH].
  - change (skip_ws (repeat 32 0 ++ c :: r))
      with (if is_ws c then skip_ws r else c :: r).
    rewrite H. reflexivity.
  - exact IH.
Qed.

Lemma repr_int_head z :
  exists c r, repr_int z = c :: r /\ is_ws c = false.
Proof.
  unfold repr_int. destruct (z <? 0)%Z.
  - exists 45, (uint_chars (N.to_uint (Z.abs_N z))). split; reflexivity.
  - destruct (canonical_head _ (to_uint_canonical (Z.abs_N z))) as [H | H].
    + rewrite H. exists 48, []. split; reflexivity.
    + destruct (N.to_uint (Z.abs_N z)); try contradiction;
        eexists _, _; split; reflexivity.
Qed.

Lemma skip_ws_int z r : skip_ws (repr_int z ++ r) = repr_int z ++ r.
Proof.
  destruct (repr_int_head z) as (c & r' & -> & H). simpl. rewrite H. reflexivity.
Qed.

Ltac chars :=
  repeat (cbv beta iota;
          match goal with
          | |- context [isch ?a (N.pos ?p)] =>
              let b := eval vm_compute in (isch a (N.pos p)) in
              change (isch a (N.pos p)) with b
          end);
  cbv beta iota.

Section Members.

Variable value : str -> option (json * str).
Variable members : str -> option (list (str * json) * str).

Lemma members_round_more k V v sep R :
  forallb scalar k = true ->
  skip_ws (V ++ 44 :: sep ++ QUOTE :: R) = V ++ 44 :: sep ++ QUOTE :: R ->
  value (V ++ 44 :: sep ++ QUOTE :: R) = Some (v, 44 :: sep ++ QUOTE :: R) ->
  skip_ws (sep ++ QUOTE :: R) = QUOTE :: R ->
  members_round value members
    (QUOTE :: (flat_map escape k ++ [QUOTE]) ++
     text ": " ++ V ++ text "," ++ sep ++ QUOTE :: R) =
  match members (QUOTE :: R) with
  | Some (l, rest) => Some ((k, v) :: l, rest)
  | None => None
  end.
Proof.
  intros Hk Hs Hv Hsep. unfold members_round.
  simpl app. cbv beta iota. rewrite N.eqb_refl. rewrite <- app_assoc. simpl app.
  rewrite scanstring_encode by exact Hk.
  simpl skip_ws. chars. simpl skip_ws.
  rewrite Hs, Hv. simpl skip_ws. chars.
  rewrite Hsep. reflexivity.
Qed.

Lemma members_round_last k V v sep tail :
  forallb scalar k = true ->
  skip_ws (V ++ sep ++ 125 :: tail) = V ++ sep ++ 125 :: tail ->
  value (V ++ sep ++ 125 :: tail) = Some (v, sep ++ 125 :: tail) ->
  skip_ws (sep ++ 125 :: tail) = 125 :: tail ->
  members_round value members
    (QUOTE :: (flat_map escape k ++ [QUOTE]) ++
     text ": " ++ V ++ sep ++ text "}" ++ tail) =
  Some ([(k, v)], tail).
Proof.
  intros Hk Hs Hv Hsep. unfold members_round.
  simpl app. cbv beta iota. rewrite N.eqb_refl. rewrite <- app_assoc. simpl app.
  rewrite scanstring_encode by exact Hk.
  simpl skip_ws. chars. simpl skip_ws.
  rewrite Hs, Hv, Hsep. chars. reflexivity.
Qed.

End Members.

Section Values.

Variable items : str -> option (list json * str).
Variable members : str -> option (list (str * json) * str).

Lemma value_round_dict level R ps tail :
  members (QUOTE :: R) = Some (ps, tail) ->
  value_round items members (123 :: newline_indent level ++ QUOTE :: R) =
  Some (JDict (dict_of_pairs ps), tail).
Proof.
  intros H. unfold value_round.
  change (123 =? QUOTE) with false. chars.
  rewrite skip_indent by reflexivity.
  change (isch "}" QUOTE) with false. cbv iota. rewrite H. reflexivity.
Qed.

Lemma value_round_list level R l tail :
  items (123 :: R) = Some (l, tail) ->
  value_round items members (91 :: newline_indent level ++ 123 :: R) =
  Some (JList l, tail).
Proof.
  intros H. unfold value_round.
  change (91 =? QUOTE) with false. chars.
  rewrite skip_indent by reflexivity. chars. rewrite H. reflexivity.
Qed.

End Values.


Lemma scan_once_str s tail m :
  forallb scalar s = true ->
  scan_once (S m) (encode_str s ++ tail) = Some (JStr s, tail).
Proof.
  intros H. unfold encode_str. simpl scan_once. simpl app. unfold value_round.
  cbv beta iota. rewrite <- app_assoc. simpl app.
  rewrite scanstring_encode by exact H. reflexivity.
Qed.

Lemma scan_once_bool b tail m :
  scan_once (S m) (encode 2 (JBool b) ++ tail) = Some (JBool b, tail).
Proof. destruct b; reflexivity. Qed.

Lemma skip_ws_str s tail : skip_ws (encode_str s ++ tail) = encode_str s ++ tail.
Proof. reflexivity. Qed.

Lemma skip_ws_bool b tail :
  skip_ws (encode 2 (JBool b) ++ tail) = encode 2 (JBool b) ++ tail.
Proof. destruct b; reflexivity. Qed.

Lemma task_text t tail :
  encode 1 (task_json t) ++ tail =
  123 :: newline_indent 2 ++
  QUOTE :: (flat_map escape (text "id") ++ [QUOTE]) ++
  text ": " ++ repr_int (id t) ++ text "," ++ newline_indent 2 ++
  QUOTE :: (flat_map escape (text "description") ++ [QUOTE]) ++
  text ": " ++ encode_str (description t) ++ text "," ++ newline_indent 2 ++
  QUOTE :: (flat_map escape (text "priority") ++ [QUOTE]) ++
  text ": " ++ repr_int (priority t) ++ text "," ++ newline_indent 2 ++
  QUOTE :: (flat_map escape (text "completed") ++ [QUOTE]) ++
  text ": " ++ encode 2 (JBool (completed t)) ++
  newline_indent 1 ++ text "}" ++ tail.
Proof.
  unfold task_json, encode; fold encode.
  unfold more_members, member, fst, snd.
  repeat rewrite <- app_assoc. reflexivity.
Qed.

Lemma delimited_comma r : delimited (44 :: r).
Proof. left. reflexivity. Qed.

Lemma delimited_indent level r : delimited (newline_indent level ++ r).
Proof. right. reflexivity. Qed.

Lemma scan_task t tail m :
  text_ok t = true ->
  scan_once (6 + m) (encode 1 (task_json t) ++ tail) = Some (task_json t, tail).
Proof.
  intros Hd. rewrite task_text.
  change (scan_once (6 + m)) with
    (value_round (fun x => parse_items (5 + m) x)
                 (fun x => parse_members (5 + m) x)).
  apply (value_round_dict _ _ 2 _
           [(text "id", JInt (id t)); (text "description", JStr (description t));
            (text "priority", JInt (priority t));
            (text "completed", JBool (completed t))]).
  change (parse_members (5 + m)) with
    (members_round (fun x => scan_once (4 + m) x)
                   (fun x => parse_members (4 + m) x)).
  rewrite (members_round_more _ _ (text "id") (repr_int (id t)) (JInt (id t)));
    [ | reflexivity | apply skip_ws_int
      | apply scan_once_int, delimited_comma
      | apply skip_indent; reflexivity ].
  change (parse_members (4 + m)) with
    (members_round (fun x => scan_once (3 + m) x)
                   (fun x => parse_members (3 + m) x)).
  rewrite (members_round_more _ _ (text "description")
             (encode_str (description t)) (JStr (description t)));
    [ | reflexivity | apply skip_ws_str
      | apply scan_once_str, Hd
      | apply skip_indent; reflexivity ].
  change (parse_members (3 + m)) with
    (members_round (fun x => scan_once (2 + m) x)
                   (fun x => parse_members (2 + m) x)).
  rewrite (members_round_more _ _ (text "priority")
             (repr_int (priority t)) (JInt (priority t)));
    [ | reflexivity | apply skip_ws_int
      | apply scan_once_int, delimited_comma
      | apply skip_indent; reflexivity ].
  change (parse_members (2 + m)) with
    (members_round (fun x => scan_once (1 + m) x)
                   (fun x => parse_members (1 + m) x)).
  rewrite (members_round_last _ _ (text "completed")
             (encode 2 (JBool (completed t))) (JBool (completed t)));
    [ | reflexivity | apply skip_ws_bool
      | apply scan_once_bool
      | apply skip_indent; reflexivity ].
  reflexivity.
Qed.

Lemma skip_indent_task level t tail :
  skip_ws (newline_indent level ++ encode 1 (task_json t) ++ tail) =
  encode 1 (task_json t) ++ tail.
Proof. rewrite task_text. apply skip_indent. reflexivity. Qed.

Lemma more_items_cons enc level y l tail :
  more_items enc level (y :: l) ++ tail =
  44 :: newline_indent level ++ enc y ++ more_items enc level l ++ tail.
Proof. simpl. repeat rewrite <- app_assoc. reflexivity. Qed.

Lemma parse_items_tasks ts : forall t m tail,
  forallb text_ok (t :: ts) = true ->
  parse_items (7 + List.length ts + m)
    (encode 1 (task_json t) ++ more_items (encode 1) 1 (map task_json ts) ++
     newline_indent 0 ++ text "]" ++ tail) =
  Some (task_json t :: map task_json ts, tail).
Proof.
  induction ts as [| t2 ts IH]; intros t m tail H;
    simpl in H; apply andb_prop in H; destruct H as [Ht Hts].
  - change (parse_items (7 + List.length (@nil Task) + m)) with
      (items_round (fun x => scan_once (6 + m) x)
                   (fun x => parse_items (6 + m) x)).
    unfold items_round. rewrite scan_task by exact Ht. reflexivity.
  - change (parse_items (7 + List.length (t2 :: ts) + m)) with
      (items_round (fun x => scan_once (6 + (S (List.length ts) + m)) x)
                   (fun x => parse_items (7 + List.length ts + m) x)).
    unfold items_round. rewrite scan_task by exact Ht.
    change (map task_json (t2 :: ts)) with (task_json t2 :: map task_json ts).
    rewrite more_items_cons.
    match goal with
    | |- context [skip_ws (44 :: ?x)] => change (skip_ws (44 :: x)) with (44 :: x)
    end.
    chars. rewrite skip_indent_task.
    rewrite IH by exact Hts. reflexivity.
Qed.

Lemma more_items_length enc level l :
  (List.length l <= List.length (more_items enc level l))%nat.
Proof.
  induction l as [| y l IH]; simpl; [lia |].
  rewrite !length_app. lia.
Qed.

Theorem loads_dumps_tasks ts :
  forallb text_ok ts = true -> loads (dumps (tasks_json ts)) = Ret (tasks_json ts).
Proof.
  intros H. destruct ts as [| t ts]; [reflexivity |].
  unfold dumps, tasks_json. simpl map.
  change (encode 0 (JList (task_json t :: map task_json ts)))
    with (91 :: newline_indent 1 ++ encode 1 (task_json t) ++
          more_items (encode 1) 1 (map task_json ts) ++
          newline_indent 0 ++ text "]").
  set (s := newline_indent 1 ++ _).
  unfold loads.
  change (skip_ws (91 :: s)) with (91 :: s).
  assert (L : (List.length ts + 3 <= List.length (91%N :: s))%nat).
  { unfold s. simpl List.length. rewrite !length_app.
    pose proof (more_items_length (encode 1) 1 (map task_json ts)) as M.
    rewrite length_map in M. simpl. lia. }
  replace (2 * List.length (91%N :: s) + 2)%nat
    with (S (7 + List.length ts + (2 * List.length (91%N :: s) - 6 - List.length ts)))%nat
    by lia.
  change (scan_once (S ?k)) with
    (value_round (fun x => parse_items k x) (fun x => parse_members k x)).
  unfold s. rewrite task_text.
  erewrite value_round_list.
  2:{ rewrite <- task_text.
      replace (more_items (encode 1) 1 (map task_json ts) ++ newline_indent 0 ++ text "]")
        with (more_items (encode 1) 1 (map task_json ts) ++ newline_indent 0 ++ text "]" ++ [])
        by reflexivity.
      apply parse_items_tasks. exact H. }
  reflexivity.
Qed.

Lemma json_tasks_tasks_json ts : json_tasks (tasks_json ts) = Some ts.
Proof.
  unfold json_tasks, tasks_json.
  induction ts as [| [i d p c] ts IH]; [reflexivity |].
  simpl map. simpl json_tasks_list. rewrite IH. reflexivity.
Qed.

End JsonFacts.

(* ================================================================= *)
(** ** Lists of tasks *)

#[local] Open Scope Z_scope.

Lemma silent_app a b : silent a -> silent b -> silent (a ++ b).
Proof. unfold silent. rewrite forallb_app. intros -> ->. reflexivity. Qed.

Lemma read_id_spec p lines : forall out,
  exists evs, silent evs /\
    snd (read_id p lines out) = out ++ evs.
Proof.
  induction lines as [| line rest IH]; intros out; simpl.
  - exists [Prompted p]. split; reflexivity.
  - destruct (Py.int (strip line)).
    + exists [Prompted p]. split; reflexivity.
    + destruct (IH (out ++ [Prompted p; ErrIdNotNumber])) as (evs & S & E).
      exists ([Prompted p; ErrIdNotNumber] ++ evs). split.
      * apply silent_app; [reflexivity | exact S].
      * rewrite E, app_assoc. reflexivity.
Qed.

Lemma read_priority_spec p lines : forall out,
  exists evs, silent evs /\
    snd (read_priority p lines out) = out ++ evs /\
    forall n, fst (fst (read_priority p lines out)) = Ret n ->
              valid_priority n = true.
Proof.
  induction lines as [| line rest IH]; intros out; simpl.
  - exists [Prompted p]. repeat split. discriminate.
  - destruct (Py.int (strip line)) as [n |].
    + destruct (valid_priority n) eqn:V.
      * exists [Prompted p]. repeat split. simpl. intros k [= <-]. exact V.
      * destruct (IH (out ++ [Prompted p; ErrPriorityRange])) as (evs & S & E & R).
        exists ([Prompted p; ErrPriorityRange] ++ evs). repeat split.
        -- apply silent_app; [reflexivity | exact S].
        -- rewrite E, app_assoc. reflexivity.
        -- exact R.
    + destruct (IH (out ++ [Prompted p; ErrPriorityNotNumber])) as (evs & S & E & R).
      exists ([Prompted p; ErrPriorityNotNumber] ++ evs). repeat split.
      * apply silent_app; [reflexivity | exact S].
      * rewrite E, app_assoc. reflexivity.
      * exact R.
Qed.


Lemma mark_complete_found i ts :
  fst (mark_complete i ts) = true <-> In i (ids ts).
Proof.
  induction ts as [| t r IH]; simpl.
  - split; [discriminate | contradiction].
  - destruct (Z.eqb_spec (id t) i) as [E | N]; simpl.
    + split; auto.
    + destruct (mark_complete i r) as [f r']. simpl in *. rewrite IH.
      split; [auto | intros [E | H]; [contradiction | exact H]].
Qed.

Lemma mark_complete_absent i ts :
  fst (mark_complete i ts) = false -> snd (mark_complete i ts) = ts.
Proof.
  induction ts as [| t r IH]; simpl; [reflexivity |].
  destruct (Z.eqb_spec (id t) i) as [E | N]; simpl; [discriminate |].
  destruct (mark_complete i r) as [f r']. simpl in *. intros H. rewrite IH by exact H.
  reflexivity.
Qed.

Lemma without_length i ts :
  (List.length (without i ts) <= List.length ts)%nat /\
  ((List.length (without i ts) < List.length ts)%nat <-> In i (ids ts)).
Proof.
  induction ts as [| t r [L IH]]; simpl.
  - split; [lia | split; [lia | contradiction]].
  - destruct (Z.eqb_spec (id t) i) as [E | N]; simpl.
    + split; [lia | split; [auto | lia]].
    + split; [lia |]. rewrite <- IH. split; [lia | intros [E | H]; [contradiction | lia]].
Qed.

Lemma without_absent i ts : ~ In i (ids ts) -> without i ts = ts.
Proof.
  induction ts as [| t r IH]; simpl; [reflexivity |]. intros H.
  destruct (Z.eqb_spec (id t) i) as [E | N]; simpl.
  - exfalso. apply H. left. exact E.
  - rewrite IH; [reflexivity |]. intros K. apply H. right. exact K.
Qed.

Lemma find_id_some i ts t :
  find (fun task => id task =? i) ts = Some t -> In i (ids ts).
Proof.
  intros H. apply find_some in H. destruct H as [H E].
  apply Z.eqb_eq in E. subst i. apply in_map, H.
Qed.

Lemma find_id_none i ts :
  find (fun task => id task =? i) ts = None -> ~ In i (ids ts).
Proof.
  intros H K. apply in_map_iff in K. destruct K as (t & E & K).
  apply (find_none _ _ H) in K. simpl in K. apply Z.eqb_neq in K. contradiction.
Qed.


Lemma fold_max_spec l : forall a,
  let m := fold_left Z.max l a in
  In m (a :: l) /\ a <= m /\ Forall (fun i => i <= m) l.
Proof.
  induction l as [| x l IH]; intros a; simpl.
  - split; [left; reflexivity | split; [lia | constructor]].
  - destruct (IH (Z.max a x)) as (I & L & F). split; [| split].
    + destruct I as [I | I].
      * rewrite <- I. destruct (Z.max_spec a x) as [[_ ->] | [_ ->]]; auto.
      * right. right. exact I.
    + lia.
    + constructor; [lia | exact F].
Qed.

Lemma largest_id_spec t ts :
  In (largest_id (t :: ts)) (ids (t :: ts)) /\
  Forall (fun i => i <= largest_id (t :: ts)) (ids (t :: ts)).
Proof.
  unfold largest_id, generate_new_id, ids.
  destruct (fold_max_spec (map id ts) (id t)) as (I & L & F).
  replace (fold_left Z.max (map id ts) (id t) + 1 - 1)
    with (fold_left Z.max (map id ts) (id t)) by lia.
  split; [exact I | constructor; assumption].
Qed.

Lemma largest_id_unique ts m :
  In m (ids ts) -> Forall (fun i => i <= m) (ids ts) -> largest_id ts = m.
Proof.
  destruct ts as [| t r]; [contradiction |]. intros I F.
  destruct (largest_id_spec t r) as (I' & F').
  rewrite Forall_forall in F, F'.
  apply F in I'. apply F' in I. lia.
Qed.

Lemma ids_bounded ts : Forall (fun i => i <= largest_id ts) (ids ts).
Proof.
  destruct ts as [| t r]; [constructor | apply largest_id_spec].
Qed.

Lemma new_id_fresh ts : ~ In (generate_new_id ts) (ids ts).
Proof.
  intros H. pose proof (ids_bounded ts) as F. rewrite Forall_forall in F.
  apply F in H. unfold largest_id in H. lia.
Qed.

Lemma ids_app ts t : ids (ts ++ [t]) = ids ts ++ [id t].
Proof. unfold ids. rewrite map_app. reflexivity. Qed.

Lemma ids_mark_complete i ts : ids (snd (mark_complete i ts)) = ids ts.
Proof.
  induction ts as [| t r IH]; simpl; [reflexivity |].
  destruct (id t =? i); simpl; [reflexivity |].
  destruct (mark_complete i r) as [f r']. simpl in *. rewrite IH. reflexivity.
Qed.

Lemma ids_assign_priority i p ts : ids (assign_priority i p ts) = ids ts.
Proof.
  induction ts as [| t r IH]; simpl; [reflexivity |].
  destruct (id t =? i); simpl; [reflexivity |]. rewrite IH. reflexivity.
Qed.

Lemma ids_without i ts : ids (without i ts) = filter (fun j => negb (j =? i)) (ids ts).
Proof.
  induction ts as [| t r IH]; simpl; [reflexivity |].
  destruct (id t =? i); simpl; [exact IH | rewrite IH; reflexivity].
Qed.

Lemma mutation_distinct ts ts' :
  mutation ts ts' -> NoDup (ids ts) -> NoDup (ids ts').
Proof.
  intros M D. destruct M.
  - rewrite ids_app. apply NoDup_app; [exact D | repeat constructor; intros [] |].
    intros x I [E | []]. subst x. exact (new_id_fresh ts I).
  - rewrite ids_without. apply NoDup_filter, D.
  - rewrite ids_mark_complete. exact D.
  - rewrite ids_assign_priority. exact D.
  - exact D.
Qed.

Lemma effect_mutation ts evs r ts' : effect ts evs r ts' -> mutation ts ts'.
Proof.
  intros E. destruct E; try constructor. assumption.
Qed.

Lemma stays_done_refl t : stays_done t t.
Proof. repeat split. auto. Qed.

Lemma Forall2_stays_done_refl ts : Forall2 stays_done ts ts.
Proof. induction ts; constructor; [apply stays_done_refl | assumption]. Qed.

Lemma mark_complete_stays_done i ts :
  Forall2 stays_done ts (snd (mark_complete i ts)).
Proof.
  induction ts as [| t r IH]; simpl; [constructor |].
  destruct (id t =? i); simpl.
  - constructor; [repeat split | apply Forall2_stays_done_refl].
  - destruct (mark_complete i r) as [f r']. simpl in *.
    constructor; [apply stays_done_refl | exact IH].
Qed.

Lemma assign_priority_stays_done i p ts :
  Forall2 stays_done ts (assign_priority i p ts).
Proof.
  induction ts as [| t r IH]; simpl; [constructor |].
  destruct (id t =? i); simpl.
  - constructor; [repeat split; auto | apply Forall2_stays_done_refl].
  - constructor; [apply stays_done_refl | exact IH].
Qed.

Lemma mutation_shape ts ts' : mutation ts ts' -> step_shape ts ts'.
Proof.
  intros M. destruct M.
  - apply shape_append. reflexivity.
  - apply shape_remove.
  - apply shape_update, mark_complete_stays_done.
  - apply shape_update, assign_priority_stays_done.
  - apply shape_update, Forall2_stays_done_refl.
Qed.


Lemma same_id_same_task ts t t0 :
  NoDup (ids ts) -> In t ts -> In t0 ts -> id t = id t0 -> t = t0.
Proof.
  induction ts as [| x r IH]; simpl; [contradiction |].
  intros D [-> | I] [-> | I0] E; inversion D as [| ? ? N D']; subst.
  - reflexivity.
  - exfalso. apply N. rewrite E. apply in_map, I0.
  - exfalso. apply N. rewrite <- E. apply in_map, I.
  - apply IH; assumption.
Qed.

Lemma Forall2_from_right {A} (R : A -> A -> Prop) l l' y :
  Forall2 R l l' -> In y l' -> exists x, In x l /\ R x y.
Proof.
  induction 1 as [| a b l l' H F IH]; simpl; [contradiction |].
  intros [<- | I].
  - exists a. auto.
  - destruct (IH I) as (x & Ix & Rx). exists x. auto.
Qed.

Lemma mutation_keeps_done ts ts' t t' :
  mutation ts ts' -> NoDup (ids ts) -> In t ts -> In t' ts' ->
  id t = id t' -> completed t = true -> completed t' = true.
Proof.
  intros M D I I' E C.
  assert (U : forall l, Forall2 stays_done ts l -> In t' l -> completed t' = true).
  { intros l F J. destruct (Forall2_from_right _ _ _ _ F J) as (x & Ix & (Ei & _ & K)).
    assert (t = x) by (apply (same_id_same_task ts); [assumption .. | congruence]).
    subst x. apply K, C. }
  destruct M.
  - apply in_app_or in I'. destruct I' as [I' | [<- | []]].
    + rewrite <- (same_id_same_task ts t t' D I I' E). exact C.
    + exfalso. apply (new_id_fresh ts). simpl in E. rewrite <- E. apply in_map, I.
  - apply filter_In in I'. destruct I' as [I' _].
    rewrite <- (same_id_same_task ts t t' D I I' E). exact C.
  - apply (U _ (mark_complete_stays_done i ts) I').
  - apply (U _ (assign_priority_stays_done i p ts) I').
  - apply (U _ (Forall2_stays_done_refl ts) I').
Qed.


(* ================================================================= *)
(** ** Text of scalar values *)

Lemma lstrip_scalar s :
  forallb scalar s = true -> forallb scalar (lstrip s) = true.
Proof.
  induction s as [| c r IH]; [reflexivity |]. intros H.
  cbn [lstrip]. destruct (isspace c); [| exact H].
  cbn [forallb] in H. apply andb_prop in H. apply IH, H.
Qed.

Lemma forallb_rev {A} (f : A -> bool) l :
  forallb f l = true -> forallb f (rev l) = true.
Proof.
  rewrite !forallb_forall. intros H x I. apply H, in_rev, I.
Qed.

Lemma strip_scalar s :
  forallb scalar s = true -> forallb scalar (strip s) = true.
Proof.
  intros H. unfold strip, rstrip.
  apply forallb_rev, lstrip_scalar, forallb_rev, lstrip_scalar, H.
Qed.

Lemma text_ok_replaced before t t' after :
  description t' = description t ->
  forallb text_ok (before ++ t :: after) = true ->
  forallb text_ok (before ++ t' :: after) = true.
Proof.
  intros D. rewrite !forallb_app. cbn [forallb].
  replace (text_ok t') with (text_ok t) by (unfold text_ok; rewrite D; reflexivity).
  auto.
Qed.


Lemma text_ok_without i ts :
  forallb text_ok ts = true -> forallb text_ok (without i ts) = true.
Proof.
  rewrite !forallb_forall. intros F t K. unfold without in K.
  apply filter_In in K. apply F, K.
Qed.

(** What a write that succeeds leaves. *)
Lemma write_holds d c d' : Fs.write d c = (Ret tt, d') -> Fs.holds d' c.
Proof.
  destruct d as [| | r [] c0 | r [] | r room c0]; cbn; try discriminate;
    try (intros [= <-]; reflexivity).
  destruct (_ <=? _)%nat; [intros [= <-]; reflexivity | discriminate].
Qed.

(** What a write that fails leaves: the file as it was when it could not be
    opened, and the part that fitted when the device ran out of room. *)
Lemma write_fails d c e d' :
  Fs.write d c = (Raise e, d') ->
  (d' = d /\ (e = IsADirectoryError \/ e = PermissionError)) \/
  (exists r room old,
      d = Fs.Cramped r room old /\ d' = Fs.Cramped r room (firstn room c) /\
      e = OSError /\ (room < List.length c)%nat).
Proof.
  destruct d as [| | r [] c0 | r [] | r room c0]; cbn; try discriminate;
    try (intros [= <- <-]; left; auto).
  destruct (Nat.leb_spec (List.length c) room) as [L | G]; [discriminate |].
  intros [= <- <-]. right. exists r, room, c0. auto.
Qed.

Lemma write_usable d c r d' : Fs.write d c = (r, d') -> usable d -> r = Ret tt /\ usable d'.
Proof.
  destruct d as [| | rd [] c0 | rd [] | rd room c0]; cbn; try contradiction.
  - intros [= <- <-] _. repeat split.
  - intros [= <- <-] U. auto.
  - intros _ [_ K]. discriminate K.
Qed.
(* ================================================================= *)
(** ** The effect of every operation *)

#[local] Arguments dumps : simpl never.
#[local] Arguments without : simpl never.
#[local] Arguments Nat.ltb : simpl never.
#[local] Arguments sorted : simpl never.
#[local] Arguments generate_new_id : simpl never.
#[local] Arguments Fs.write : simpl never.
#[local] Arguments mark_complete : simpl never.
#[local] Arguments assign_priority : simpl never.
#[local] Arguments read_id : simpl never.
#[local] Arguments read_priority : simpl never.
#[local] Arguments List.length : simpl never.
#[local] Arguments find : simpl never.



Ltac monad :=
  cbv [bind ret print input get_tasks set_tasks on_console ask_id ask_priority
       save_tasks display_tasks];
  cbn [tasks disk stdin stdout].


Lemma display_tasks_run w :
  exists e, is_silent e = true /\
    display_tasks w = (Ret tt, mkWorld (tasks w) (disk w) (stdin w) (stdout w ++ [e])).
Proof.
  unfold display_tasks. monad. destruct (tasks w) as [| t r] eqn:E; cbn; rewrite ?E.
  - exists EmptyListBanner. split; reflexivity.
  - exists (Listing (sorted (t :: r))). split; reflexivity.
Qed.


Ltac leaf evs :=
  intros [= <- <-]; exists evs; cbn [tasks stdout];
  split; [rewrite <- ?app_assoc; reflexivity |].

Lemma display_tasks_effect : traced display_tasks.
Proof.
  intros w r w'. destruct (display_tasks_run w) as (e & S & ->).
  leaf [e]. apply eff_none. unfold silent. simpl. rewrite S. reflexivity.
Qed.

Lemma add_task_effect : traced add_task.
Proof.
  intros w r w'. unfold add_task. monad.
  destruct (stdin w) as [| line rest]; cbn.
  - leaf [AddHeader; Prompted AskDescription]. apply eff_none. reflexivity.
  - destruct (strip line) as [| c d] eqn:D; cbn.
    + leaf [AddHeader; Prompted AskDescription; ErrEmptyDescription].
      apply eff_none. reflexivity.
    + destruct (read_priority_spec AskPriority rest
                  ((stdout w ++ [AddHeader]) ++ [Prompted AskDescription]))
        as (evs & S & E & V).
      destruct (read_priority AskPriority rest _) as [[r0 rest'] out'].
      cbn in E, V. subst out'.
      assert (Q : silent ([AddHeader; Prompted AskDescription] ++ evs))
        by (apply silent_app; [reflexivity | exact S]).
      destruct r0 as [p | e]; cbn.
      * destruct (Fs.write _ _) as [[[] | ?] ?]; cbn.
        -- leaf ([AddHeader; Prompted AskDescription] ++ evs ++
                 [Added (generate_new_id (tasks w)) (c :: d) p]).
           rewrite app_assoc. apply eff_added;
             [exact Q | discriminate | apply V; reflexivity].
        -- leaf ([AddHeader; Prompted AskDescription] ++ evs).
           apply eff_unsaved; [exact Q | apply mut_add].
      * leaf ([AddHeader; Prompted AskDescription] ++ evs).
        apply eff_none, Q.
Qed.

Lemma delete_task_effect : traced delete_task.
Proof.
  intros w r w'. unfold delete_task. unfold bind at 1.
  destruct (display_tasks_run w) as (e0 & S0 & ->).
  assert (Q0 : silent [e0]) by (unfold silent; simpl; rewrite S0; reflexivity).
  monad. destruct (tasks w) as [| t0 r0] eqn:T; cbn.
  - leaf [e0]. apply eff_none, Q0.
  - rewrite <- T.
    destruct (read_id_spec AskDeleteId (stdin w) (stdout w ++ [e0])) as (evs & S & E).
    destruct (read_id AskDeleteId (stdin w) _) as [[r1 rest'] out']. cbn in E. subst out'.
    assert (Q : silent ([e0] ++ evs)) by (apply silent_app; assumption).
    destruct r1 as [i | e]; cbn.
    + destruct (without_length i (tasks w)) as [_ L].
      destruct (Nat.ltb_spec (List.length (without i (tasks w)))
                             (List.length (tasks w))) as [Lt | Ge]; cbn.
      * destruct (Fs.write _ _) as [[[] | ?] ?]; cbn.
        -- leaf ([e0] ++ evs ++ [Deleted i]).
           rewrite app_assoc. apply eff_deleted; [exact Q | apply L, Lt].
        -- leaf ([e0] ++ evs). apply eff_unsaved; [exact Q | apply mut_delete].
      * leaf ([e0] ++ evs ++ [NotFound i]).
        assert (A : ~ In i (ids (tasks w))) by (rewrite <- L; lia).
        rewrite (without_absent _ _ A). rewrite app_assoc. apply eff_not_found.
        -- exact Q.
        -- rewrite T. discriminate.
        -- exact A.
    + leaf ([e0] ++ evs). apply eff_none, Q.
Qed.

Lemma complete_task_effect : traced complete_task.
Proof.
  intros w r w'. unfold complete_task. unfold bind at 1.
  destruct (display_tasks_run w) as (e0 & S0 & ->).
  assert (Q0 : silent [e0]) by (unfold silent; simpl; rewrite S0; reflexivity).
  monad. destruct (tasks w) as [| t0 r0] eqn:T; cbn.
  - leaf [e0]. apply eff_none, Q0.
  - rewrite <- T.
    destruct (read_id_spec AskCompleteId (stdin w) (stdout w ++ [e0])) as (evs & S & E).
    destruct (read_id AskCompleteId (stdin w) _) as [[r1 rest'] out']. cbn in E. subst out'.
    assert (Q : silent ([e0] ++ evs)) by (apply silent_app; assumption).
    destruct r1 as [i | e]; cbn.
    + pose proof (mark_complete_found i (tasks w)) as F.
      pose proof (mark_complete_absent i (tasks w)) as A.
      destruct (mark_complete i (tasks w)) as [found ts'] eqn:MC. cbn in F, A.
      destruct found; cbn.
      * destruct (Fs.write _ _) as [[[] | ?] ?]; cbn.
        -- leaf ([e0] ++ evs ++ [MarkedComplete i]).
           rewrite app_assoc.
           replace ts' with (snd (mark_complete i (tasks w))) by (rewrite MC; reflexivity).
           apply eff_completed; [exact Q | apply F; reflexivity].
        -- leaf ([e0] ++ evs).
           replace ts' with (snd (mark_complete i (tasks w))) by (rewrite MC; reflexivity).
           apply eff_unsaved; [exact Q | apply mut_complete].
      * leaf ([e0] ++ evs ++ [NotFound i]).
        rewrite A by reflexivity. rewrite app_assoc. apply eff_not_found.
        -- exact Q.
        -- rewrite T. discriminate.
        -- rewrite <- F. discriminate.
    + leaf ([e0] ++ evs). apply eff_none, Q.
Qed.

Lemma prioritize_task_effect : traced prioritize_task.
Proof.
  intros w r w'. unfold prioritize_task. unfold bind at 1.
  destruct (display_tasks_run w) as (e0 & S0 & ->).
  assert (Q0 : silent [e0]) by (unfold silent; simpl; rewrite S0; reflexivity).
  monad. destruct (tasks w) as [| t0 r0] eqn:T; cbn.
  - leaf [e0]. apply eff_none, Q0.
  - rewrite <- T.
    destruct (read_id_spec AskPrioritizeId (stdin w) (stdout w ++ [e0])) as (evs & S & E).
    destruct (read_id AskPrioritizeId (stdin w) _) as [[r1 rest'] out']. cbn in E. subst out'.
    assert (Q : silent ([e0] ++ evs)) by (apply silent_app; assumption).
    destruct r1 as [i | e]; cbn.
    + destruct (find (fun task => id task =? i) (tasks w)) as [target |] eqn:F; cbn.
      * destruct (read_priority_spec (AskNewPriority i (priority target)) rest'
                    ((stdout w ++ [e0]) ++ evs)) as (evs2 & S2 & E2 & V).
        destruct (read_priority _ rest' _) as [[r2 rest2] out2].
        cbn in E2, V. subst out2.
        assert (Q2 : silent (([e0] ++ evs) ++ evs2)) by (apply silent_app; assumption).
        destruct r2 as [p | e]; cbn.
        -- destruct (Fs.write _ _) as [[[] | ?] ?]; cbn.
           ++ leaf ((([e0] ++ evs) ++ evs2) ++ [PriorityUpdated i p]).
              apply eff_prioritized;
                [exact Q2 | apply (find_id_some _ _ _ F) | apply V; reflexivity].
           ++ leaf (([e0] ++ evs) ++ evs2).
              apply eff_unsaved; [exact Q2 | apply mut_prioritize].
        -- leaf (([e0] ++ evs) ++ evs2). apply eff_none, Q2.
      * leaf (([e0] ++ evs) ++ [NotFound i]). apply eff_not_found.
        -- exact Q.
        -- rewrite T. discriminate.
        -- apply find_id_none, F.
    + leaf ([e0] ++ evs). apply eff_none, Q.
Qed.

Theorem run_effect op : traced (run op).
Proof.
  destruct op; simpl.
  - apply display_tasks_effect.
  - apply add_task_effect.
  - apply complete_task_effect.
  - apply prioritize_task_effect.
  - apply delete_task_effect.
Qed.

Lemma effect_prefix s ts evs r ts' :
  silent s -> effect ts evs r ts' -> effect ts (s ++ evs) r ts'.
Proof.
  intros Q E. destruct E; rewrite ?app_assoc;
    [ apply eff_none | apply eff_not_found | apply eff_added
    | apply eff_deleted | apply eff_completed | apply eff_prioritized
    | apply eff_unsaved ]; try assumption; apply silent_app; assumption.
Qed.

Lemma history_prefix s ts evs ts' :
  silent s -> history ts evs ts' -> history ts (s ++ evs) ts'.
Proof.
  intros Q H. destruct H as [evs r ts' E | evs1 ts1 evs2 ts2 E H].
  - apply hist_stop with r. apply effect_prefix; assumption.
  - rewrite app_assoc. apply hist_next with ts1; [| exact H].
    apply effect_prefix; assumption.
Qed.

Lemma history_silent ts evs : silent evs -> history ts evs ts.
Proof. intros Q. apply hist_stop with (Ret tt). apply eff_none, Q. Qed.


Lemma then_loop op (m : M bool) :
  traced op -> traced_loop m -> traced_loop (op ;;; m).
Proof.
  intros Hop Hm w r w'. unfold bind.
  destruct (op w) as [r1 w1] eqn:E1.
  destruct (Hop _ _ _ E1) as (evs1 & O1 & F1).
  destruct r1 as [[] | e].
  - intros E2. destruct (Hm _ _ _ E2) as (evs2 & O2 & F2).
    exists (evs1 ++ evs2). split.
    + rewrite O2, O1, app_assoc. reflexivity.
    + apply hist_next with (tasks w1); assumption.
  - intros [= <- <-]. exists evs1. split; [exact O1 |].
    apply hist_stop with (Raise e). exact F1.
Qed.

Lemma main_loop_history n : traced_loop (main_loop n).
Proof.
  induction n as [| n IH].
  - intros w r w' [= <- <-]. exists []. split; [symmetry; apply List.app_nil_r |].
    apply history_silent. reflexivity.
  - intros w r w'. cbn [main_loop]. unfold bind at 1.
    destruct (display_tasks_run w) as (e0 & S0 & ->).
    unfold bind at 1. unfold show_menu, print at 1. cbn [tasks disk stdin stdout].
    unfold bind at 1. unfold input. cbn [tasks disk stdin stdout].
    set (pre := [e0; Menu; Prompted AskChoice]).
    assert (Qp : silent pre) by (unfold silent, pre; simpl; rewrite S0; reflexivity).
    assert (Ep : forall o, ((o ++ [e0]) ++ [Menu]) ++ [Prompted AskChoice] = o ++ pre)
      by (intros o; unfold pre; rewrite <- !app_assoc; reflexivity).
    rewrite Ep.
    destruct (stdin w) as [| line rest].
    + intros [= <- <-]. exists pre. split; [reflexivity |]. apply history_silent, Qp.
    + set (w1 := mkWorld (tasks w) (disk w) rest (stdout w ++ pre)).
      assert (K : forall m : M bool, traced_loop m ->
                m w1 = (r, w') ->
                exists evs, stdout w' = stdout w ++ evs /\
                            history (tasks w) evs (tasks w')).
      { intros m Hm E. destruct (Hm _ _ _ E) as (evs & O & F).
        exists (pre ++ evs). split.
        - rewrite O. unfold w1. cbn [stdout]. rewrite <- app_assoc. reflexivity.
        - apply history_prefix; assumption. }
      destruct (str_eqb (strip line) (text "1")); [apply K, IH |].
      destruct (str_eqb (strip line) (text "2"));
        [apply K, then_loop; [apply add_task_effect | apply IH] |].
      destruct (str_eqb (strip line) (text "3"));
        [apply K, then_loop; [apply complete_task_effect | apply IH] |].
      destruct (str_eqb (strip line) (text "4"));
        [apply K, then_loop; [apply prioritize_task_effect | apply IH] |].
      destruct (str_eqb (strip line) (text "5"));
        [apply K, then_loop; [apply delete_task_effect | apply IH] |].
      destruct (str_eqb (strip line) (text "0")).
      * apply K. intros w2 r2 w2'. monad.
        destruct (Fs.write _ _) as [[[] | ?] ?]; cbn; intros [= <- <-]; exists [Goodbye];
          (split; [reflexivity | apply history_silent; reflexivity]).
      * apply K, then_loop; [| apply IH].
        intros w2 r2 w2'. unfold print. intros [= <- <-]. exists [InvalidChoice].
        split; [reflexivity | apply eff_none; reflexivity].
Qed.

(* ================================================================= *)
(** ** The menu loop ends *)

Lemma consumes_ret {A} (a : A) : consumes (ret a).
Proof. intros w r w' [= <- <-]. apply Nat.le_refl. Qed.

Lemma consumes_bind {A B} (m : M A) (k : A -> M B) :
  consumes m -> (forall a, consumes (k a)) -> consumes (bind m k).
Proof.
  intros Hm Hk w r w'. unfold bind.
  destruct (m w) as [[a | e] w1] eqn:E.
  - intros K. apply Hk in K. apply Hm in E. lia.
  - intros [= <- <-]. apply Hm in E. exact E.
Qed.

Lemma consumes_print e : consumes (print e).
Proof. intros w r w' [= <- <-]. apply Nat.le_refl. Qed.

Lemma consumes_get_tasks : consumes get_tasks.
Proof. intros w r w' [= <- <-]. apply Nat.le_refl. Qed.

Lemma consumes_set_tasks ts : consumes (set_tasks ts).
Proof. intros w r w' [= <- <-]. apply Nat.le_refl. Qed.

Lemma consumes_save_tasks ts : consumes (save_tasks ts).
Proof.
  intros w r w'. unfold save_tasks.
  destruct (Fs.write _ _) as [[[] | ?] ?]; intros [= <- <-]; apply Nat.le_refl.
Qed.

Lemma input_takes_a_line p w r w' :
  input p w = (r, w') ->
  (r = Raise EOFError /\ stdin w = [] /\ stdin w' = []) \/
  (exists line, r = Ret line /\ stdin w = line :: stdin w').
Proof.
  unfold input. destruct (stdin w) as [| line rest]; intros [= <- <-].
  - left. auto.
  - right. exists line. auto.
Qed.

Lemma consumes_input p : consumes (input p).
Proof.
  intros w r w' H.
  destruct (input_takes_a_line _ _ _ _ H) as [(_ & -> & ->) | (l & _ & ->)];
    rewrite ?length_cons; lia.
Qed.

Lemma read_id_rest p lines : forall out,
  (List.length (snd (fst (read_id p lines out))) <= List.length lines)%nat.
Proof.
  induction lines as [| line rest IH]; intros out;
    unfold read_id; fold read_id; [apply Nat.le_refl |].
  rewrite length_cons.
  destruct (Py.int (strip line)); cbn [fst snd]; [lia |].
  specialize (IH (out ++ [Prompted p; ErrIdNotNumber])). lia.
Qed.

Lemma read_priority_rest p lines : forall out,
  (List.length (snd (fst (read_priority p lines out))) <= List.length lines)%nat.
Proof.
  induction lines as [| line rest IH]; intros out;
    unfold read_priority; fold read_priority; [apply Nat.le_refl |].
  rewrite length_cons.
  destruct (Py.int (strip line)) as [n |].
  - destruct (valid_priority n); cbn [fst snd]; [lia |].
    specialize (IH (out ++ [Prompted p; ErrPriorityRange])). lia.
  - specialize (IH (out ++ [Prompted p; ErrPriorityNotNumber])). lia.
Qed.

Lemma consumes_ask_id p : consumes (ask_id p).
Proof.
  intros w r w'. unfold ask_id, on_console.
  pose proof (read_id_rest p (stdin w) (stdout w)) as L.
  destruct (read_id p (stdin w) (stdout w)) as [[r0 rest] out].
  intros [= <- <-]. exact L.
Qed.

Lemma consumes_ask_priority p : consumes (ask_priority p).
Proof.
  intros w r w'. unfold ask_priority, on_console.
  pose proof (read_priority_rest p (stdin w) (stdout w)) as L.
  destruct (read_priority p (stdin w) (stdout w)) as [[r0 rest] out].
  intros [= <- <-]. exact L.
Qed.

Lemma consumes_display_tasks : consumes display_tasks.
Proof.
  apply consumes_bind; [apply consumes_get_tasks |].
  intros [| t r]; apply consumes_print.
Qed.

Ltac consume :=
  repeat first
    [ apply consumes_ret | apply consumes_print | apply consumes_get_tasks
    | apply consumes_set_tasks | apply consumes_save_tasks
    | apply consumes_input | apply consumes_ask_id
    | apply consumes_ask_priority | apply consumes_display_tasks
    | apply consumes_bind; [| intros ?] ].

Lemma consumes_run op : consumes (run op).
Proof.
  destruct op; cbn [run].
  - apply consumes_display_tasks.
  - unfold add_task. consume.
    match goal with |- consumes (match strip ?l with _ => _ end) =>
      destruct (strip l) end; consume.
  - unfold complete_task. consume.
    match goal with a : list Task |- _ => destruct a end; consume.
    match goal with |- consumes (let (_, _) := ?x in _) => destruct x as [[] ?] end;
      consume.
  - unfold prioritize_task. consume.
    match goal with a : list Task |- _ => destruct a end; consume.
    match goal with |- consumes (match ?x with _ => _ end) => destruct x end;
      consume.
  - unfold delete_task. consume.
    match goal with a : list Task |- _ => destruct a end; consume.
    match goal with |- consumes (if ?x then _ else _) => destruct x end; consume.
Qed.

(** X11.  The menu loop ends within one round more than there are lines to read:
    with that many rounds it has either left through choice 0 or stopped on
    an exception (the end of the input, or a failed write). *)
Theorem main_loop_ends n : forall w,
  (List.length (stdin w) < n)%nat -> fst (main_loop n w) <> Ret false.
Proof.
  assert (G : forall n w r w', main_loop n w = (r, w') -> r = Ret false ->
                               (n <= List.length (stdin w))%nat).
  { clear n. induction n as [| n IH]; intros w r w' E R; [lia |].
    subst r. revert E. cbn [main_loop].
    unfold bind at 1. destruct (display_tasks w) as [[[] | e] w1] eqn:D;
      [| discriminate].
    apply consumes_display_tasks in D.
    unfold bind at 1. unfold show_menu, print at 1.
    unfold bind at 1.
    destruct (input AskChoice _) as [[line | e] w2] eqn:I; [| discriminate].
    destruct (input_takes_a_line _ _ _ _ I) as [(X & _) | (l & _ & L)];
      [discriminate |]. cbn [stdin] in L.
    assert (K : forall (op : M unit) w3 r3,
               consumes op ->
               (op ;;; main_loop n) w2 = (r3, w3) -> r3 = Ret false ->
               (S n <= List.length (stdin w))%nat).
    { intros op w3 r3 C. unfold bind.
      destruct (op w2) as [[[] | e] w4] eqn:O; [| intros [= <- _]; discriminate].
      intros E R. apply C in O. apply (IH _ _ _ E) in R.
      rewrite L, length_cons in D. lia. }
    destruct (str_eqb (strip line) (text "1")).
    { intros E. pose proof (IH _ _ _ E eq_refl) as R.
      rewrite L, length_cons in D. lia. }
    destruct (str_eqb (strip line) (text "2"));
      [intros E; exact (K _ _ _ (consumes_run Add) E eq_refl) |].
    destruct (str_eqb (strip line) (text "3"));
      [intros E; exact (K _ _ _ (consumes_run Complete) E eq_refl) |].
    destruct (str_eqb (strip line) (text "4"));
      [intros E; exact (K _ _ _ (consumes_run Prioritize) E eq_refl) |].
    destruct (str_eqb (strip line) (text "5"));
      [intros E; exact (K _ _ _ (consumes_run Delete) E eq_refl) |].
    destruct (str_eqb (strip line) (text "0")).
    - monad. destruct (Fs.write _ _) as [[[] | ?] ?]; discriminate.
    - intros E. exact (K _ _ _ (consumes_print InvalidChoice) E eq_refl). }
  intros w L H. destruct (main_loop n w) as [r w'] eqn:E.
  cbn [fst] in H. apply (G _ _ _ _ E) in H. lia.
Qed.

(* ================================================================= *)
(** ** Following the tasks of one id along a run *)

Lemma stays_done_trans a b c : stays_done a b -> stays_done b c -> stays_done a c.
Proof.
  intros (I1 & D1 & C1) (I2 & D2 & C2). repeat split; try congruence. auto.
Qed.

Lemma Forall2_stays_done_trans l1 : forall l2 l3,
  Forall2 stays_done l1 l2 -> Forall2 stays_done l2 l3 ->
  Forall2 stays_done l1 l3.
Proof.
  induction l1 as [| a l1 IH]; intros l2 l3 F G.
  - inversion F; subst. inversion G; subst. constructor.
  - inversion F as [| ? b ? l2' Hab F']; subst.
    inversion G as [| ? c ? l3' Hbc G']; subst.
    constructor; [apply (stays_done_trans _ _ _ Hab Hbc) | apply (IH _ _ F' G')].
Qed.

Lemma with_id_stays_done i ts ts' :
  Forall2 stays_done ts ts' -> Forall2 stays_done (with_id i ts) (with_id i ts').
Proof.
  induction 1 as [| t t' l l' H F IH]; [constructor |].
  unfold with_id in *. cbn [filter]. destruct H as (E & D & C).
  rewrite E. destruct (id t =? i); [| exact IH].
  constructor; [repeat split; assumption | exact IH].
Qed.

Lemma with_id_without i j ts :
  i <> j -> with_id i (without j ts) = with_id i ts.
Proof.
  intros N. unfold with_id, without.
  induction ts as [| t r IH]; [reflexivity |]. cbn [filter].
  destruct (Z.eqb_spec (id t) j) as [Ej | Nj]; cbn [negb filter].
  - destruct (Z.eqb_spec (id t) i) as [Ei | Ni]; [congruence | exact IH].
  - rewrite IH. reflexivity.
Qed.

Lemma with_id_without_same i ts : with_id i (without i ts) = [].
Proof.
  unfold with_id, without.
  induction ts as [| t r IH]; [reflexivity |]. cbn [filter].
  destruct (Z.eqb_spec (id t) i) as [E | N]; cbn [negb filter]; [exact IH |].
  destruct (Z.eqb_spec (id t) i); [contradiction | exact IH].
Qed.

Lemma kept_on_refl i ts : kept_on i ts ts.
Proof.
  exists (with_id i ts), []. split; [apply Forall2_stays_done_refl |].
  symmetry. apply List.app_nil_r.
Qed.

Lemma kept_on_update i ts ts' : Forall2 stays_done ts ts' -> kept_on i ts ts'.
Proof.
  intros F. exists (with_id i ts'), [].
  split; [apply with_id_stays_done, F | symmetry; apply List.app_nil_r].
Qed.

Lemma kept_on_trans i a b c : kept_on i a b -> kept_on i b c -> kept_on i a c.
Proof.
  intros (o1 & n1 & F1 & E1) (o2 & n2 & F2 & E2).
  rewrite E1 in F2. apply Forall2_app_inv_l in F2.
  destruct F2 as (oa & ob & Fa & Fb & ->).
  exists oa, (ob ++ n2). split.
  - apply (Forall2_stays_done_trans _ _ _ F1 Fa).
  - rewrite E2, app_assoc. reflexivity.
Qed.

Lemma step_shape_carried i ts ts' : step_shape ts ts' -> carried i ts ts'.
Proof.
  intros S. destruct S as [ts' F | t C | j].
  - right. apply kept_on_update, F.
  - right. exists (with_id i ts), (with_id i [t]).
    split; [apply Forall2_stays_done_refl | apply filter_app].
  - destruct (Z.eq_dec i j) as [-> | N].
    + left. apply with_id_without_same.
    + right. exists (with_id i ts), [].
      split; [apply Forall2_stays_done_refl |].
      rewrite (with_id_without _ _ _ N). symmetry. apply List.app_nil_r.
Qed.

(** An operation that returns without announcing that it deleted [i] has
    kept the tasks with that id. *)
Lemma effect_kept_on i ts evs ts' :
  effect ts evs (Ret tt) ts' -> ~ In (Deleted i) evs -> kept_on i ts ts'.
Proof.
  intros E. inversion E as
      [evs0 r Q | evs0 j Q NE A | evs0 d p Q ND V | evs0 j Q I
      | evs0 j Q I | evs0 j p Q I V | evs0 e ts0 Q M]; subst; intros N.
  - apply kept_on_refl.
  - apply kept_on_refl.
  - exists (with_id i ts), (with_id i [new_task ts d p]).
    split; [apply Forall2_stays_done_refl | apply filter_app].
  - assert (i <> j).
    { intros ->. apply N, in_or_app. right. left. reflexivity. }
    exists (with_id i ts), [].
    split; [apply Forall2_stays_done_refl |].
    rewrite with_id_without by assumption. symmetry. apply List.app_nil_r.
  - apply kept_on_update, mark_complete_stays_done.
  - apply kept_on_update, assign_priority_stays_done.
Qed.

Lemma history_carried i ts evs ts' :
  history ts evs ts' -> ~ In (Deleted i) evs -> carried i ts ts'.
Proof.
  induction 1 as [ts evs r ts' E | ts evs1 ts1 evs2 ts2 E H IH]; intros N.
  - destruct r as [[] | e].
    + right. apply (effect_kept_on _ _ _ _ E N).
    + apply step_shape_carried, mutation_shape, (effect_mutation _ _ _ _ E).
  - assert (K : kept_on i ts ts1).
    { apply (effect_kept_on _ _ _ _ E). intros J. apply N, in_or_app. auto. }
    destruct IH as [G | G].
    + intros J. apply N, in_or_app. auto.
    + left. exact G.
    + right. apply (kept_on_trans _ _ _ _ K G).
Qed.

Lemma history_distinct ts evs ts' :
  history ts evs ts' -> NoDup (ids ts) -> NoDup (ids ts').
Proof.
  induction 1 as [ts evs r ts' E | ts evs1 ts1 evs2 ts2 E H IH]; intros D.
  - apply (mutation_distinct _ _ (effect_mutation _ _ _ _ E) D).
  - apply IH, (mutation_distinct _ _ (effect_mutation _ _ _ _ E) D).
Qed.

Lemma with_id_single t ts :
  NoDup (ids ts) -> In t ts -> with_id (id t) ts = [t].
Proof.
  induction ts as [| x r IH]; [contradiction |].
  cbn [ids map]. intros D I. inversion D as [| ? ? Nx Dr]; subst.
  unfold with_id in *. cbn [filter].
  assert (Absent : forall l, ~ In (id t) (ids l) ->
                   filter (fun u => id u =? id t) l = []).
  { induction l as [| u l IHl]; [reflexivity |]. cbn [filter ids map].
    intros A. destruct (Z.eqb_spec (id u) (id t)) as [E | _].
    - exfalso. apply A. left. exact E.
    - apply IHl. intros K. apply A. right. exact K. }
  destruct I as [-> | I].
  - rewrite Z.eqb_refl, Absent by exact Nx. reflexivity.
  - destruct (Z.eqb_spec (id x) (id t)) as [E | _].
    + exfalso. apply Nx. rewrite E. apply in_map, I.
    + apply IH; assumption.
Qed.

(** With distinct ids: a complete task that a run did not delete is
    complete at the end of the run. *)
Lemma history_keeps_done ts evs ts' t t' :
  history ts evs ts' -> NoDup (ids ts) -> ~ In (Deleted (id t)) evs ->
  In t ts -> In t' ts' -> id t' = id t ->
  completed t = true -> completed t' = true.
Proof.
  intros H D N I I' E C.
  assert (J : In t' (with_id (id t) ts')).
  { apply filter_In. split; [exact I' | apply Z.eqb_eq, E]. }
  destruct (history_carried (id t) _ _ _ H N) as [G | (olds & news & F & G)].
  - rewrite G in J. contradiction.
  - rewrite (with_id_single _ _ D I) in F.
    inversion F as [| ? o ? l' So F']; subst. inversion F'; subst.
    assert (Io : In o (with_id (id t) ts')) by (rewrite G; left; reflexivity).
    apply filter_In in Io. destruct Io as [Io Eo]. apply Z.eqb_eq in Eo.
    assert (t' = o).
    { apply (same_id_same_task ts');
        [apply (history_distinct _ _ _ H D) | exact I' | exact Io | congruence]. }
    subst o. destruct So as (_ & _ & K). apply K, C.
Qed.

(* ================================================================= *)
(** ** Identifiers and completion *)

Lemma run_mutation op w : mutation (tasks w) (tasks (snd (run op w))).
Proof.
  destruct (run op w) as [r w'] eqn:E.
  destruct (run_effect op _ _ _ E) as (evs & _ & F).
  eapply effect_mutation, F.
Qed.

(* ---------- C6 ---------- *)

(** C6. [generate_new_id] returns 1 on the empty collection, and on every
    other collection one more than the largest id in it: that id occurs in
    the collection and no id in the collection exceeds it. *)
Theorem generate_new_id_is_max_plus_one :
  generate_new_id [] = 1 /\
  forall t ts,
    exists m, In m (ids (t :: ts)) /\
              Forall (fun i => i <= m) (ids (t :: ts)) /\
              generate_new_id (t :: ts) = m + 1.
Proof.
  split; [reflexivity |]. intros t ts.
  exists (largest_id (t :: ts)).
  destruct (largest_id_spec t ts) as [I F].
  repeat split; [exact I | exact F | unfold largest_id; lia].
Qed.

(* ---------- C9 ---------- *)

(** C9. Every operation keeps the ids of the collection pairwise distinct:
    if they are before it runs, they are in the state it leaves, whether it
    returned or raised. *)
Theorem operations_keep_ids_distinct op w :
  NoDup (ids (tasks w)) -> NoDup (ids (tasks (snd (run op w)))).
Proof.
  intros D. eapply mutation_distinct; [apply run_mutation | exact D].
Qed.

Lemma operations_keep_ids_distinct_witness :
  let w := mkWorld two_tasks Fs.Missing [text "Email team"; text "3"] [] in
  NoDup (ids (tasks w)) /\ NoDup (ids (tasks (snd (run Add w)))).
Proof.
  intros w.
  assert (D : NoDup (ids (tasks w))).
  { repeat constructor; simpl; intuition discriminate. }
  split; [exact D | apply (operations_keep_ids_distinct Add w D)].
Defined.

(* ---------- C8 ---------- *)

(** C8. No operation resets a completed flag, and no run of operations
    does.  One operation either updates tasks in place, each keeping its id
    and description and staying complete if it was, or appends one task, or
    removes tasks.  Along every run of the menu loop, for every id [i] that
    the run does not announce as deleted: the tasks that had the id [i] at
    the start are gone (a delete whose write failed, which ends the run) or
    are still there, in the same order and in front of any later task with
    that id, each with its description and complete if it was complete at
    the start.  With distinct ids this reads: a task that is complete and
    is not deleted is complete at the end of the run, and after every
    single operation. *)
Theorem completion_is_one_way :
  (forall op w, step_shape (tasks w) (tasks (snd (run op w)))) /\
  (forall n w i evs,
      stdout (snd (main_loop n w)) = stdout w ++ evs ->
      ~ In (Deleted i) evs ->
      carried i (tasks w) (tasks (snd (main_loop n w)))) /\
  (forall n w evs t t',
      NoDup (ids (tasks w)) ->
      stdout (snd (main_loop n w)) = stdout w ++ evs ->
      ~ In (Deleted (id t)) evs ->
      In t (tasks w) -> In t' (tasks (snd (main_loop n w))) ->
      id t' = id t -> completed t = true -> completed t' = true) /\
  (forall op w t t',
      NoDup (ids (tasks w)) ->
      In t (tasks w) -> In t' (tasks (snd (run op w))) -> id t = id t' ->
      completed t = true -> completed t' = true).
Proof.
  assert (Run : forall n w evs,
             stdout (snd (main_loop n w)) = stdout w ++ evs ->
             history (tasks w) evs (tasks (snd (main_loop n w)))).
  { intros n w evs O. destruct (main_loop n w) as [r w'] eqn:E.
    destruct (main_loop_history n _ _ _ E) as (evs' & O' & H).
    cbn [snd] in *. rewrite O' in O. apply app_inv_head in O. subst evs'.
    exact H. }
  split; [| split; [| split]].
  - intros op w. apply mutation_shape, run_mutation.
  - intros n w i evs O N. apply (history_carried i _ _ _ (Run _ _ _ O) N).
  - intros n w evs t t' D O N I I' E C.
    apply (history_keeps_done _ _ _ t t' (Run _ _ _ O) D N I I' E C).
  - intros op w t t' D I I' E C.
    exact (mutation_keeps_done _ _ t t' (run_mutation op w) D I I' E C).
Qed.

Lemma completion_is_one_way_witness :
  let w := mkWorld two_tasks Fs.Missing
             [text "4"; text "2"; text "3"; text "5"; text "1";
              text "2"; text "Email team"; text "1"; text "0"] [] in
  let evs := stdout (snd (main_loop 4 w)) in
  let t := mkTask 2 (text "Call bank") 1 true in
  let t' := mkTask 2 (text "Call bank") 3 true in
  NoDup (ids (tasks w)) /\ ~ In (Deleted (id t)) evs /\
  In (Deleted 1) evs /\ In t (tasks w) /\
  tasks (snd (main_loop 4 w)) = [t'; mkTask 3 (text "Email team") 1 false] /\
  completed t = true /\ completed t' = true.
Proof.
  intros w evs t t'.
  assert (D : NoDup (ids (tasks w))).
  { repeat constructor; simpl; intuition discriminate. }
  assert (O : stdout (snd (main_loop 4 w)) = stdout w ++ evs) by reflexivity.
  assert (N : ~ In (Deleted (id t)) evs).
  { vm_compute. intros H.
    repeat (destruct H as [H | H]; [discriminate H |]). exact H. }
  assert (I : In t (tasks w)) by (right; left; reflexivity).
  assert (T : tasks (snd (main_loop 4 w)) =
              [t'; mkTask 3 (text "Email team") 1 false])
    by (vm_compute; reflexivity).
  assert (I' : In t' (tasks (snd (main_loop 4 w))))
    by (rewrite T; left; reflexivity).
  split; [exact D |]. split; [exact N |].
  split; [vm_compute; do 12 right; left; reflexivity |].
  split; [exact I |]. split; [exact T |]. split; [reflexivity |].
  exact (proj1 (proj2 (proj2 completion_is_one_way)) 4%nat w evs t t' D O N I I'
           eq_refl eq_refl).
Defined.

(* ================================================================= *)
(** ** Completing and adding a task *)

Lemma read_id_first p line rest out i :
  Py.int (strip line) = Some i ->
  read_id p (line :: rest) out = (Ret i, rest, out ++ [Prompted p]).
Proof. intros H. unfold read_id. rewrite H. reflexivity. Qed.

Lemma read_priority_first p line rest out n :
  Py.int (strip line) = Some n -> valid_priority n = true ->
  read_priority p (line :: rest) out = (Ret n, rest, out ++ [Prompted p]).
Proof. intros H V. unfold read_priority. rewrite H, V. reflexivity. Qed.

Lemma display_nonempty w :
  tasks w <> [] ->
  display_tasks w =
  (Ret tt, mkWorld (tasks w) (disk w) (stdin w)
                   (stdout w ++ [Listing (sorted (tasks w))])).
Proof.
  intros H. unfold display_tasks. monad.
  destruct (tasks w) as [| t r] eqn:T; [contradiction |]. cbn. rewrite T. reflexivity.
Qed.

(** C10. On an empty collection the complete, reprioritize and delete
    operations print the empty-list banner and return: nothing is asked,
    nothing is read, nothing is written and no not-found error is
    reported.  Whenever an operation does report that an id was not found,
    the collection was not empty and held no task with that id. *)
Theorem empty_collection_returns_at_once :
  (forall op w,
      op = Complete \/ op = Prioritize \/ op = Delete -> tasks w = [] ->
      run op w =
      (Ret tt, mkWorld [] (disk w) (stdin w) (stdout w ++ [EmptyListBanner]))) /\
  (forall op w evs i,
      stdout (snd (run op w)) = stdout w ++ evs -> In (NotFound i) evs ->
      tasks w <> [] /\ ~ In i (ids (tasks w))).
Proof.
  split.
  - intros op [ts d i o] H E. cbn in E. subst ts.
    destruct H as [-> | [-> | ->]]; reflexivity.
  - intros op w evs i O I.
    destruct (run op w) as [r w'] eqn:E.
    destruct (run_effect op _ _ _ E) as (evs' & O' & F).
    cbn [snd] in O. rewrite O' in O. apply app_inv_head in O. subst evs'.
    assert (Q : forall s, silent s -> ~ In (NotFound i) s).
    { intros s Qs K. unfold silent in Qs. rewrite forallb_forall in Qs.
      apply Qs in K. discriminate. }
    destruct F; try (exfalso; exact (Q _ H I));
      apply in_app_or in I; destruct I as [I | [I | []]];
      try (exfalso; exact (Q _ H I)); try discriminate.
    injection I as <-. split; assumption.
Qed.

Lemma empty_collection_returns_at_once_witness :
  let w := mkWorld [] Fs.Missing [text "7"] [] in
  tasks w = [] /\
  run Delete w = (Ret tt, mkWorld [] Fs.Missing [text "7"] [EmptyListBanner]).
Proof.
  intros w. split; [reflexivity |].
  exact (proj1 empty_collection_returns_at_once Delete w
           (or_intror (or_intror eq_refl)) eq_refl).
Defined.

(** C3, as stated, fails on the empty collection: the id 7 matches no task,
    and [complete_task] returns without reporting that it was not found (it
    does not even read the id). *)
Lemma complete_task_empty_no_not_found :
  let w := mkWorld [] Fs.Missing [text "7"] [] in
  ~ In 7 (ids (tasks w)) /\
  complete_task w = (Ret tt, mkWorld [] Fs.Missing [text "7"] [EmptyListBanner]) /\
  ~ In (NotFound 7) (stdout (snd (complete_task w))).
Proof.
  cbv zeta. split; [intros [] |]. split; [reflexivity |].
  vm_compute. intros [H | []]. discriminate H.
Qed.

(** C3, amended.  On an empty collection [complete_task] prints the banner
    and returns.  On a non-empty collection whose descriptions can be
    printed, the number typed at the prompt being [i]: when no task has the
    id [i], the collection and the file are left as they are, nothing is
    written, and the id is reported as not found; when a task has it, the
    first such task gets [completed = True] and keeps its id, description
    and priority, the other tasks are untouched, the collection is written
    to the file, from whose text the decoder gives back the same task
    dictionaries, and the completion is announced.  If the write fails the
    exception is raised with the flag already set in memory, the file being
    what the failed write left. *)
Theorem complete_task_spec w :
  (tasks w = [] ->
   complete_task w =
   (Ret tt, mkWorld [] (disk w) (stdin w) (stdout w ++ [EmptyListBanner]))) /\
  (forall line rest i,
      tasks w <> [] -> forallb text_ok (tasks w) = true ->
      stdin w = line :: rest -> Py.int (strip line) = Some i ->
      ~ In i (ids (tasks w)) ->
      complete_task w =
      (Ret tt,
       mkWorld (tasks w) (disk w) rest
         (stdout w ++ [Listing (sorted (tasks w)); Prompted AskCompleteId;
                       NotFound i]))) /\
  (forall line rest before t after,
      tasks w = before ++ t :: after -> ~ In (id t) (ids before) ->
      forallb text_ok (tasks w) = true ->
      stdin w = line :: rest -> Py.int (strip line) = Some (id t) ->
      let done := mkTask (id t) (description t) (priority t) true in
      let ts' := before ++ done :: after in
      let content := dumps (tasks_json ts') in
      let shown :=
        stdout w ++ [Listing (sorted (tasks w)); Prompted AskCompleteId] in
      loads content = Ret (tasks_json ts') /\
      match Fs.write (disk w) content with
      | (Ret _, file) =>
          complete_task w =
          (Ret tt, mkWorld ts' file rest (shown ++ [MarkedComplete (id t)])) /\
          Fs.holds file content
      | (Raise e, file) =>
          complete_task w = (Raise e, mkWorld ts' file rest shown)
      end).
Proof.
  split.
  { destruct w as [ts d inp out]. cbn [tasks]. intros ->. reflexivity. }
  assert (Run : forall line rest i,
    tasks w <> [] -> stdin w = line :: rest -> Py.int (strip line) = Some i ->
    complete_task w =
    (let (found, ts') := mark_complete i (tasks w) in
     set_tasks ts' ;;;
     if found then save_tasks ts' ;;; print (MarkedComplete i)
     else print (NotFound i))
      (mkWorld (tasks w) (disk w) rest
         (stdout w ++ [Listing (sorted (tasks w)); Prompted AskCompleteId]))).
  { intros line rest i NE St Pi.
    unfold complete_task. unfold bind at 1. rewrite (display_nonempty w NE).
    unfold bind at 1, get_tasks at 1. cbn [tasks].
    destruct (tasks w) as [| t0 r0] eqn:T; [contradiction |]. rewrite <- T.
    unfold bind at 1, ask_id, on_console. cbn [tasks disk stdin stdout].
    rewrite St, (read_id_first _ _ _ _ _ Pi). cbn [tasks].
    rewrite <- ?T, <- app_assoc. reflexivity. }
  split.
  - intros line rest i NE _ St Pi A. rewrite (Run _ _ _ NE St Pi).
    pose proof (mark_complete_found i (tasks w)) as F.
    pose proof (mark_complete_absent i (tasks w)) as K.
    destruct (mark_complete i (tasks w)) as [found ts']. cbn in F, K.
    destruct found; [exfalso; apply A, F; reflexivity |].
    rewrite K by reflexivity. monad. rewrite <- !app_assoc. reflexivity.
  - intros line rest before t after E Nb Ok St Pi done ts' content shown.
    assert (NE : tasks w <> []) by (rewrite E; destruct before; discriminate).
    assert (MC : mark_complete (id t) (tasks w) = (true, ts')).
    { rewrite E. clear - Nb. induction before as [| x b IH].
      - unfold mark_complete. cbn [app]. rewrite Z.eqb_refl. reflexivity.
      - cbn [app]. unfold mark_complete; fold mark_complete.
        destruct (Z.eqb_spec (id x) (id t)) as [K | _].
        + exfalso. apply Nb. left. exact K.
        + rewrite IH; [reflexivity |]. intros K. apply Nb. right. exact K. }
    split.
    { apply JsonFacts.loads_dumps_tasks. rewrite E in Ok.
      apply (text_ok_replaced before t done after eq_refl Ok). }
    rewrite (Run _ _ _ NE St Pi), MC. monad. fold content.
    destruct (Fs.write (disk w) content) as [[[] | e] file] eqn:W;
      cbn; [| reflexivity].
    split; [reflexivity | apply (write_holds _ _ _ W)].
Qed.

Lemma complete_task_spec_witness :
  let w := mkWorld two_tasks Fs.Missing [text " 1 "; text "9"] [] in
  let t := mkTask 1 (text "Buy milk") 2 false in
  let after := [mkTask 2 (text "Call bank") 1 true] in
  let ts' := mkTask 1 (text "Buy milk") 2 true :: after in
  tasks w = [] ++ t :: after /\ ~ In (id t) (ids []) /\
  forallb text_ok (tasks w) = true /\
  Py.int (strip (text " 1 ")) = Some (id t) /\
  complete_task w =
  (Ret tt,
   mkWorld ts' (Fs.File true true (dumps (tasks_json ts'))) [text "9"]
     [Listing (sorted two_tasks); Prompted AskCompleteId; MarkedComplete 1]).
Proof.
  intros w t after ts'.
  assert (Nb : ~ In (id t) (ids [])) by (intros []).
  assert (Ok : forallb text_ok (tasks w) = true) by reflexivity.
  split; [reflexivity |]. split; [exact Nb |]. split; [exact Ok |].
  split; [reflexivity |].
  exact (proj1 (proj2 (proj2 (proj2 (complete_task_spec w)) (text " 1 ")
                         [text "9"] [] t after eq_refl Nb Ok eq_refl eq_refl))).
Defined.




(* ================================================================= *)
(** ** The display order *)

Lemma key_lt_spec c1 p1 i1 c2 p2 i2 :
  key_lt (c1, p1, i1) (c2, p2, i2) = true <->
  (c1 = false /\ c2 = true) \/
  (c1 = c2 /\ (p1 < p2 \/ (p1 = p2 /\ i1 < i2))).
Proof.
  unfold key_lt.
  destruct c1, c2; simpl;
    destruct (Z.eqb_spec p1 p2) as [Ep | Np];
    destruct (Z.ltb_spec i1 i2) as [Li | Gi];
    destruct (Z.ltb_spec p1 p2) as [Lp | Gp];
    intuition (try congruence; try lia).
Qed.

Lemma key_le_total a b : key_lt a b = true -> key_le a b.
Proof.
  destruct a as [[c1 p1] i1], b as [[c2 p2] i2]. unfold key_le.
  intros H. apply key_lt_spec in H.
  destruct (key_lt (c2, p2, i2) (c1, p1, i1)) eqn:K; [| reflexivity].
  apply key_lt_spec in K.
  destruct H as [[? ?] | [? ?]], K as [[? ?] | [? ?]]; subst; try discriminate; lia.
Qed.

Lemma key_le_trans a b c : key_le a b -> key_le b c -> key_le a c.
Proof.
  destruct a as [[c1 p1] i1], b as [[c2 p2] i2], c as [[c3 p3] i3].
  unfold key_le. intros H K.
  destruct (key_lt (c3, p3, i3) (c1, p1, i1)) eqn:L; [| reflexivity].
  apply key_lt_spec in L.
  assert (H' : ~ ((c2 = false /\ c1 = true) \/
                  (c2 = c1 /\ (p2 < p1 \/ (p2 = p1 /\ i2 < i1)))))
    by (rewrite <- key_lt_spec, H; discriminate).
  assert (K' : ~ ((c3 = false /\ c2 = true) \/
                  (c3 = c2 /\ (p3 < p2 \/ (p3 = p2 /\ i3 < i2)))))
    by (rewrite <- key_lt_spec, K; discriminate).
  exfalso. destruct c1, c2, c3; intuition (try discriminate; try lia).
Qed.

Lemma key_lt_differ a b : key_lt a b = true -> key_eqb a b = false.
Proof.
  destruct a as [[c1 p1] i1], b as [[c2 p2] i2]. intros H.
  apply key_lt_spec in H. unfold key_eqb.
  destruct H as [[-> ->] | [-> [H | [-> H]]]].
  - reflexivity.
  - rewrite Bool.eqb_reflx. simpl.
    destruct (Z.eqb_spec p1 p2); [lia | reflexivity].
  - rewrite Bool.eqb_reflx, Z.eqb_refl. simpl.
    destruct (Z.eqb_spec i1 i2); [lia | reflexivity].
Qed.

Lemma key_eqb_eq a b : key_eqb a b = true -> a = b.
Proof.
  destruct a as [[c1 p1] i1], b as [[c2 p2] i2]. unfold key_eqb.
  intros H. apply andb_prop in H. destruct H as [H I].
  apply andb_prop in H. destruct H as [C P].
  apply Bool.eqb_prop in C. apply Z.eqb_eq in P, I. congruence.
Qed.

Lemma insert_row_perm x l : Permutation (x :: l) (insert_row x l).
Proof.
  induction l as [| y r IH]; cbn [insert_row]; [reflexivity |].
  destruct (key_lt (sort_key y) (sort_key x)); [| reflexivity].
  rewrite perm_swap. apply perm_skip, IH.
Qed.

Lemma insert_row_order x l :
  in_display_order l -> in_display_order (insert_row x l).
Proof.
  unfold in_display_order.
  induction 1 as [| y r S IH F]; cbn [insert_row].
  - repeat constructor.
  - destruct (key_lt (sort_key y) (sort_key x)) eqn:K.
    + constructor; [exact IH |].
      rewrite <- (insert_row_perm x r). constructor; [| exact F].
      apply key_le_total, K.
    + constructor; [constructor; assumption |].
      constructor; [exact K |].
      rewrite Forall_forall in F |- *. intros z Iz.
      apply key_le_trans with (sort_key y); [exact K | apply F, Iz].
Qed.

Lemma insert_row_stable x l k :
  filter (fun t => key_eqb (sort_key t) k) (insert_row x l) =
  filter (fun t => key_eqb (sort_key t) k) (x :: l).
Proof.
  induction l as [| y r IH]; [reflexivity |].
  cbn [insert_row].
  destruct (key_lt (sort_key y) (sort_key x)) eqn:K; [| reflexivity].
  cbn [filter] in *. rewrite IH.
  destruct (key_eqb (sort_key x) k) eqn:Ex;
    destruct (key_eqb (sort_key y) k) eqn:Ey; try reflexivity.
  apply key_eqb_eq in Ex, Ey. apply key_lt_differ in K.
  rewrite Ex, Ey in K. exfalso.
  destruct k as [[c p] i]. unfold key_eqb in K.
  rewrite Bool.eqb_reflx, !Z.eqb_refl in K. discriminate.
Qed.

Lemma key_le_shown_before a b :
  key_le (sort_key a) (sort_key b) <-> shown_before a b.
Proof.
  unfold key_le, shown_before, sort_key.
  destruct (key_lt (completed b, priority b, id b)
                   (completed a, priority a, id a)) eqn:K.
  - apply key_lt_spec in K. split; [discriminate |]. intros H. exfalso.
    destruct (completed a), (completed b);
      intuition (try discriminate; try lia).
  - split; [intros _ | reflexivity].
    assert (N : ~ ((completed b = false /\ completed a = true) \/
                   (completed b = completed a /\
                    (priority b < priority a \/
                     (priority b = priority a /\ id b < id a)))))
      by (rewrite <- key_lt_spec, K; discriminate).
    destruct (completed a), (completed b);
      destruct (Z.lt_trichotomy (priority a) (priority b)) as [L | [E | G]];
      destruct (Z.le_gt_cases (id a) (id b));
      intuition (try discriminate; try lia).
Qed.

Lemma sorted_perm ts : Permutation ts (sorted ts).
Proof.
  unfold sorted. induction ts as [| x l IH]; cbn [fold_right]; [constructor |].
  rewrite <- insert_row_perm. apply perm_skip, IH.
Qed.

Lemma sorted_order ts : in_display_order (sorted ts).
Proof.
  unfold sorted. induction ts as [| x l IH]; cbn [fold_right]; [constructor |].
  apply insert_row_order, IH.
Qed.

Lemma sorted_stable ts : stable ts (sorted ts).
Proof.
  intros k. unfold sorted. induction ts as [| x l IH]; [reflexivity |].
  cbn [fold_right]. rewrite insert_row_stable. cbn [filter]. rewrite IH.
  reflexivity.
Qed.

Lemma StronglySorted_weaken {A} (R S : A -> A -> Prop) l :
  (forall a b, R a b -> S a b) -> StronglySorted R l -> StronglySorted S l.
Proof.
  intros W. induction 1 as [| x r H IH F]; constructor; [exact IH |].
  rewrite Forall_forall in *. intros y I. apply W, F, I.
Qed.

(** C5.  The table is printed from [sorted(tasks)], a new list that holds
    the tasks of the collection rearranged so that an incomplete task stands
    above a complete one, of two tasks with the same flag the one with the
    smaller priority number stands above, and of two tasks with the same
    flag and priority the one with the smaller id; tasks that agree in
    flag, priority and id keep the order they have in the collection.
    [display_tasks] leaves the collection, the file and the input as they
    were, and prints that list when the descriptions can be printed.  Tasks
    with (completed, priority) = (false,1), (true,1), (false,3), (false,2)
    come out as (false,1), (false,2), (false,3), (true,1), whatever their
    ids and descriptions, and of two tasks with the same flag and priority
    the one with the smaller id comes out first. *)
Theorem display_order_is_stable_sort :
  (forall ts,
      Permutation ts (sorted ts) /\
      StronglySorted shown_before (sorted ts) /\
      (forall c p i, ranked c p i (sorted ts) = ranked c p i ts)) /\
  (forall w,
      let w' := snd (display_tasks w) in
      tasks w' = tasks w /\ disk w' = disk w /\ stdin w' = stdin w) /\
  (forall w,
      forallb text_ok (tasks w) = true ->
      display_tasks w =
      (Ret tt,
       mkWorld (tasks w) (disk w) (stdin w)
         (stdout w ++ [match tasks w with
                       | [] => EmptyListBanner
                       | _ :: _ => Listing (sorted (tasks w))
                       end]))) /\
  (forall i1 d1 i2 d2 i3 d3 i4 d4,
      sorted [mkTask i1 d1 1 false; mkTask i2 d2 1 true;
              mkTask i3 d3 3 false; mkTask i4 d4 2 false] =
      [mkTask i1 d1 1 false; mkTask i4 d4 2 false;
       mkTask i3 d3 3 false; mkTask i2 d2 1 true]) /\
  (forall c p i j d e,
      i < j ->
      sorted [mkTask j d p c; mkTask i e p c] =
      [mkTask i e p c; mkTask j d p c]).
Proof.
  assert (Run : forall w,
    display_tasks w =
    (Ret tt,
     mkWorld (tasks w) (disk w) (stdin w)
       (stdout w ++ [match tasks w with
                     | [] => EmptyListBanner
                     | _ :: _ => Listing (sorted (tasks w))
                     end]))).
  { intros w. unfold display_tasks. monad.
    destruct (tasks w) as [| t r] eqn:T; cbn; rewrite ?T; reflexivity. }
  split; [| split; [| split; [| split]]].
  - intros ts. split; [apply sorted_perm |]. split.
    + apply (StronglySorted_weaken
               (fun a b => key_le (sort_key a) (sort_key b))).
      * intros a b. apply key_le_shown_before.
      * apply sorted_order.
    + intros c p i. exact (sorted_stable ts (c, p, i)).
  - intros w. cbv zeta. rewrite Run. repeat split.
  - intros w _. apply Run.
  - intros. reflexivity.
  - intros c p i j d e L. unfold sorted. cbn [fold_right insert_row].
    unfold sort_key, key_lt. cbn [completed priority id].
    rewrite Bool.eqb_reflx, Z.eqb_refl.
    destruct (Z.ltb_spec i j); [reflexivity | lia].
Qed.

Lemma display_order_is_stable_sort_witness :
  let a := mkTask 2 (text "Call bank") 1 true in
  let b := mkTask 1 (text "Pay rent") 1 true in
  1 < 2 /\ sorted [a; b] = [b; a].
Proof.
  intros a b.
  assert (L : 1 < 2) by reflexivity.
  split; [exact L |].
  exact (proj2 (proj2 (proj2 (proj2 display_order_is_stable_sort))) true 1 1 2
           (text "Call bank") (text "Pay rent") L).
Defined.

(* ================================================================= *)
(** ** The file *)

Lemma loads_raises content e : loads content = Raise e -> e = JSONDecodeError.
Proof.
  unfold loads. destruct (starts_with_bom content).
  - intros [= <-]. reflexivity.
  - destruct (scan_once _ _) as [[v rest] |]; [destruct (skip_ws rest) |];
      intros [= <-]; reflexivity.
Qed.



Lemma skip_ws_blank s : forallb is_ws s = true -> skip_ws s = [].
Proof.
  induction s as [| c r IH]; [reflexivity |]. cbn [forallb skip_ws].
  intros H. apply andb_prop in H. destruct H as [-> H]. apply IH, H.
Qed.

Lemma loads_blank s : forallb is_ws s = true -> loads s = Raise JSONDecodeError.
Proof.
  intros H. unfold loads.
  assert (B : starts_with_bom s = false).
  { destruct s as [| c r]; [reflexivity |]. cbn [forallb] in H.
    apply andb_prop in H. destruct H as [W _]. unfold starts_with_bom.
    unfold is_ws in W. apply N.eqb_neq. intros ->. discriminate W. }
  rewrite B, (skip_ws_blank _ H).
  destruct (2 * List.length s + 2)%nat; reflexivity.
Qed.

(** C2, as stated, fails for an unreadable file: [tasks.json] exists but may
    not be read, and [load_tasks] raises [PermissionError] instead of
    returning the empty list. *)
Lemma load_tasks_unreadable_raises :
  let w := mkWorld [] (Fs.File false true (text "[]")) [] [] in
  load_tasks w = (Raise PermissionError, w).
Proof. reflexivity. Qed.

(** C2, amended.  [load_tasks] changes nothing.  It returns the empty list
    when the file is absent.  When the file can be read and its text stays
    within the limits of the decoder (no run of more than 4300 digits, at
    most 500 opening brackets), it raises nothing: text that is not valid
    JSON, such as empty or blank text, gives the empty list, and valid JSON
    is returned as decoded.  A file that exists but cannot be opened for
    reading, or a directory of that name, makes it raise the error of
    [open].  Nothing is said of a file whose bytes do not decode as text nor
    of text beyond the limits of the decoder. *)
Theorem load_tasks_spec w :
  snd (load_tasks w) = w /\
  (disk w = Fs.Missing -> fst (load_tasks w) = Ret (JList [])) /\
  (forall content,
      Fs.read (disk w) = Ret content -> within_limits content ->
      (loads content = Raise JSONDecodeError /\
       fst (load_tasks w) = Ret (JList [])) \/
      (exists v, loads content = Ret v /\ fst (load_tasks w) = Ret v)) /\
  (forall e,
      e = PermissionError \/ e = IsADirectoryError ->
      Fs.read (disk w) = Raise e -> fst (load_tasks w) = Raise e) /\
  (forall blank,
      forallb is_ws blank = true -> loads blank = Raise JSONDecodeError) /\
  (loads (text "[{") = Raise JSONDecodeError /\
   loads (text "[]") = Ret (JList [])).
Proof.
  unfold load_tasks. split; [| split; [| split; [| split; [| split]]]].
  - destruct (Fs.path_exists (disk w)); [| reflexivity].
    destruct (Fs.read (disk w)) as [c | e].
    + destruct (loads c) as [v | e]; [reflexivity |].
      destruct (caught e); reflexivity.
    + destruct (caught e); reflexivity.
  - intros ->. reflexivity.
  - intros content R _.
    assert (X : Fs.path_exists (disk w) = true)
      by (destruct (disk w) as [| | [] ? ? | [] ? | [] ? ?];
          try discriminate R; reflexivity).
    rewrite X, R. destruct (loads content) as [v | e] eqn:L.
    + right. exists v. split; reflexivity.
    + left. rewrite (loads_raises _ _ L). split; reflexivity.
  - intros e E R.
    destruct (disk w) as [| | [] wr c | [] wr | [] room c];
      try discriminate R; injection R as <-;
      try reflexivity; destruct E as [E | E]; discriminate E.
  - exact loads_blank.
  - split; reflexivity.
Qed.

Lemma load_tasks_spec_witness :
  let w := mkWorld [] (Fs.File true false (text "{ not json")) [] [] in
  Fs.read (disk w) = Ret (text "{ not json") /\
  within_limits (text "{ not json") /\
  loads (text "{ not json") = Raise JSONDecodeError /\
  fst (load_tasks w) = Ret (JList []).
Proof.
  intros w.
  assert (R : Fs.read (disk w) = Ret (text "{ not json")) by reflexivity.
  assert (W : within_limits (text "{ not json")).
  { split; [vm_compute; discriminate | cbv; lia]. }
  assert (L : loads (text "{ not json") = Raise JSONDecodeError) by reflexivity.
  split; [exact R |]. split; [exact W |]. split; [exact L |].
  destruct (proj1 (proj2 (proj2 (load_tasks_spec w))) _ R W)
    as [[_ H] | (v & K & _)]; [exact H |].
  rewrite L in K. discriminate K.
Defined.

(* ================================================================= *)
(** ** Identifiers along a run *)

Lemma generate_new_id_ids ts ts' :
  ids ts = ids ts' -> generate_new_id ts = generate_new_id ts'.
Proof.
  unfold ids. destruct ts as [| t r], ts' as [| t' r']; try discriminate; [reflexivity |].
  cbn [map]. intros [= E1 E2]. unfold generate_new_id. rewrite E1, E2. reflexivity.
Qed.

Lemma largest_id_added ts d p :
  largest_id (ts ++ [new_task ts d p]) = generate_new_id ts.
Proof.
  apply largest_id_unique.
  - rewrite ids_app. apply in_or_app. right. left. reflexivity.
  - rewrite ids_app. apply Forall_app. split.
    + pose proof (ids_bounded ts) as F. rewrite Forall_forall in F |- *.
      intros i I. apply F in I. unfold largest_id in I. lia.
    + constructor; [cbn; lia | constructor].
Qed.

Lemma largest_id_without i ts :
  In i (ids ts) -> i <> largest_id ts -> largest_id (without i ts) = largest_id ts.
Proof.
  intros I N. destruct ts as [| t r]; [contradiction |].
  destruct (largest_id_spec t r) as [M F].
  apply largest_id_unique.
  - rewrite ids_without. apply filter_In. split; [exact M |].
    apply Bool.negb_true_iff, Z.eqb_neq. congruence.
  - rewrite ids_without. rewrite Forall_forall in F |- *.
    intros j J. apply filter_In in J. apply F, J.
Qed.

Lemma fresh_app m a b : fresh m (a ++ b) <-> fresh m a /\ fresh (mark m a) b.
Proof.
  revert m. induction a as [| e a IH]; intros m; cbn [app].
  - cbn. tauto.
  - destruct e; cbn [fresh mark]; rewrite IH; tauto.
Qed.

Lemma keeps_largest_app m a b :
  keeps_largest m (a ++ b) <-> keeps_largest m a /\ keeps_largest (mark m a) b.
Proof.
  revert m. induction a as [| e a IH]; intros m; cbn [app].
  - cbn. tauto.
  - destruct e; cbn [keeps_largest mark]; rewrite IH; tauto.
Qed.

Lemma mark_app m a b : mark m (a ++ b) = mark (mark m a) b.
Proof.
  revert m. induction a as [| e a IH]; intros m; [reflexivity |].
  destruct e; cbn [app mark]; apply IH.
Qed.

Lemma silent_fresh m s : silent s -> fresh m s /\ mark m s = m.
Proof.
  unfold silent. induction s as [| e s IH]; cbn [forallb]; [split; reflexivity |].
  intros H. apply andb_prop in H. destruct H as [He Hs].
  destruct e; try discriminate He; cbn [fresh mark]; apply IH, Hs.
Qed.

(** One operation keeps the bookkeeping of ids right. *)
Lemma effect_fresh ts evs r ts' :
  effect ts evs r ts' -> keeps_largest (largest_id ts) evs ->
  fresh (largest_id ts) evs /\
  (r = Ret tt -> largest_id ts' = mark (largest_id ts) evs).
Proof.
  set (m := largest_id ts).
  intros E K. destruct E as [evs r Q | evs i Q NE A | evs d p Q ND V
                            | evs i Q I | evs i Q I | evs i p Q I V
                            | evs e ts' Q M];
    destruct (silent_fresh m _ Q) as [F Mk];
    rewrite ?fresh_app, ?mark_app, ?Mk; cbn [fresh mark].
  - split; [exact F | intros _; reflexivity].
  - repeat split; assumption || reflexivity.
  - repeat split; try assumption; [unfold m, largest_id; lia |].
    intros _. apply largest_id_added.
  - apply keeps_largest_app in K. rewrite Mk in K. destruct K as [_ [N _]].
    repeat split; try assumption.
    + pose proof (ids_bounded ts) as B. rewrite Forall_forall in B. apply B, I.
    + intros _. apply largest_id_without; assumption.
  - repeat split; try assumption. intros _. unfold m, largest_id.
    rewrite (generate_new_id_ids _ ts (ids_mark_complete i ts)). reflexivity.
  - repeat split; try assumption. intros _. unfold m, largest_id.
    rewrite (generate_new_id_ids _ ts (ids_assign_priority i p ts)). reflexivity.
  - split; [exact F | discriminate].
Qed.

Lemma history_fresh ts evs ts' :
  history ts evs ts' -> keeps_largest (largest_id ts) evs ->
  fresh (largest_id ts) evs.
Proof.
  induction 1 as [ts evs r ts' E | ts evs1 ts1 evs2 ts2 E H IH]; intros K.
  - apply (effect_fresh _ _ _ _ E K).
  - apply keeps_largest_app in K. destruct K as [K1 K2].
    destruct (effect_fresh _ _ _ _ E K1) as [F1 L]. specialize (L eq_refl).
    apply fresh_app. split; [exact F1 |].
    rewrite <- L. apply IH. rewrite L. exact K2.
Qed.

Lemma fresh_above m evs : fresh m evs -> Forall (fun i => m < i) (added_ids evs).
Proof.
  revert m. induction evs as [| e evs IH]; intros m F; [constructor |].
  destruct e; cbn [fresh added_ids] in *; try (apply IH; tauto).
  destruct F as [L F]. constructor; [exact L |].
  apply IH in F. rewrite Forall_forall in F |- *. intros i I. apply F in I. lia.
Qed.

Lemma fresh_sorted m evs :
  fresh m evs -> StronglySorted Z.lt (m :: added_ids evs).
Proof.
  intros F. constructor; [| apply fresh_above, F].
  revert m F. induction evs as [| e evs IH]; intros m F; [constructor |].
  destruct e; cbn [fresh added_ids] in *; try (apply (IH m); tauto).
  destruct F as [L F]. constructor; [apply (IH _ F) | apply fresh_above, F].
Qed.

Lemma fresh_no_reuse m evs : fresh m evs -> no_reuse evs.
Proof.
  intros F pre j post -> I.
  apply fresh_app in F. destruct F as [_ [L F]].
  apply fresh_above in F. rewrite Forall_forall in F. apply F in I. lia.
Qed.

(** C1, as stated, fails when the task with the largest id is deleted: from
    the empty collection, two adds get the ids 1 and 2, the task 2 is
    deleted, and the next add gets the id 2 again. *)
Lemma deleted_largest_id_is_reused :
  let w := mkWorld [] Fs.Missing
             (map text ["2"; "Buy milk"; "2"; "2"; "Call bank"; "1";
                        "5"; "2"; "2"; "Email team"; "3"; "0"]%string) [] in
  fst (main_loop 6 w) = Ret true /\
  announcements (stdout (snd (main_loop 6 w))) =
    [Added 1 (text "Buy milk") 2; Added 2 (text "Call bank") 1; Deleted 2;
     Added 2 (text "Email team") 3] /\
  ~ StronglySorted Z.lt (added_ids (stdout (snd (main_loop 6 w)))).
Proof.
  cbv zeta. split; [vm_compute; reflexivity |]. split; [vm_compute; reflexivity |].
  replace (added_ids _) with [1; 2; 2] by (vm_compute; reflexivity).
  intros S. inversion S as [| a l S' F]; subst.
  inversion S' as [| a' l' S'' F']; subst.
  inversion F' as [| x y L _]; subst. lia.
Qed.

(** C1, amended.  Along every run of the menu loop from any collection, as
    long as no delete removes the task that carries the largest id at that
    moment, the ids given to new tasks are strictly increasing, all above
    the largest id the run started with, and no id is given again after it
    was deleted. *)
Theorem new_ids_increase n w evs :
  stdout (snd (main_loop n w)) = stdout w ++ evs ->
  keeps_largest (largest_id (tasks w)) evs ->
  StronglySorted Z.lt (largest_id (tasks w) :: added_ids evs) /\ no_reuse evs.
Proof.
  intros O K. destruct (main_loop n w) as [r w'] eqn:E.
  destruct (main_loop_history n _ _ _ E) as (evs' & O' & H).
  cbn [snd] in O. rewrite O' in O. apply app_inv_head in O. subst evs'.
  pose proof (history_fresh _ _ _ H K) as F.
  split; [apply fresh_sorted, F | apply (fresh_no_reuse _ _ F)].
Qed.

Lemma new_ids_increase_witness :
  let w := mkWorld [] Fs.Missing
             (map text ["2"; "Buy milk"; "2"; "2"; "Call bank"; "1";
                        "5"; "1"; "2"; "Email team"; "3"; "0"]%string) [] in
  let evs := stdout (snd (main_loop 6 w)) in
  stdout (snd (main_loop 6 w)) = stdout w ++ evs /\
  keeps_largest (largest_id (tasks w)) evs /\
  announcements evs =
    [Added 1 (text "Buy milk") 2; Added 2 (text "Call bank") 1; Deleted 1;
     Added 3 (text "Email team") 3] /\
  StronglySorted Z.lt (largest_id (tasks w) :: added_ids evs) /\ no_reuse evs.
Proof.
  intros w evs.
  assert (O : stdout (snd (main_loop 6 w)) = stdout w ++ evs) by reflexivity.
  assert (K : keeps_largest (largest_id (tasks w)) evs).
  { vm_compute. repeat split; discriminate. }
  split; [exact O |]. split; [exact K |].
  split; [vm_compute; reflexivity |].
  exact (new_ids_increase 6 w evs O K).
Defined.

(* ================================================================= *)
(** ** The loops that read a number *)

Lemma read_id_unfold p line rest out :
  read_id p (line :: rest) out =
  match Py.int (strip line) with
  | Some task_id => (Ret task_id, rest, out ++ [Prompted p])
  | None => read_id p rest (out ++ [Prompted p; ErrIdNotNumber])
  end.
Proof. reflexivity. Qed.

Lemma read_priority_unfold p line rest out :
  read_priority p (line :: rest) out =
  match Py.int (strip line) with
  | Some n =>
      if valid_priority n then (Ret n, rest, out ++ [Prompted p])
      else read_priority p rest (out ++ [Prompted p; ErrPriorityRange])
  | None => read_priority p rest (out ++ [Prompted p; ErrPriorityNotNumber])
  end.
Proof. reflexivity. Qed.

(** X3.  Lines that [int] refuses in front of the answer to an id prompt
    (text that is not a number, and numbers of more than 4300 digits): each
    is answered by the prompt and one error line, in order, and the first
    line that [int] reads, in the digits of any script, is the id, the lines
    after it staying unread.  When the input ends before a number was typed
    the loop ends with [EOFError], after one more prompt. *)
Theorem read_id_asks_again p junk :
  Forall not_a_number junk ->
  forall out,
    let asked :=
      out ++ flat_map (fun _ => [Prompted p; ErrIdNotNumber]) junk ++
      [Prompted p] in
    (forall good rest i,
        Py.int (strip good) = Some i ->
        read_id p (junk ++ good :: rest) out = (Ret i, rest, asked)) /\
    read_id p junk out = (Raise EOFError, [], asked).
Proof.
  induction 1 as [| line junk N F IH]; intros out asked.
  - split.
    + intros good rest i H. cbn [app]. rewrite read_id_unfold, H. reflexivity.
    + reflexivity.
  - destruct (IH (out ++ [Prompted p; ErrIdNotNumber])) as [G E].
    unfold asked. cbn [flat_map]. unfold not_a_number in N.
    split.
    + intros good rest i H. cbn [app]. rewrite read_id_unfold, N.
      rewrite (G good rest i H), <- !app_assoc. reflexivity.
    + rewrite read_id_unfold, N, E, <- !app_assoc. reflexivity.
Qed.

Lemma read_id_asks_again_witness :
  let junk := [text "two"; text ""; text "1.5"; text "1 2"] in
  let good := [32; 65298; 1637; 32]%N in
  Forall not_a_number junk /\ Py.int (strip good) = Some 25 /\
  read_id AskDeleteId (junk ++ [good; text "x"]) [] =
  (Ret 25%Z, [text "x"],
   [Prompted AskDeleteId; ErrIdNotNumber; Prompted AskDeleteId; ErrIdNotNumber;
    Prompted AskDeleteId; ErrIdNotNumber; Prompted AskDeleteId; ErrIdNotNumber;
    Prompted AskDeleteId]).
Proof.
  intros junk good.
  assert (F : Forall not_a_number junk) by (repeat constructor).
  assert (G : Py.int (strip good) = Some 25) by reflexivity.
  split; [exact F |]. split; [exact G |].
  exact (proj1 (read_id_asks_again AskDeleteId junk F []) good [text "x"] 25%Z G).
Defined.

Lemma refused_priority_step p line rest out e :
  priority_error line = Some e ->
  read_priority p (line :: rest) out =
  read_priority p rest (out ++ refused_priority p line).
Proof.
  unfold refused_priority, priority_error. rewrite read_priority_unfold.
  destruct (Py.int (strip line)) as [n |].
  - destruct (valid_priority n); [discriminate |]. reflexivity.
  - reflexivity.
Qed.

(** X4.  Lines refused by a priority prompt, each for its own reason (text
    that [int] refuses, or a number outside 1, 2, 3): every one is answered
    by the prompt and the matching error line, and the first number among
    1, 2, 3 is the priority.  When the input ends first the loop ends with
    [EOFError].  Whatever was typed, a priority the loop returns is 1, 2 or
    3. *)
Theorem read_priority_asks_again p junk :
  Forall (fun line => priority_error line <> None) junk ->
  forall out,
    let asked := out ++ flat_map (refused_priority p) junk ++ [Prompted p] in
    (forall good rest n,
        Py.int (strip good) = Some n -> n = 1 \/ n = 2 \/ n = 3 ->
        read_priority p (junk ++ good :: rest) out = (Ret n, rest, asked)) /\
    read_priority p junk out = (Raise EOFError, [], asked) /\
    (forall lines n rest' out',
        read_priority p lines out = (Ret n, rest', out') ->
        n = 1 \/ n = 2 \/ n = 3).
Proof.
  intros F out asked.
  assert (Last : forall lines o n rest' out',
             read_priority p lines o = (Ret n, rest', out') ->
             n = 1 \/ n = 2 \/ n = 3).
  { induction lines as [| line lines IH]; intros o n rest' out';
      [discriminate |].
    rewrite read_priority_unfold.
    destruct (Py.int (strip line)) as [k |]; [| apply IH].
    destruct (valid_priority k) eqn:V; [| apply IH].
    intros [= <- _ _]. unfold valid_priority in V.
    destruct (Z.eqb_spec k 1); [auto |].
    destruct (Z.eqb_spec k 2); [auto |].
    destruct (Z.eqb_spec k 3); [auto | discriminate]. }
  revert out asked.
  induction F as [| line junk N F IH]; intros out asked.
  - split; [| split; [reflexivity | intros lines; apply (Last lines out)]].
    intros good rest n H V. cbn [app]. rewrite read_priority_unfold, H.
    replace (valid_priority n) with true
      by (destruct V as [-> | [-> | ->]]; reflexivity).
    reflexivity.
  - destruct (IH (out ++ refused_priority p line)) as (G & E & _).
    destruct (priority_error line) as [e |] eqn:P; [| contradiction].
    unfold asked. cbn [flat_map].
    split; [| split; [| intros lines; apply (Last lines out)]].
    + intros good rest n H V. cbn [app].
      rewrite (refused_priority_step _ _ _ _ _ P), (G good rest n H V).
      rewrite <- !app_assoc. reflexivity.
    + rewrite (refused_priority_step _ _ _ _ _ P), E, <- !app_assoc.
      reflexivity.
Qed.

Lemma read_priority_asks_again_witness :
  let junk := [text "high"; text "0"; text "4"] in
  Forall (fun line => priority_error line <> None) junk /\
  read_priority AskPriority (junk ++ [text "3"]) [] =
  (Ret 3%Z, [],
   [Prompted AskPriority; ErrPriorityNotNumber;
    Prompted AskPriority; ErrPriorityRange;
    Prompted AskPriority; ErrPriorityRange; Prompted AskPriority]).
Proof.
  intros junk.
  assert (F : Forall (fun line => priority_error line <> None) junk)
    by (repeat constructor; discriminate).
  split; [exact F |].
  exact (proj1 (read_priority_asks_again AskPriority junk F [])
           (text "3") [] 3%Z eq_refl (or_intror (or_intror eq_refl))).
Defined.

(* ================================================================= *)
(** ** Typing a number *)

Lemma lstrip_head c r : isspace c = false -> lstrip (c :: r) = c :: r.
Proof. intros H. cbn [lstrip]. rewrite H. reflexivity. Qed.

Lemma strip_plain s :
  Forall (fun c => isspace c = false) s -> strip s = s.
Proof.
  intros F. unfold strip, rstrip.
  assert (L : forall x, Forall (fun c => isspace c = false) x -> lstrip x = x).
  { intros x Fx. destruct Fx as [| c r H _]; [reflexivity |].
    apply lstrip_head, H. }
  rewrite (L s F), L by (apply Forall_rev, F). apply rev_involutive.
Qed.

Lemma uint_chars_plain u :
  Forall (fun c => isspace c = false) (uint_chars u).
Proof. induction u; cbn [uint_chars]; constructor; auto. Qed.

Lemma repr_int_plain z : Forall (fun c => isspace c = false) (repr_int z).
Proof.
  unfold repr_int. apply Forall_app. split; [| apply uint_chars_plain].
  destruct (z <? 0); repeat constructor.
Qed.

Lemma int_digits_acc u : forall p,
  int_digits (N.pos p) (uint_chars u) = Some (N.pos (Pos.of_uint_acc u p)).
Proof.
  induction u; intros p; cbn [uint_chars Pos.of_uint_acc];
    [reflexivity | ..];
    unfold int_digits; fold int_digits;
    match goal with
    | |- context [isch ?a ?c] => change (isch a c) with false
    end; cbv beta iota;
    match goal with
    | |- context [digit ?c] =>
        let v := eval vm_compute in (digit c) in change (digit c) with v
    end; cbv beta iota;
    match goal with
    | |- int_digits ?a _ = Some (N.pos (Pos.of_uint_acc _ ?q)) =>
        replace a with (N.pos q) by (unfold Pos.of_uint_acc; lia)
    end; apply IHu.
Qed.

Lemma int_digits_zero u :
  int_digits 0 (uint_chars u) = Some (Pos.of_uint u).
Proof.
  induction u; cbn [uint_chars Pos.of_uint]; [reflexivity | ..];
    unfold int_digits; fold int_digits;
    match goal with
    | |- context [isch ?a ?c] => change (isch a c) with false
    end; cbv beta iota;
    match goal with
    | |- context [digit ?c] =>
        let v := eval vm_compute in (digit c) in change (digit c) with v
    end; cbv beta iota;
    match goal with
    | |- int_digits ?a _ = _ =>
        let v := eval vm_compute in a in change a with v
    end; [exact IHu | apply int_digits_acc ..].
Qed.

Lemma ascii_digit_cases c :
  ((48 <=? c) && (c <=? 57))%N = true ->
  In c [48; 49; 50; 51; 52; 53; 54; 55; 56; 57]%N.
Proof.
  intros H. apply andb_prop in H. destruct H as [L U].
  apply N.leb_le in L, U.
  assert (K : (c = 48 \/ c = 49 \/ c = 50 \/ c = 51 \/ c = 52 \/ c = 53 \/
               c = 54 \/ c = 55 \/ c = 56 \/ c = 57)%N) by lia.
  cbn [In]. intuition auto.
Qed.

Lemma uint_chars_ascii u :
  forallb (fun c => (48 <=? c) && (c <=? 57))%N (uint_chars u) = true.
Proof. induction u; cbn [uint_chars forallb]; [reflexivity | exact IHu ..]. Qed.

(** An ASCII digit is no blank, no sign and no underscore. *)
Lemma ascii_digit_plain c :
  ((48 <=? c) && (c <=? 57))%N = true ->
  isspace c = false /\ int_space c = false /\ isch "-" c = false /\
  isch "+" c = false /\ isch "_" c = false /\ digit c <> None.
Proof.
  intros H. apply ascii_digit_cases in H. cbn [In] in H.
  repeat (destruct H as [<- | H];
          [repeat split; try reflexivity; discriminate |]).
  contradiction.
Qed.

Lemma int_lstrip_plain x :
  Forall (fun c => int_space c = false) x -> int_lstrip x = x.
Proof.
  intros [| c r H _]; [reflexivity |]. cbn [int_lstrip]. rewrite H. reflexivity.
Qed.

Lemma int_trim_plain x :
  Forall (fun c => int_space c = false) x ->
  rev (int_lstrip (rev (int_lstrip x))) = x.
Proof.
  intros F. rewrite (int_lstrip_plain _ F).
  rewrite int_lstrip_plain by (apply Forall_rev, F). apply rev_involutive.
Qed.

Lemma ascii_digits_plain ds :
  forallb (fun c => (48 <=? c) && (c <=? 57))%N ds = true ->
  Forall (fun c => isspace c = false) ds /\
  Forall (fun c => int_space c = false) ds /\
  digit_count ds = N.of_nat (List.length ds).
Proof.
  unfold digit_count. induction ds as [| c r IH]; [repeat constructor |].
  cbn [forallb]. intros H. apply andb_prop in H. destruct H as [Hc Hr].
  destruct (IH Hr) as (A & B & C).
  destruct (ascii_digit_plain c Hc) as (S1 & S2 & _ & _ & U & _).
  repeat split; [constructor; assumption | constructor; assumption |].
  cbn [filter]. rewrite U. cbn [negb]. rewrite !length_cons.
  apply Nat2N.inj in C. rewrite C. reflexivity.
Qed.

Lemma int_unsigned_uint u :
  u <> Decimal.Nil ->
  (N.of_nat (List.length (uint_chars u)) <= MAX_STR_DIGITS)%N ->
  int_unsigned (uint_chars u) = Some (N.of_uint u).
Proof.
  intros NE Lim. unfold N.of_uint.
  destruct (ascii_digits_plain _ (uint_chars_ascii u)) as (_ & _ & C).
  unfold int_unsigned. rewrite C. apply N.leb_le in Lim. rewrite Lim.
  destruct u; [contradiction | ..]; cbn [uint_chars Pos.of_uint];
    match goal with
    | |- context [digit ?c] =>
        let v := eval vm_compute in (digit c) in change (digit c) with v
    end; cbv beta iota; [apply int_digits_zero | apply int_digits_acc ..].
Qed.

Lemma to_uint_not_nil n : N.to_uint n <> Decimal.Nil.
Proof.
  destruct n as [| p]; [discriminate |].
  change (N.to_uint (N.pos p)) with (Pos.to_uint p).
  apply DecimalPos.Unsigned.to_uint_nonnil.
Qed.

Lemma repr_int_int_plain z : Forall (fun c => int_space c = false) (repr_int z).
Proof.
  unfold repr_int. apply Forall_app. split.
  - destruct (z <? 0); repeat constructor.
  - apply (ascii_digits_plain _ (uint_chars_ascii _)).
Qed.

(** [int] reads the decimal notation of an integer of at most 4300 digits
    as that integer. *)
Lemma int_repr_int z :
  (decimal_digits z <= MAX_STR_DIGITS)%N -> Py.int (repr_int z) = Some z.
Proof.
  intros Lim. unfold Py.int. rewrite (int_trim_plain _ (repr_int_int_plain z)).
  unfold repr_int.
  pose proof (int_unsigned_uint _ (to_uint_not_nil (Z.abs_N z)) Lim) as U.
  rewrite DecimalN.Unsigned.of_to in U.
  destruct (Z.ltb_spec z 0) as [Lt | Ge].
  - cbn [text app]. change (isch "-" (N_of_ascii "-")) with true. cbv beta iota.
    rewrite U. cbn [option_map]. f_equal. lia.
  - cbn [app].
    pose proof (uint_chars_ascii (N.to_uint (Z.abs_N z))) as A.
    destruct (uint_chars (N.to_uint (Z.abs_N z))) as [| c r] eqn:E;
      [discriminate U |].
    cbn [forallb] in A. apply andb_prop in A. destruct A as [Hc _].
    destruct (ascii_digit_plain c Hc) as (_ & _ & -> & -> & _).
    rewrite U. cbn [option_map]. f_equal. lia.
Qed.

Lemma lstrip_blanks l x : forallb isspace l = true -> lstrip (l ++ x) = lstrip x.
Proof.
  induction l as [| c l IH]; [reflexivity |]. cbn [forallb app lstrip].
  intros H. apply andb_prop in H. destruct H as [-> H]. apply IH, H.
Qed.

Lemma lstrip_plain x : Forall (fun c => isspace c = false) x -> lstrip x = x.
Proof. intros [| c r H _]; [reflexivity | apply lstrip_head, H]. Qed.

Lemma strip_padded l s r :
  forallb isspace l = true -> forallb isspace r = true ->
  Forall (fun c => isspace c = false) s -> s <> [] ->
  strip (l ++ s ++ r) = s.
Proof.
  intros Hl Hr Fs NE. unfold strip, rstrip. rewrite (lstrip_blanks _ _ Hl).
  destruct s as [| c s']; [contradiction |].
  cbn [app]. rewrite lstrip_head by (inversion Fs; assumption).
  change (c :: s' ++ r) with ((c :: s') ++ r). rewrite rev_app_distr.
  rewrite lstrip_blanks.
  - rewrite lstrip_plain by (apply Forall_rev, Fs). apply rev_involutive.
  - rewrite forallb_forall in *. intros x I. apply Hr, in_rev, I.
Qed.

Lemma repr_int_not_empty z : repr_int z <> [].
Proof.
  unfold repr_int. pose proof (to_uint_not_nil (Z.abs_N z)) as N.
  destruct (N.to_uint (Z.abs_N z)); [contradiction | ..];
    destruct (z <? 0); discriminate.
Qed.

(** X5.  Every integer of at most 4300 digits can be typed at an id prompt:
    its decimal notation, with a minus sign when negative and with any
    blanks around it, is read as that integer on the first try.  So every
    task of a collection that could be loaded can be selected, whatever its
    id.  A run of more than 4300 ASCII digits is refused like any text that
    is not a number: the error is printed and the prompt comes again. *)
Theorem every_id_can_be_typed p rest out :
  (forall i left right,
      (decimal_digits i <= 4300)%N ->
      forallb isspace left = true -> forallb isspace right = true ->
      read_id p ((left ++ repr_int i ++ right) :: rest) out =
      (Ret i, rest, out ++ [Prompted p])) /\
  (forall ds,
      forallb (fun c => (48 <=? c) && (c <=? 57))%N ds = true ->
      (4300 < N.of_nat (List.length ds))%N ->
      read_id p (ds :: rest) out =
      read_id p rest (out ++ [Prompted p; ErrIdNotNumber])).
Proof.
  split.
  - intros i left right Lim Hl Hr. rewrite read_id_unfold.
    rewrite (strip_padded _ _ _ Hl Hr (repr_int_plain i) (repr_int_not_empty i)).
    rewrite (int_repr_int _ Lim). reflexivity.
  - intros ds A Long. rewrite read_id_unfold.
    destruct (ascii_digits_plain _ A) as (S1 & S2 & C).
    rewrite (strip_plain _ S1). unfold Py.int. rewrite (int_trim_plain _ S2).
    destruct ds as [| c r]; [reflexivity |].
    cbn [forallb] in A. apply andb_prop in A. destruct A as [Hc _].
    destruct (ascii_digit_plain c Hc) as (_ & _ & -> & -> & _ & D).
    unfold int_unsigned, MAX_STR_DIGITS. rewrite C.
    destruct (digit c) as [v |]; [| reflexivity].
    apply N.leb_gt in Long. rewrite Long. reflexivity.
Qed.

Lemma every_id_can_be_typed_witness :
  (decimal_digits (-12) <= 4300)%N /\
  forallb isspace (text "  ") = true /\ forallb isspace (text " ") = true /\
  read_id AskCompleteId [text "  -12 "; text "1"] [] =
  (Ret (-12), [text "1"], [Prompted AskCompleteId]).
Proof.
  assert (Lim : (decimal_digits (-12) <= 4300)%N)
    by (vm_compute; discriminate).
  split; [exact Lim |]. split; [reflexivity |]. split; [reflexivity |].
  exact (proj1 (every_id_can_be_typed AskCompleteId [text "1"] [])
           (-12) (text "  ") (text " ") Lim eq_refl eq_refl).
Defined.

(* ================================================================= *)
(** ** Deleting and reprioritizing a task *)

Lemma without_split i ts :
  NoDup (ids ts) -> In i (ids ts) ->
  exists before t after,
    ts = before ++ t :: after /\ id t = i /\ without i ts = before ++ after.
Proof.
  induction ts as [| x r IH]; [contradiction |].
  cbn [ids map]. intros D I. inversion D as [| ? ? Nx Dr]; subst.
  unfold without; cbn [filter]. fold (without i r).
  destruct (Z.eqb_spec (id x) i) as [E | N]; cbn [negb].
  - exists [], x, r. rewrite <- E. rewrite (without_absent _ _ Nx).
    repeat split.
  - destruct I as [E | I]; [contradiction |].
    destruct (IH Dr I) as (b & t & a & -> & Et & ->).
    exists (x :: b), t, a. repeat split. exact Et.
Qed.

Lemma without_keeps i ts t :
  In t (without i ts) <-> In t ts /\ id t <> i.
Proof.
  unfold without. rewrite filter_In.
  destruct (Z.eqb_spec (id t) i); cbn [negb]; intuition congruence.
Qed.

(** X1.  [delete_task] on a non-empty collection whose descriptions can be
    printed, the first line typed being the number [i].  When no task has
    the id [i] the collection and the file stay as they are and the id is
    reported as not found.  Otherwise every task with that id is removed and
    the others are kept (exactly one task goes when ids are distinct, the
    rest keeping their order), the collection is written to the file, from
    whose text the decoder gives back the task dictionaries that are left,
    and the deletion is announced.  If the write fails the exception is
    raised with the tasks already removed in memory; the file is then as it
    was when it could not be opened, and holds the part of the new text that
    fitted, the old text being lost, when the device ran out of room. *)
Theorem delete_task_spec w line rest i :
  tasks w <> [] -> forallb text_ok (tasks w) = true ->
  stdin w = line :: rest -> Py.int (strip line) = Some i ->
  let shown := stdout w ++ [Listing (sorted (tasks w)); Prompted AskDeleteId] in
  let kept := without i (tasks w) in
  let content := dumps (tasks_json kept) in
  (~ In i (ids (tasks w)) ->
   delete_task w =
   (Ret tt, mkWorld (tasks w) (disk w) rest (shown ++ [NotFound i]))) /\
  (In i (ids (tasks w)) ->
   (forall t, In t kept <-> In t (tasks w) /\ id t <> i) /\
   (NoDup (ids (tasks w)) ->
    exists before t after,
      tasks w = before ++ t :: after /\ id t = i /\ kept = before ++ after) /\
   loads content = Ret (tasks_json kept) /\
   match Fs.write (disk w) content with
   | (Ret _, file) =>
       delete_task w = (Ret tt, mkWorld kept file rest (shown ++ [Deleted i])) /\
       Fs.holds file content
   | (Raise e, file) =>
       delete_task w = (Raise e, mkWorld kept file rest shown) /\
       (file = disk w \/
        exists r room old,
          disk w = Fs.Cramped r room old /\
          file = Fs.Cramped r room (firstn room content))
   end).
Proof.
  intros NE Ok St Pi shown kept content.
  assert (Run : delete_task w =
    (if (List.length kept <? List.length (tasks w))%nat
     then save_tasks kept ;;; print (Deleted i)
     else print (NotFound i))
      (mkWorld kept (disk w) rest shown)).
  { unfold kept, shown. clear kept shown content.
    unfold delete_task. unfold bind at 1. rewrite (display_nonempty w NE).
    unfold bind at 1, get_tasks at 1. cbn [tasks].
    destruct (tasks w) as [| t0 r0] eqn:T; [contradiction |]. rewrite <- T.
    unfold bind at 1, ask_id, on_console. cbn [tasks disk stdin stdout].
    rewrite St, (read_id_first _ _ _ _ _ Pi). cbn [tasks].
    rewrite <- ?T, <- app_assoc. reflexivity. }
  destruct (without_length i (tasks w)) as [_ L]. fold kept in L.
  split.
  - intros A. rewrite Run.
    destruct (Nat.ltb_spec (List.length kept) (List.length (tasks w)))
      as [Lt | Ge]; [exfalso; apply A, L, Lt |].
    unfold kept. rewrite (without_absent _ _ A). reflexivity.
  - intros I. split; [intros t; apply without_keeps |].
    split; [intros D; apply without_split; assumption |].
    split; [apply JsonFacts.loads_dumps_tasks, text_ok_without, Ok |].
    rewrite Run.
    destruct (Nat.ltb_spec (List.length kept) (List.length (tasks w)))
      as [Lt | Ge]; [| apply L in I; lia].
    monad. fold content.
    destruct (Fs.write (disk w) content) as [[[] | e] file] eqn:W; cbn.
    + split; [reflexivity | apply (write_holds _ _ _ W)].
    + split; [reflexivity |].
      destruct (write_fails _ _ _ _ W) as [[-> _] | (r & room & old & D & F & _)];
        [left; reflexivity | right; exists r, room, old; auto].
Qed.

Lemma delete_task_spec_witness :
  let w := mkWorld two_tasks (Fs.Cramped true 20 (text "old text"))
             [text "1"] [] in
  let kept := [mkTask 2 (text "Call bank") 1 true] in
  tasks w <> [] /\ forallb text_ok (tasks w) = true /\
  stdin w = [text "1"] /\
  Py.int (strip (text "1")) = Some 1 /\ In 1 (ids (tasks w)) /\
  delete_task w =
  (Raise OSError,
   mkWorld kept
     (Fs.Cramped true 20 (firstn 20 (dumps (tasks_json kept)))) []
     [Listing (sorted two_tasks); Prompted AskDeleteId]).
Proof.
  intros w kept.
  assert (NE : tasks w <> []) by discriminate.
  assert (Ok : forallb text_ok (tasks w) = true) by reflexivity.
  assert (I : In 1 (ids (tasks w))) by (left; reflexivity).
  split; [exact NE |]. split; [exact Ok |]. split; [reflexivity |].
  split; [reflexivity |]. split; [exact I |].
  exact (proj1 (proj2 (proj2 (proj2 (proj2 (delete_task_spec w (text "1") [] 1
                                              NE Ok eq_refl eq_refl) I))))).
Defined.

(** X2.  [prioritize_task] on a non-empty collection whose descriptions can
    be printed, the first line typed being the number [i].  When no task has
    the id [i] the collection and the file stay as they are, the id is
    reported as not found and no priority is asked.  Otherwise the prompt for
    the new priority shows the priority of the first task with that id; once
    a priority [p] among 1, 2, 3 is typed that task has the priority [p] and
    its id, description and flag as before, no other task is changed, the
    collection is written to the file, from whose text the decoder gives back
    the same task dictionaries, and the update is announced.  If the write
    fails the exception is raised with the priority already changed in
    memory, the file being what the failed write left. *)
Theorem prioritize_task_spec w :
  (forall line rest i,
      tasks w <> [] -> forallb text_ok (tasks w) = true ->
      stdin w = line :: rest -> Py.int (strip line) = Some i ->
      ~ In i (ids (tasks w)) ->
      prioritize_task w =
      (Ret tt,
       mkWorld (tasks w) (disk w) rest
         (stdout w ++ [Listing (sorted (tasks w)); Prompted AskPrioritizeId;
                       NotFound i]))) /\
  (forall line answer rest before t after p,
      tasks w = before ++ t :: after -> ~ In (id t) (ids before) ->
      forallb text_ok (tasks w) = true ->
      stdin w = line :: answer :: rest ->
      Py.int (strip line) = Some (id t) ->
      Py.int (strip answer) = Some p -> p = 1 \/ p = 2 \/ p = 3 ->
      let changed := mkTask (id t) (description t) p (completed t) in
      let ts' := before ++ changed :: after in
      let content := dumps (tasks_json ts') in
      let asked :=
        stdout w ++ [Listing (sorted (tasks w)); Prompted AskPrioritizeId;
                     Prompted (AskNewPriority (id t) (priority t))] in
      loads content = Ret (tasks_json ts') /\
      match Fs.write (disk w) content with
      | (Ret _, file) =>
          prioritize_task w =
          (Ret tt,
           mkWorld ts' file rest (asked ++ [PriorityUpdated (id t) p])) /\
          Fs.holds file content
      | (Raise e, file) =>
          prioritize_task w = (Raise e, mkWorld ts' file rest asked)
      end).
Proof.
  assert (Run : forall line rest i,
    tasks w <> [] -> stdin w = line :: rest -> Py.int (strip line) = Some i ->
    prioritize_task w =
    (match find (fun task => id task =? i) (tasks w) with
     | None => print (NotFound i)
     | Some target_task =>
         new_priority <-
           ask_priority (AskNewPriority i (priority target_task)) ;;
         set_tasks (assign_priority i new_priority (tasks w)) ;;;
         ts' <- get_tasks ;;
         save_tasks ts' ;;;
         print (PriorityUpdated i new_priority)
     end)
      (mkWorld (tasks w) (disk w) rest
         (stdout w ++ [Listing (sorted (tasks w)); Prompted AskPrioritizeId]))).
  { intros line rest i NE St Pi.
    unfold prioritize_task. unfold bind at 1. rewrite (display_nonempty w NE).
    unfold bind at 1, get_tasks at 1. cbn [tasks].
    destruct (tasks w) as [| t0 r0] eqn:T; [contradiction |]. rewrite <- T.
    unfold bind at 1, ask_id, on_console. cbn [tasks disk stdin stdout].
    rewrite St, (read_id_first _ _ _ _ _ Pi). cbn [tasks].
    rewrite <- ?T, <- app_assoc. reflexivity. }
  split.
  - intros line rest i NE _ St Pi A. rewrite (Run _ _ _ NE St Pi).
    destruct (find _ (tasks w)) as [t |] eqn:F;
      [exfalso; exact (A (find_id_some _ _ _ F)) |].
    monad. rewrite <- !app_assoc. reflexivity.
  - intros line answer rest before t after p E Nb Ok St Pi Pp V
      changed ts' content asked.
    assert (NE : tasks w <> []) by (rewrite E; destruct before; discriminate).
    assert (Vp : valid_priority p = true)
      by (destruct V as [-> | [-> | ->]]; reflexivity).
    assert (F : find (fun task => id task =? id t) (tasks w) = Some t /\
                assign_priority (id t) p (tasks w) = ts').
    { rewrite E. subst ts' changed. clear - Nb.
      induction before as [| x b IH].
      - unfold find, assign_priority. cbn [app]. rewrite Z.eqb_refl.
        split; reflexivity.
      - cbn [app]. unfold find, assign_priority; fold assign_priority;
          fold (find (fun task => id task =? id t) (b ++ t :: after)).
        destruct (Z.eqb_spec (id x) (id t)) as [K | _].
        + exfalso. apply Nb. left. exact K.
        + destruct IH as [-> ->]; [| split; reflexivity].
          intros K. apply Nb. right. exact K. }
    destruct F as [F A].
    split.
    { apply JsonFacts.loads_dumps_tasks. rewrite E in Ok.
      apply (text_ok_replaced before t changed after eq_refl Ok). }
    rewrite (Run _ _ _ NE St Pi), F. monad.
    rewrite (read_priority_first _ _ _ _ _ Pp Vp). cbn [tasks disk stdin stdout].
    rewrite A. fold content.
    destruct (Fs.write (disk w) content) as [[[] | e] file] eqn:W; cbn;
      unfold asked; rewrite <- ?app_assoc; cbn [app]; [| reflexivity].
    split; [reflexivity | apply (write_holds _ _ _ W)].
Qed.

Lemma prioritize_task_spec_witness :
  let w := mkWorld two_tasks Fs.Missing [text "2"; text "3"; text "x"] [] in
  let before := [mkTask 1 (text "Buy milk") 2 false] in
  let t := mkTask 2 (text "Call bank") 1 true in
  let ts' := before ++ [mkTask 2 (text "Call bank") 3 true] in
  tasks w = before ++ t :: [] /\ ~ In (id t) (ids before) /\
  forallb text_ok (tasks w) = true /\
  Py.int (strip (text "2")) = Some (id t) /\
  Py.int (strip (text "3")) = Some 3 /\
  prioritize_task w =
  (Ret tt,
   mkWorld ts' (Fs.File true true (dumps (tasks_json ts'))) [text "x"]
     [Listing (sorted two_tasks); Prompted AskPrioritizeId;
      Prompted (AskNewPriority 2 1); PriorityUpdated 2 3]).
Proof.
  intros w before t ts'.
  assert (Nb : ~ In (id t) (ids before))
    by (simpl; intuition discriminate).
  assert (Ok : forallb text_ok (tasks w) = true) by reflexivity.
  split; [reflexivity |]. split; [exact Nb |]. split; [exact Ok |].
  split; [reflexivity |]. split; [reflexivity |].
  exact (proj1 (proj2 (proj2 (prioritize_task_spec w) (text "2") (text "3")
                         [text "x"] before t [] 3 eq_refl Nb Ok eq_refl
                         eq_refl eq_refl (or_intror (or_intror eq_refl))))).
Defined.

(* ================================================================= *)
(** ** One operation as a transition of the collection and the file *)

Lemma read_id_used p lines : forall out r rest out',
  read_id p lines out = (r, rest, out') ->
  (exists used, lines = used ++ rest) /\ (r = Raise EOFError \/ exists i, r = Ret i).
Proof.
  induction lines as [| line lines IH]; intros out r rest out'.
  - intros [= <- <- _]. split; [exists []; reflexivity | left; reflexivity].
  - rewrite read_id_unfold. destruct (Py.int (strip line)) as [i |].
    + intros [= <- <- _]. split; [exists [line]; reflexivity | right; eauto].
    + intros H. destruct (IH _ _ _ _ H) as [[used ->] R].
      split; [exists (line :: used); reflexivity | exact R].
Qed.

Lemma read_priority_used p lines : forall out r rest out',
  read_priority p lines out = (r, rest, out') ->
  (exists used, lines = used ++ rest) /\
  (r = Raise EOFError \/ exists n, r = Ret n /\ valid_priority n = true).
Proof.
  induction lines as [| line lines IH]; intros out r rest out'.
  - intros [= <- <- _]. split; [exists []; reflexivity | left; reflexivity].
  - rewrite read_priority_unfold.
    assert (K : forall o, read_priority p lines o = (r, rest, out') ->
                (exists used, line :: lines = used ++ rest) /\
                (r = Raise EOFError \/ exists n, r = Ret n /\ valid_priority n = true)).
    { intros o H. destruct (IH _ _ _ _ H) as [[used ->] R].
      split; [exists (line :: used); reflexivity | exact R]. }
    destruct (Py.int (strip line)) as [n |]; [| apply K].
    destruct (valid_priority n) eqn:V; [| apply K].
    intros [= <- <- _]. split; [exists [line]; reflexivity | right; eauto].
Qed.

Ltac same used :=
  intros [= <- <-]; exists used; cbn [tasks disk stdin stdout];
  split; [rewrite <- ?app_assoc; reflexivity |];
  apply tr_same; cbn [tasks disk]; auto.

Lemma display_tasks_tracked : tracked display_tasks.
Proof.
  intros w r w'. destruct (display_tasks_run w) as (e & _ & ->). same (@nil str).
Qed.

Lemma written w used ts rest out1 out2 :
  change (tasks w) used ts ->
  match Fs.write (disk w) (dumps (tasks_json ts)) with
  | (Ret _, file) => transition w used (Ret tt) (mkWorld ts file rest out1)
  | (Raise e, file) => transition w used (Raise e) (mkWorld ts file rest out2)
  end.
Proof.
  intros C. destruct (Fs.write _ _) as [[[] | e] file] eqn:W.
  - apply tr_saved; assumption.
  - apply tr_unsaved; assumption.
Qed.

Lemma add_task_tracked : tracked add_task.
Proof.
  intros w r w'. unfold add_task. monad.
  destruct (stdin w) as [| line rest] eqn:St; cbn.
  - same (@nil str).
  - destruct (strip line) as [| c d] eqn:D; cbn.
    + same [line].
    + destruct (read_priority AskPriority rest _) as [[r0 rest'] out'] eqn:R.
      destruct (read_priority_used _ _ _ _ _ _ R) as [[used ->] V].
      destruct V as [-> | (p & -> & V)]; cbn.
      * same (line :: used).
      * assert (C : change (tasks w) (line :: used)
                      (tasks w ++ [new_task (tasks w) (strip line) p])).
        { apply ch_add; [left; reflexivity | rewrite D; discriminate | exact V]. }
        pose proof (written w _ _ rest'
                      (out' ++ [Added (generate_new_id (tasks w)) (c :: d) p])
                      out' C) as T.
        unfold new_task in T. rewrite D in T.
        destruct (Fs.write _ _) as [[[] | ?] ?]; cbn; intros [= <- <-];
          exists (line :: used); (split; [reflexivity | exact T]).
Qed.

Lemma delete_task_tracked : tracked delete_task.
Proof.
  intros w r w'. unfold delete_task. unfold bind at 1.
  destruct (display_tasks_run w) as (e0 & _ & ->).
  monad. destruct (tasks w) as [| t0 r0] eqn:T; cbn.
  - intros [= <- <-]. exists []. split; [reflexivity |].
    apply tr_same; cbn [tasks disk]; auto.
  - rewrite <- T.
    destruct (read_id AskDeleteId (stdin w) _) as [[r1 rest'] out'] eqn:R.
    destruct (read_id_used _ _ _ _ _ _ R) as [[used St] V].
    destruct V as [-> | (i & ->)]; cbn.
    + intros [= <- <-]. exists used. split; [exact St |].
      apply tr_same; cbn [tasks disk]; auto.
    + destruct (without_length i (tasks w)) as [_ L].
      destruct (Nat.ltb_spec (List.length (without i (tasks w)))
                             (List.length (tasks w))) as [Lt | Ge]; cbn.
      * assert (C : change (tasks w) used (without i (tasks w)))
          by (apply ch_delete, L, Lt).
        pose proof (written w _ _ rest' (out' ++ [Deleted i]) out' C) as K.
        destruct (Fs.write _ _) as [[[] | ?] ?]; cbn; intros [= <- <-];
          exists used; (split; [exact St | exact K]).
      * assert (A : ~ In i (ids (tasks w))) by (rewrite <- L; lia).
        rewrite (without_absent _ _ A).
        intros [= <- <-]. exists used. split; [exact St |].
        apply tr_same; cbn [tasks disk]; auto.
Qed.

Lemma complete_task_tracked : tracked complete_task.
Proof.
  intros w r w'. unfold complete_task. unfold bind at 1.
  destruct (display_tasks_run w) as (e0 & _ & ->).
  monad. destruct (tasks w) as [| t0 r0] eqn:T; cbn.
  - intros [= <- <-]. exists []. split; [reflexivity |].
    apply tr_same; cbn [tasks disk]; auto.
  - rewrite <- T.
    destruct (read_id AskCompleteId (stdin w) _) as [[r1 rest'] out'] eqn:R.
    destruct (read_id_used _ _ _ _ _ _ R) as [[used St] V].
    destruct V as [-> | (i & ->)]; cbn.
    + intros [= <- <-]. exists used. split; [exact St |].
      apply tr_same; cbn [tasks disk]; auto.
    + pose proof (mark_complete_found i (tasks w)) as F.
      pose proof (mark_complete_absent i (tasks w)) as A.
      destruct (mark_complete i (tasks w)) as [found ts'] eqn:MC.
      cbn [fst snd] in F, A.
      destruct found; cbn.
      * assert (C : change (tasks w) used ts').
        { replace ts' with (snd (mark_complete i (tasks w)))
            by (rewrite MC; reflexivity).
          apply ch_complete, F. reflexivity. }
        pose proof (written w _ _ rest' (out' ++ [MarkedComplete i]) out' C) as K.
        destruct (Fs.write _ _) as [[[] | ?] ?]; cbn; intros [= <- <-];
          exists used; (split; [exact St | exact K]).
      * rewrite A by reflexivity.
        intros [= <- <-]. exists used. split; [exact St |].
        apply tr_same; cbn [tasks disk]; auto.
Qed.

Lemma prioritize_task_tracked : tracked prioritize_task.
Proof.
  intros w r w'. unfold prioritize_task. unfold bind at 1.
  destruct (display_tasks_run w) as (e0 & _ & ->).
  monad. destruct (tasks w) as [| t0 r0] eqn:T; cbn.
  - intros [= <- <-]. exists []. split; [reflexivity |].
    apply tr_same; cbn [tasks disk]; auto.
  - rewrite <- T.
    destruct (read_id AskPrioritizeId (stdin w) _) as [[r1 rest'] out'] eqn:R.
    destruct (read_id_used _ _ _ _ _ _ R) as [[used St] V].
    destruct V as [-> | (i & ->)]; cbn.
    + intros [= <- <-]. exists used. split; [exact St |].
      apply tr_same; cbn [tasks disk]; auto.
    + destruct (find (fun task => id task =? i) (tasks w)) as [target |] eqn:F; cbn.
      * destruct (read_priority _ rest' _) as [[r2 rest2] out2] eqn:R2.
        destruct (read_priority_used _ _ _ _ _ _ R2) as [[used2 ->] V2].
        rewrite app_assoc in St.
        destruct V2 as [-> | (p & -> & V2)]; cbn.
        -- intros [= <- <-]. exists (used ++ used2). split; [exact St |].
           apply tr_same; cbn [tasks disk]; auto.
        -- assert (C : change (tasks w) (used ++ used2)
                         (assign_priority i p (tasks w)))
             by (apply ch_prioritize; [apply (find_id_some _ _ _ F) | exact V2]).
           pose proof (written w _ _ rest2 (out2 ++ [PriorityUpdated i p]) out2 C)
             as K.
           destruct (Fs.write _ _) as [[[] | ?] ?]; cbn; intros [= <- <-];
             exists (used ++ used2); (split; [exact St | exact K]).
      * intros [= <- <-]. exists used. split; [exact St |].
        apply tr_same; cbn [tasks disk]; auto.
Qed.

Lemma run_tracked op : tracked (run op).
Proof.
  destruct op; cbn [run].
  - apply display_tasks_tracked.
  - apply add_task_tracked.
  - apply complete_task_tracked.
  - apply prioritize_task_tracked.
  - apply delete_task_tracked.
Qed.

(* ================================================================= *)
(** ** One round of the menu loop *)

Lemma str_eqb_eq a : forall b, str_eqb a b = true <-> a = b.
Proof.
  induction a as [| x a IH]; intros [| y b]; cbn [str_eqb];
    try (split; [discriminate | discriminate]); [split; reflexivity |].
  rewrite andb_true_iff, N.eqb_eq, IH. split.
  - intros [-> ->]. reflexivity.
  - intros [= -> ->]. split; reflexivity.
Qed.

Lemma transition_moved w0 w used r w' :
  tasks w0 = tasks w -> disk w0 = disk w ->
  transition w0 used r w' -> transition w used r w'.
Proof.
  intros T D H. destruct H as [r w' R T' D' | w' C W | e w' C W].
  - apply tr_same; [exact R | congruence | congruence].
  - apply tr_saved; rewrite <- ?T, <- ?D; assumption.
  - apply tr_unsaved; rewrite <- ?T, <- ?D; assumption.
Qed.

(** One round of the menu loop. *)
Lemma main_loop_round n w r w' :
  main_loop (S n) w = (r, w') ->
  (stdin w = [] /\ r = Raise EOFError /\
   tasks w' = tasks w /\ disk w' = disk w /\ stdin w' = []) \/
  exists line rest,
    stdin w = line :: rest /\
    ((is_exit line /\ tasks w' = tasks w /\ stdin w' = rest /\
      match Fs.write (disk w) (dumps (tasks_json (tasks w))) with
      | (Ret _, file) => r = Ret true /\ disk w' = file
      | (Raise e, file) => r = Raise e /\ disk w' = file
      end) \/
     (~ is_exit line /\
      exists used r1 w1,
        rest = used ++ stdin w1 /\ transition w used r1 w1 /\
        match r1 with
        | Ret _ => main_loop n w1 = (r, w')
        | Raise e => r = Raise e /\ w' = w1
        end)).
Proof.
  cbn [main_loop]. unfold bind at 1.
  destruct (display_tasks_run w) as (e0 & _ & ->).
  unfold bind at 1. unfold show_menu, print at 1. cbn [tasks disk stdin stdout].
  unfold bind at 1. unfold input. cbn [tasks disk stdin stdout].
  destruct (stdin w) as [| line rest].
  { intros [= <- <-]. left. repeat split. }
  intros H. right. exists line, rest. split; [reflexivity |]. revert H.
  set (w0 := mkWorld (tasks w) (disk w) rest _).
  assert (Op : forall m : M unit, tracked m -> ~ is_exit line ->
            (m ;;; main_loop n) w0 = (r, w') ->
            ~ is_exit line /\
            exists used r1 w1,
              rest = used ++ stdin w1 /\ transition w used r1 w1 /\
              match r1 with
              | Ret _ => main_loop n w1 = (r, w')
              | Raise e => r = Raise e /\ w' = w1
              end).
  { intros m Hm NX. unfold bind. destruct (m w0) as [r1 w1] eqn:E.
    destruct (Hm _ _ _ E) as (used & St & Tr).
    intros H. split; [exact NX |]. exists used, r1, w1.
    split; [exact St |].
    split; [apply (transition_moved w0); [reflexivity | reflexivity | exact Tr] |].
    destruct r1 as [[] | e]; [exact H |].
    injection H as <- <-. split; reflexivity. }
  assert (NX : forall c, c <> text "0" ->
               str_eqb (strip line) c = true -> ~ is_exit line).
  { intros c Nc E X. apply str_eqb_eq in E. unfold is_exit in X. congruence. }
  destruct (str_eqb (strip line) (text "1")) eqn:E1.
  { intros H. right. split; [apply (NX (text "1") ltac:(intros K; vm_compute in K; discriminate K) E1) |].
    exists [], (Ret tt), w0. split; [reflexivity |].
    split; [apply tr_same; auto | exact H]. }
  destruct (str_eqb (strip line) (text "2")) eqn:E2.
  { intros H. right.
    apply (Op _ add_task_tracked (NX (text "2") ltac:(intros K; vm_compute in K; discriminate K) E2) H). }
  destruct (str_eqb (strip line) (text "3")) eqn:E3.
  { intros H. right.
    apply (Op _ complete_task_tracked (NX (text "3") ltac:(intros K; vm_compute in K; discriminate K) E3) H). }
  destruct (str_eqb (strip line) (text "4")) eqn:E4.
  { intros H. right.
    apply (Op _ prioritize_task_tracked (NX (text "4") ltac:(intros K; vm_compute in K; discriminate K) E4) H). }
  destruct (str_eqb (strip line) (text "5")) eqn:E5.
  { intros H. right.
    apply (Op _ delete_task_tracked (NX (text "5") ltac:(intros K; vm_compute in K; discriminate K) E5) H). }
  destruct (str_eqb (strip line) (text "0")) eqn:E0.
  - intros H. left. apply str_eqb_eq in E0. split; [exact E0 |].
    revert H. monad. destruct (Fs.write _ _) as [[[] | ?] ?]; intros [= <- <-]; repeat split.
  - intros H. right.
    assert (X : ~ is_exit line).
    { intros X. unfold is_exit in X. apply str_eqb_eq in X. congruence. }
    apply (Op (print InvalidChoice)); [| exact X | exact H].
    intros v r2 v'. unfold print. intros [= <- <-]. exists [].
    split; [reflexivity | apply tr_same; auto].
Qed.

(* ================================================================= *)
(** ** What operations and sessions keep *)

Lemma change_mutation ts used ts' : change ts used ts' -> mutation ts ts'.
Proof. intros C. destruct C; constructor. Qed.



Lemma operation_written op w w' :
  run op w = (Ret tt, w') ->
  tasks w' = tasks w /\ disk w' = disk w \/ stored w'.
Proof.
  intros H. destruct (run_tracked op _ _ _ H) as (used & _ & T).
  inversion T as [r0 w0 R Tk D | w0 C W |]; subst.
  - left. split; assumption.
  - right. apply (write_holds _ _ _ W).
Qed.

Lemma main_loop_exit_stored n : forall w w',
  main_loop n w = (Ret true, w') -> stored w'.
Proof.
  induction n as [| n IH]; intros w w'; [discriminate |].
  intros H. apply main_loop_round in H.
  destruct H as [(_ & R & _) | (line & rest & St & [X | X])];
    [discriminate R | |].
  - destruct X as (_ & T & _ & W).
    destruct (Fs.write _ _) as [[[] | e] file] eqn:F;
      [| destruct W as [W _]; discriminate W].
    destruct W as [_ D]. unfold stored. rewrite D, T.
    apply (write_holds _ _ _ F).
  - destruct X as (_ & used & r1 & w1 & _ & _ & K).
    destruct r1 as [u | e]; [apply (IH _ _ K) |].
    destruct K as [K _]. discriminate K.
Qed.

(** X7.  What is changed is written.  An operation that returns has either left
    the collection and the file as they were, or left a file that holds the
    collection; and when the menu loop is left through choice 0 the file
    holds the collection. *)
Theorem changes_are_written :
  (forall op w w',
      run op w = (Ret tt, w') ->
      tasks w' = tasks w /\ disk w' = disk w \/ stored w') /\
  (forall n w w', main_loop n w = (Ret true, w') -> stored w').
Proof.
  split; [exact operation_written | exact main_loop_exit_stored].
Qed.

Lemma changes_are_written_witness :
  let w := mkWorld two_tasks Fs.Missing [text "1"; text "0"] [] in
  fst (main_loop 2 w) = Ret true /\ stored (snd (main_loop 2 w)).
Proof.
  intros w.
  assert (H : main_loop 2 w = (Ret true, snd (main_loop 2 w)))
    by (vm_compute; reflexivity).
  split; [reflexivity |].
  exact (proj2 changes_are_written 2%nat w _ H).
Defined.


Lemma new_id_positive ts :
  Forall wf_task ts -> 1 <= generate_new_id ts.
Proof.
  intros F. destruct ts as [| t r]; [reflexivity |].
  destruct (largest_id_spec t r) as [I _].
  apply in_map_iff in I. destruct I as (x & E & I).
  rewrite Forall_forall in F. apply F in I. destruct I as [I _].
  unfold largest_id in E. lia.
Qed.

Lemma mark_complete_wf i ts :
  Forall wf_task ts -> Forall wf_task (snd (mark_complete i ts)).
Proof.
  induction 1 as [| t r W F IH]; [constructor |].
  unfold mark_complete; fold mark_complete.
  destruct (id t =? i).
  - constructor; [exact W | exact F].
  - destruct (mark_complete i r) as [f r']. constructor; [exact W | exact IH].
Qed.

Lemma assign_priority_wf i p ts :
  valid_priority p = true ->
  Forall wf_task ts -> Forall wf_task (assign_priority i p ts).
Proof.
  intros V. induction 1 as [| t r W F IH]; [constructor |].
  unfold assign_priority; fold assign_priority.
  destruct (id t =? i).
  - constructor; [| exact F]. destruct W as (W1 & W2 & _).
    repeat split; assumption.
  - constructor; [exact W | exact IH].
Qed.

Lemma change_wf ts used ts' :
  change ts used ts' -> Forall wf_task ts -> Forall wf_task ts'.
Proof.
  intros C F. destruct C as [line p I NE V | i I | i I | i p I V].
  - apply Forall_app. split; [exact F |]. constructor; [| constructor].
    repeat split; [apply new_id_positive, F | exact NE | exact V].
  - rewrite Forall_forall in *. intros t K. apply without_keeps in K.
    apply F, K.
  - apply mark_complete_wf, F.
  - apply assign_priority_wf; assumption.
Qed.

Lemma transition_wf w used r w1 :
  transition w used r w1 ->
  Forall wf_task (tasks w) /\ NoDup (ids (tasks w)) ->
  Forall wf_task (tasks w1) /\ NoDup (ids (tasks w1)).
Proof.
  intros T [F D].
  destruct T as [r w1 _ Tk _ | w1 C _ | e w1 C _];
    [rewrite Tk; split; assumption | |];
    (split; [apply (change_wf _ _ _ C F)
            | apply (mutation_distinct _ _ (change_mutation _ _ _ C) D)]).
Qed.

(** X8.  Well-formed collections stay well-formed: when every task has an id of
    at least 1, a non-empty description and a priority among 1, 2, 3, and
    ids are pairwise distinct, the same holds after every operation and at
    the end of every run of the menu loop, however they end. *)
Theorem tasks_stay_well_formed :
  (forall op w,
      Forall wf_task (tasks w) /\ NoDup (ids (tasks w)) ->
      let w' := snd (run op w) in
      Forall wf_task (tasks w') /\ NoDup (ids (tasks w'))) /\
  (forall n w,
      Forall wf_task (tasks w) /\ NoDup (ids (tasks w)) ->
      let w' := snd (main_loop n w) in
      Forall wf_task (tasks w') /\ NoDup (ids (tasks w'))).
Proof.
  split.
  - intros op w I w'. subst w'. destruct (run op w) as [r w'] eqn:H.
    destruct (run_tracked op _ _ _ H) as (used & _ & T).
    apply (transition_wf _ _ _ _ T I).
  - induction n as [| n IH]; intros w I w'; [exact I |]. subst w'.
    destruct (main_loop (S n) w) as [r w'] eqn:H. cbn [snd].
    apply main_loop_round in H.
    destruct H as [(_ & _ & T & _) | (line & rest & St & [X | X])].
    + rewrite T. exact I.
    + destruct X as (_ & T & _). rewrite T. exact I.
    + destruct X as (_ & used & r1 & w1 & _ & T & K).
      apply (transition_wf _ _ _ _ T) in I.
      destruct r1 as [u | e].
      * specialize (IH w1 I). cbv zeta in IH. rewrite K in IH. exact IH.
      * destruct K as [_ ->]. exact I.
Qed.

Lemma tasks_stay_well_formed_witness :
  let w := mkWorld two_tasks Fs.Missing
             [text "2"; text "Email team"; text "3"; text "5"; text "1";
              text "0"] [] in
  (Forall wf_task (tasks w) /\ NoDup (ids (tasks w))) /\
  Forall wf_task (tasks (snd (main_loop 4 w))) /\
  NoDup (ids (tasks (snd (main_loop 4 w)))).
Proof.
  intros w.
  assert (I : Forall wf_task (tasks w) /\ NoDup (ids (tasks w))).
  { split.
    - repeat constructor; discriminate.
    - repeat constructor; simpl; intuition discriminate. }
  split; [exact I |].
  exact (proj2 tasks_stay_well_formed 4%nat w I).
Defined.

(* ================================================================= *)
(** ** Sessions *)

Lemma mark_complete_text_ok i ts :
  forallb text_ok ts = true -> forallb text_ok (snd (mark_complete i ts)) = true.
Proof.
  induction ts as [| t r IH]; [reflexivity |].
  unfold mark_complete; fold mark_complete. cbn [forallb].
  intros H. apply andb_prop in H. destruct H as [H1 H2].
  destruct (id t =? i).
  - cbn [snd forallb]. rewrite H2. unfold text_ok in *. cbn [description set_completed].
    rewrite H1. reflexivity.
  - specialize (IH H2). destruct (mark_complete i r) as [f r'].
    cbn [snd forallb] in *. rewrite H1, IH. reflexivity.
Qed.

Lemma assign_priority_text_ok i p ts :
  forallb text_ok ts = true -> forallb text_ok (assign_priority i p ts) = true.
Proof.
  induction ts as [| t r IH]; [reflexivity |].
  unfold assign_priority; fold assign_priority. cbn [forallb].
  intros H. apply andb_prop in H. destruct H as [H1 H2].
  destruct (id t =? i); cbn [forallb].
  - rewrite H2. unfold text_ok in *. cbn [description set_priority].
    rewrite H1. reflexivity.
  - rewrite H1, (IH H2). reflexivity.
Qed.

Lemma change_text_ok ts used ts' :
  change ts used ts' ->
  Forall (fun line => forallb scalar line = true) used ->
  forallb text_ok ts = true -> forallb text_ok ts' = true.
Proof.
  intros C U F. destruct C as [line p I NE V | i I | i I | i p I V].
  - rewrite forallb_app, F. cbn [forallb]. unfold text_ok at 1, new_task.
    cbn [description]. rewrite Forall_forall in U.
    rewrite (strip_scalar _ (U _ I)). reflexivity.
  - rewrite forallb_forall in *. intros t K. apply without_keeps in K.
    apply F, K.
  - apply mark_complete_text_ok, F.
  - apply assign_priority_text_ok, F.
Qed.

Lemma transition_resumable w used r w1 :
  transition w used r w1 ->
  Forall (fun line => forallb scalar line = true) used ->
  forallb text_ok (tasks w) = true -> usable (disk w) ->
  forallb text_ok (tasks w1) = true /\ usable (disk w1).
Proof.
  intros T Lu F U.
  destruct T as [r w1 _ Tk D | w1 C W | e w1 C W].
  - split; [rewrite Tk; exact F | rewrite D; exact U].
  - split; [apply (change_text_ok _ _ _ C Lu F) |].
    apply (write_usable _ _ _ _ W U).
  - destruct (write_usable _ _ _ _ W U) as [K _]. discriminate K.
Qed.

Lemma main_loop_resumable n : forall w r w',
  resumable w -> main_loop n w = (r, w') -> resumable w'.
Proof.
  induction n as [| n IH]; intros w r w' I; [intros [= _ <-]; exact I |].
  intros H. apply main_loop_round in H.
  destruct I as (F & L & U).
  destruct H as [(_ & _ & T & D & St) | (line & rest & St & [X | X])].
  - repeat split; [rewrite T; exact F | rewrite St; constructor
                  | rewrite D; exact U].
  - destruct X as (_ & T & St' & W). rewrite St in L.
    repeat split;
      [rewrite T; exact F | rewrite St'; apply (Forall_inv_tail L) |].
    destruct (Fs.write _ _) as [r0 file] eqn:Wr.
    destruct (write_usable _ _ _ _ Wr U) as [-> U'].
    destruct W as [_ ->]. exact U'.
  - destruct X as (_ & used & r1 & w1 & Su & T & K).
    assert (I1 : resumable w1).
    { rewrite St in L. apply Forall_inv_tail in L.
      rewrite Su in L. apply Forall_app in L. destruct L as [Lu L1].
      destruct (transition_resumable _ _ _ _ T Lu F U) as [F1 U1].
      repeat split; assumption. }
    destruct r1 as [u | e]; [apply (IH _ _ _ I1 K) |].
    destruct K as [_ ->]. exact I1.
Qed.

(** X9.  A session leaves what the next one loads.  Starting with a usable file
    and text of Unicode scalar values (in the descriptions and in what is
    typed), when the menu loop is left through choice 0, [load_tasks] on
    the file it leaves returns the task dictionaries of the collection the
    session ended with, in the same order, and the same tasks are read back
    from them. *)
Theorem session_is_persistent n w w' :
  resumable w -> main_loop n w = (Ret true, w') ->
  load_tasks w' = (Ret (tasks_json (tasks w')), w') /\
  json_tasks (tasks_json (tasks w')) = Some (tasks w').
Proof.
  intros I H.
  destruct (main_loop_resumable _ _ _ _ I H) as (F & _ & U).
  pose proof (main_loop_exit_stored _ _ _ H) as D. unfold stored in D.
  split; [| apply JsonFacts.json_tasks_tasks_json].
  unfold load_tasks.
  destruct (disk w') as [| | r wr c | r wr | r room c]; try contradiction.
  destruct U as [-> ->]. cbn in D. subst c.
  cbn [Fs.path_exists Fs.read].
  rewrite (JsonFacts.loads_dumps_tasks _ F). reflexivity.
Qed.

Lemma session_is_persistent_witness :
  let w := mkWorld two_tasks (Fs.File true true (text "[]"))
             [text "2"; text "Email team"; text "3"; text "0"] [] in
  resumable w /\ fst (main_loop 3 w) = Ret true /\
  load_tasks (snd (main_loop 3 w)) =
  (Ret (tasks_json (two_tasks ++ [mkTask 3 (text "Email team") 3 false])),
   snd (main_loop 3 w)).
Proof.
  intros w.
  assert (I : resumable w).
  { split; [reflexivity |]. split; [| split; reflexivity].
    repeat constructor. }
  assert (H : main_loop 3 w = (Ret true, snd (main_loop 3 w)))
    by (vm_compute; reflexivity).
  split; [exact I |]. split; [reflexivity |].
  exact (proj1 (session_is_persistent 3%nat w _ I H)).
Defined.





(* ================================================================= *)
(** ** Undoing and repeating a change *)

Lemma without_app i a b : without i (a ++ b) = without i a ++ without i b.
Proof. unfold without. apply filter_app. Qed.

Lemma without_twice i ts : without i (without i ts) = without i ts.
Proof.
  apply without_absent. rewrite ids_without. intros K.
  apply filter_In in K. destruct K as [_ K]. rewrite Z.eqb_refl in K.
  discriminate K.
Qed.

Lemma mark_complete_twice i ts :
  snd (mark_complete i (snd (mark_complete i ts))) = snd (mark_complete i ts).
Proof.
  induction ts as [| t r IH]; [reflexivity |].
  unfold mark_complete at 2 3; fold mark_complete.
  destruct (id t =? i) eqn:E.
  - cbn [snd]. unfold mark_complete; fold mark_complete.
    cbn [id set_completed]. rewrite E. reflexivity.
  - destruct (mark_complete i r) as [f r'] eqn:M. cbn [snd] in *.
    unfold mark_complete; fold mark_complete. rewrite E.
    destruct (mark_complete i r') as [f' r'']. cbn [snd] in *.
    rewrite IH. reflexivity.
Qed.

Lemma assign_priority_twice i p q ts :
  assign_priority i p (assign_priority i q ts) = assign_priority i p ts.
Proof.
  induction ts as [| t r IH]; [reflexivity |].
  unfold assign_priority at 2 3; fold assign_priority.
  destruct (id t =? i) eqn:E.
  - unfold assign_priority; fold assign_priority.
    cbn [id set_priority]. rewrite E. reflexivity.
  - unfold assign_priority; fold assign_priority. rewrite E, IH. reflexivity.
Qed.

(** X12.  Deleting the id of the task just added gives back the collection as it
    was before the add.  Deleting an id a second time removes nothing more,
    completing a task a second time changes nothing more, and of two
    priority updates of the same id the second one stands. *)
Theorem undo_and_repeat :
  (forall ts d p,
      without (generate_new_id ts) (ts ++ [new_task ts d p]) = ts) /\
  (forall i ts, without i (without i ts) = without i ts) /\
  (forall i ts,
      snd (mark_complete i (snd (mark_complete i ts))) =
      snd (mark_complete i ts)) /\
  (forall i p q ts,
      assign_priority i p (assign_priority i q ts) = assign_priority i p ts).
Proof.
  split; [| split; [exact without_twice |
                    split; [exact mark_complete_twice
                           | exact assign_priority_twice]]].
  intros ts d p. rewrite without_app, (without_absent _ _ (new_id_fresh ts)).
  unfold without, new_task. cbn [filter id]. rewrite Z.eqb_refl.
  apply List.app_nil_r.
Qed.

Lemma main_loop_ends_witness :
  let w := mkWorld two_tasks Fs.Directory [text "5"; text "x"; text "7"] [] in
  (List.length (stdin w) < 4)%nat /\ fst (main_loop 4 w) <> Ret false.
Proof.
  intros w.
  assert (Lt : (List.length (stdin w) < 4)%nat) by (cbv; lia).
  split; [exact Lt | exact (main_loop_ends 4%nat w Lt)].
Defined.
